(** * static/js/main.js: a shallow embedding and its verified properties

    The script is browser glue: a URL validator built on one regular
    expression, two submit handlers, an alert presenter with timers, a
    clipboard helper, two formatters and a progress animation.

    Layout of this development:
    - [JsString]: JavaScript strings as sequences of UTF-16 code units,
      [String.prototype.trim], [padStart], decimal printing;
    - [RegExp]: the fragment of the regular expression language used by
      [isValidYouTubeUrl], with a backtracking matcher;
    - [Validator], [Format], [Animation]: the pure functions of the script;
    - [Dom], [Browser]: the document tree, the timer queue and the small
      state-and-exception monad in which the effectful functions run;
    - [Page]: [showAlert], the submit handlers, the page-load pass and the
      clipboard helper;
    - [DomFacts], [PageFacts]: lemmas on the document tree and the
      properties of the effectful functions. *)

From Stdlib Require Import List ZArith NArith QArith Qminmax Lia Bool String Ascii.
From Stdlib Require Import Qround Qabs Qpower Lqa.
From Stdlib Require Import DecimalString Permutation.
Import ListNotations.

Close Scope Q_scope.
Local Open Scope list_scope.

(* ===================================================================== *)
(** * JavaScript strings *)
(* ===================================================================== *)

Module JsString.

(** A JavaScript string is a finite sequence of UTF-16 code units. *)
Definition ustring := list N.

(** [u "abc"] is the string literal 'abc' of the source. *)
Definition u (s : string) : ustring := map N_of_ascii (list_ascii_of_string s).

Definition ueqb (a b : ustring) : bool :=
  if list_eq_dec N.eq_dec a b then true else false.

Lemma ueqb_eq a b : ueqb a b = true <-> a = b.
Proof. unfold ueqb. destruct (list_eq_dec N.eq_dec a b); split; congruence. Qed.

Lemma ueqb_refl a : ueqb a a = true.
Proof. now apply ueqb_eq. Qed.

Definition mem (c : N) (cs : list N) : bool := existsb (N.eqb c) cs.

Lemma mem_In c cs : mem c cs = true <-> In c cs.
Proof.
  unfold mem. rewrite existsb_exists. split.
  - intros (x & Hx & E). apply N.eqb_eq in E. now subst.
  - intros H. exists c. split; [assumption | apply N.eqb_refl].
Qed.

(** ECMAScript LineTerminator code points: LF, CR, LS, PS. *)
Definition line_terminators : list N := [10; 13; 8232; 8233]%N.

Definition is_line_terminator (c : N) : bool := mem c line_terminators.

(** ECMAScript WhiteSpace code points: TAB, VT, FF, SP, NBSP, ZWNBSP and the
    Unicode space separators. *)
Definition white_space : list N :=
  [9; 11; 12; 32; 160; 65279;
   5760; 8192; 8193; 8194; 8195; 8196; 8197; 8198; 8199; 8200; 8201; 8202;
   8239; 8287; 12288]%N.

(** What [trim] strips: WhiteSpace and LineTerminator. *)
Definition is_space (c : N) : bool := mem c white_space || is_line_terminator c.

Fixpoint trimStart (s : ustring) : ustring :=
  match s with
  | c :: s' => if is_space c then trimStart s' else s
  | [] => []
  end.

Definition trimEnd (s : ustring) : ustring := rev (trimStart (rev s)).

(** [String.prototype.trim]. *)
Definition trim (s : ustring) : ustring := trimEnd (trimStart s).

(** [String.prototype.padStart(n, c)] with a one-unit filler. *)
Definition padStart (n : nat) (c : N) (s : ustring) : ustring :=
  repeat c (n - List.length s) ++ s.

(** [Number.prototype.toString] on an integer below 10^21. *)
Definition of_Z (z : Z) : ustring := u (NilZero.string_of_int (Z.to_int z)).

(** Truthiness of a string: only the empty string is falsy. *)
Definition truthy (s : ustring) : bool :=
  match s with [] => false | _ => true end.

Lemma trimStart_all_space s : forallb is_space s = true -> trimStart s = [].
Proof.
  induction s as [|c s IH]; simpl; [reflexivity|].
  intros H. apply andb_true_iff in H as [Hc Hs]. rewrite Hc. auto.
Qed.

Lemma trimStart_app_space ws s :
  forallb is_space ws = true -> trimStart (ws ++ s) = trimStart s.
Proof.
  induction ws as [|c ws IH]; simpl; [reflexivity|].
  intros H. apply andb_true_iff in H as [Hc Hs]. rewrite Hc. auto.
Qed.

Lemma trimStart_head c s : is_space c = false -> trimStart (c :: s) = c :: s.
Proof. intros H. simpl. now rewrite H. Qed.

Lemma trimStart_nil_iff s : trimStart s = [] <-> forallb is_space s = true.
Proof.
  split; [|apply trimStart_all_space].
  induction s as [|c s IH]; simpl; [reflexivity|].
  destruct (is_space c); simpl; [assumption | discriminate].
Qed.

Lemma forallb_rev {A} (p : A -> bool) l : forallb p (rev l) = forallb p l.
Proof.
  induction l as [|a l IH]; simpl; [reflexivity|].
  rewrite forallb_app, IH. simpl. rewrite andb_true_r. apply andb_comm.
Qed.

Lemma trimEnd_app_space s ws :
  forallb is_space ws = true -> trimEnd (s ++ ws) = trimEnd s.
Proof.
  intros H. unfold trimEnd. rewrite rev_app_distr.
  rewrite trimStart_app_space; [reflexivity|]. now rewrite forallb_rev.
Qed.

Lemma trimEnd_last s c : is_space c = false -> trimEnd (s ++ [c]) = s ++ [c].
Proof.
  intros H. unfold trimEnd. rewrite rev_app_distr. simpl. rewrite H.
  simpl. now rewrite rev_involutive.
Qed.

(** A string with no surrounding white space: non-empty, first and last code
    unit are not white space. *)
Definition trimmed (s : ustring) : Prop :=
  exists c s', s = c :: s' /\ is_space c = false /\
               is_space (last s 0%N) = false.

Lemma trim_all_space s : forallb is_space s = true -> trim s = [].
Proof. intros H. unfold trim. now rewrite trimStart_all_space. Qed.

Lemma trim_nil_iff s : trim s = [] <-> forallb is_space s = true.
Proof.
  split; [|apply trim_all_space].
  unfold trim, trimEnd. intros H.
  apply (f_equal (@rev N)) in H. rewrite rev_involutive in H. simpl in H.
  apply trimStart_nil_iff in H. rewrite forallb_rev in H.
  revert H. induction s as [|c s IH]; simpl; [reflexivity|].
  destruct (is_space c) eqn:E; simpl; [assumption|].
  rewrite E. discriminate.
Qed.

Lemma trim_trimmed s : trimmed s -> trim s = s.
Proof.
  intros (c & s' & -> & Hc & Hl). unfold trim.
  rewrite trimStart_head by assumption.
  destruct (exists_last (l := c :: s')) as (b & z & E); [discriminate|].
  rewrite E in Hl |- *. rewrite last_last in Hl. now apply trimEnd_last.
Qed.

Lemma trim_padding ws1 s ws2 :
  forallb is_space ws1 = true -> forallb is_space ws2 = true ->
  trim (ws1 ++ s ++ ws2) = trim s.
Proof.
  intros H1 H2. unfold trim. rewrite trimStart_app_space by assumption.
  destruct (forallb is_space s) eqn:Hs.
  - rewrite (trimStart_all_space s Hs).
    rewrite trimStart_all_space; [reflexivity|].
    rewrite forallb_app, Hs, H2. reflexivity.
  - assert (G : forall t, forallb is_space t = false ->
               trimStart (t ++ ws2) = trimStart t ++ ws2).
    { induction t as [|c t IH]; simpl; [discriminate|].
      destruct (is_space c); simpl; [assumption | reflexivity]. }
    rewrite G by assumption. now apply trimEnd_app_space.
Qed.

End JsString.
Import JsString.

(* ===================================================================== *)
(** * Regular expressions *)
(* ===================================================================== *)

Module RegExp.

(** One-character patterns: a literal, [.] (anything but a line terminator;
    the pattern has no [s] flag) and a negated class [[^...]]. Without the
    [u] flag a pattern character is one UTF-16 code unit. *)
Inductive atom : Type :=
| Chr (c : N)
| Dot
| NoneOf (cs : list N).

Definition atom_matches (a : atom) (c : N) : bool :=
  match a with
  | Chr x => N.eqb c x
  | Dot => negb (is_line_terminator c)
  | NoneOf cs => negb (mem c cs)
  end.

(** The pattern constructs of the source: [^], one-character patterns,
    sequence, [|], greedy [?], greedy [+] and [{n}] on a one-character
    pattern. Capture groups only record text and do not change what [test]
    answers, so a group is its body. *)
Inductive regex : Type :=
| Eps
| Bol
| One (a : atom)
| Seq (r1 r2 : regex)
| Alt (r1 r2 : regex)
| Opt (r : regex)
| Plus (a : atom)
| Rep (n : nat) (a : atom).

Notation "r1 +++ r2" := (Seq r1 r2) (at level 61, right associativity).

(** A literal run of characters. *)
Fixpoint Lit (s : ustring) : regex :=
  match s with
  | [] => Eps
  | c :: s' => One (Chr c) +++ Lit s'
  end.

(** Backtracking matcher in continuation-passing style. [pos] is the index
    of the next code unit in the whole input, [s] the rest of the input and
    [k] what has to match after [r]. Alternatives are tried left to right and
    the quantifiers are greedy, as in ECMAScript. *)
Fixpoint plus_loop (a : atom) (k : nat -> ustring -> bool)
         (pos : nat) (s : ustring) : bool :=
  match s with
  | c :: s' =>
      atom_matches a c && (plus_loop a k (S pos) s' || k (S pos) s')
  | [] => false
  end.

Fixpoint rep_loop (n : nat) (a : atom) (k : nat -> ustring -> bool)
         (pos : nat) (s : ustring) : bool :=
  match n with
  | O => k pos s
  | S n' =>
      match s with
      | c :: s' => atom_matches a c && rep_loop n' a k (S pos) s'
      | [] => false
      end
  end.

Fixpoint run (r : regex) (pos : nat) (s : ustring)
         (k : nat -> ustring -> bool) : bool :=
  match r with
  | Eps => k pos s
  | Bol => Nat.eqb pos 0 && k pos s
  | One a =>
      match s with
      | c :: s' => atom_matches a c && k (S pos) s'
      | [] => false
      end
  | Seq r1 r2 => run r1 pos s (fun pos' s' => run r2 pos' s' k)
  | Alt r1 r2 => run r1 pos s k || run r2 pos s k
  | Opt r1 => run r1 pos s k || k pos s
  | Plus a => plus_loop a k pos s
  | Rep n a => rep_loop n a k pos s
  end.

(** A match attempt at one start index succeeds as soon as the pattern is
    consumed: the rest of the input is not inspected. *)
Definition match_at (r : regex) (pos : nat) (s : ustring) : bool :=
  run r pos s (fun _ _ => true).

(** [RegExp.prototype.test] for a pattern without the [g] and [y] flags:
    start indices 0, 1, ..., length are tried in turn. *)
Fixpoint search (r : regex) (pos : nat) (s : ustring) : bool :=
  match_at r pos s ||
  match s with
  | _ :: s' => search r (S pos) s'
  | [] => false
  end.

Definition test (r : regex) (s : ustring) : bool := search r 0 s.

(** ** The language of a pattern *)

(** [lang r pos w]: the pattern [r] can consume exactly [w] when it starts at
    index [pos] of the input. *)
Fixpoint lang (r : regex) (pos : nat) (w : ustring) : Prop :=
  match r with
  | Eps => w = []
  | Bol => pos = 0 /\ w = []
  | One a => exists c, w = [c] /\ atom_matches a c = true
  | Seq r1 r2 =>
      exists w1 w2, w = w1 ++ w2 /\ lang r1 pos w1 /\
                    lang r2 (pos + List.length w1) w2
  | Alt r1 r2 => lang r1 pos w \/ lang r2 pos w
  | Opt r1 => lang r1 pos w \/ w = []
  | Plus a => w <> [] /\ Forall (fun c => atom_matches a c = true) w
  | Rep n a => List.length w = n /\ Forall (fun c => atom_matches a c = true) w
  end.

(** What the continuation receives after [w] was consumed. *)
Definition continues (k : nat -> ustring -> bool) (pos : nat)
           (w s' : ustring) : Prop :=
  k (pos + List.length w) s' = true.

Lemma plus_loop_spec a k : forall s pos,
  plus_loop a k pos s = true <->
  exists w s', s = w ++ s' /\ lang (Plus a) pos w /\ continues k pos w s'.
Proof.
  unfold continues.
  induction s as [|c s IH]; intros pos; simpl.
  - split; [discriminate|].
    intros (w & s' & E & (Hne & _) & _).
    destruct w; [congruence | discriminate].
  - rewrite andb_true_iff, orb_true_iff, IH. split.
    + intros (Hc & [(w & s' & -> & (Hne & Hall) & Hk) | Hk]).
      * exists (c :: w), s'. simpl. repeat split; try discriminate.
        -- now constructor.
        -- now rewrite Nat.add_succ_r in *.
      * exists [c], s. simpl. repeat split; try discriminate.
        -- now constructor.
        -- now rewrite Nat.add_1_r.
    + intros (w & s' & E & (Hne & Hall) & Hk).
      destruct w as [|c' w]; [congruence|].
      simpl in E. injection E as -> ->.
      inversion Hall as [|? ? Hc Hw]; subst. split; [assumption|].
      destruct w as [|c'' w].
      * right. simpl in Hk. now rewrite Nat.add_1_r in Hk.
      * left. exists (c'' :: w), s'. repeat split; try discriminate.
        -- assumption.
        -- simpl in *. now rewrite !Nat.add_succ_r in *.
Qed.

Lemma rep_loop_spec a k : forall n s pos,
  rep_loop n a k pos s = true <->
  exists w s', s = w ++ s' /\ lang (Rep n a) pos w /\ continues k pos w s'.
Proof.
  unfold continues.
  induction n as [|n IH]; intros s pos; simpl.
  - split.
    + intros Hk. exists [], s. simpl. rewrite Nat.add_0_r. now repeat split.
    + intros (w & s' & -> & (Hl & _) & Hk).
      apply length_zero_iff_nil in Hl. subst. simpl in *.
      now rewrite Nat.add_0_r in Hk.
  - destruct s as [|c s].
    + split; [discriminate|].
      intros (w & s' & E & (Hl & _) & _).
      destruct w; simpl in *; [lia | discriminate].
    + rewrite andb_true_iff, IH. split.
      * intros (Hc & w & s' & -> & (Hl & Hall) & Hk).
        exists (c :: w), s'. simpl. repeat split.
        -- now f_equal.
        -- now constructor.
        -- now rewrite Nat.add_succ_r in *.
      * intros (w & s' & E & (Hl & Hall) & Hk).
        destruct w as [|c' w]; simpl in Hl; [lia|].
        simpl in E. injection E as -> ->.
        inversion Hall; subst. split; [assumption|].
        exists w, s'. repeat split; try assumption; try lia.
        simpl in Hk. now rewrite Nat.add_succ_r in Hk.
Qed.

(** The matcher finds a match exactly when the input splits into a word of
    the pattern's language and a rest that the continuation accepts. *)
Lemma run_spec : forall r pos s k,
  run r pos s k = true <->
  exists w s', s = w ++ s' /\ lang r pos w /\ continues k pos w s'.
Proof.
  unfold continues.
  induction r as [| |a|r1 IH1 r2 IH2|r1 IH1 r2 IH2|r1 IH1|a|n a];
    intros pos s k; simpl.
  - split.
    + intros Hk. exists [], s. simpl. now rewrite Nat.add_0_r.
    + intros (w & s' & -> & -> & Hk). simpl in Hk.
      now rewrite Nat.add_0_r in Hk.
  - rewrite andb_true_iff, Nat.eqb_eq. split.
    + intros (-> & Hk). exists [], s. simpl. auto.
    + intros (w & s' & -> & (-> & ->) & Hk). simpl in *. auto.
  - destruct s as [|c s].
    + split; [discriminate|].
      intros (w & s' & E & (c & -> & _) & _). discriminate.
    + rewrite andb_true_iff. split.
      * intros (Hc & Hk). exists [c], s. simpl. repeat split.
        -- now exists c.
        -- now rewrite Nat.add_1_r.
      * intros (w & s' & E & (c' & -> & Hc) & Hk).
        simpl in E. injection E as -> ->. simpl in Hk.
        rewrite Nat.add_1_r in Hk. auto.
  - rewrite IH1. split.
    + intros (w1 & s1 & -> & H1 & Hk). apply IH2 in Hk.
      destruct Hk as (w2 & s2 & -> & H2 & Hk).
      exists (w1 ++ w2), s2. rewrite <- app_assoc. repeat split.
      * now exists w1, w2.
      * now rewrite length_app, Nat.add_assoc.
    + intros (w & s' & -> & (w1 & w2 & -> & H1 & H2) & Hk).
      exists w1, (w2 ++ s'). rewrite <- app_assoc. repeat split; [assumption|].
      apply IH2. exists w2, s'. repeat split; [assumption|].
      now rewrite length_app, Nat.add_assoc in Hk.
  - rewrite orb_true_iff, IH1, IH2. split.
    + intros [(w & s' & E & H & Hk) | (w & s' & E & H & Hk)];
        exists w, s'; auto.
    + intros (w & s' & E & [H | H] & Hk); [left | right];
        exists w, s'; auto.
  - rewrite orb_true_iff, IH1. split.
    + intros [(w & s' & E & H & Hk) | Hk].
      * exists w, s'. auto.
      * exists [], s. simpl. rewrite Nat.add_0_r. auto.
    + intros (w & s' & E & [H | ->] & Hk).
      * left. exists w, s'. auto.
      * right. simpl in *. subst. now rewrite Nat.add_0_r in Hk.
  - apply plus_loop_spec.
  - apply rep_loop_spec.
Qed.

Lemma match_at_spec r pos s :
  match_at r pos s = true <-> exists w s', s = w ++ s' /\ lang r pos w.
Proof.
  unfold match_at. rewrite run_spec. unfold continues.
  split; intros (w & s' & E & H); exists w, s'; intuition.
Qed.

Lemma lang_Lit s : forall pos w, lang (Lit s) pos w <-> w = s.
Proof.
  induction s as [|c s IH]; intros pos w; simpl; [reflexivity|].
  split.
  - intros (w1 & w2 & -> & (c' & -> & Hc) & H2).
    apply N.eqb_eq in Hc. apply IH in H2. now subst.
  - intros ->. exists [c], s. repeat split.
    + exists c. split; [reflexivity | apply N.eqb_refl].
    + now apply IH.
Qed.

(** A pattern anchored with [^] cannot match at a later start index, so
    [test] only ever succeeds at index 0. *)
Lemma search_anchored r : forall s pos,
  search (Bol +++ r) (S pos) s = false.
Proof.
  induction s as [|c s IH]; intros pos; simpl; [reflexivity|].
  unfold match_at. simpl. apply IH.
Qed.

Lemma test_anchored r s : test (Bol +++ r) s = match_at (Bol +++ r) 0 s.
Proof.
  unfold test. destruct s as [|c s]; simpl.
  - now rewrite orb_false_r.
  - now rewrite search_anchored, orb_false_r.
Qed.

End RegExp.

(* ===================================================================== *)
(** * The URL validator *)
(* ===================================================================== *)

Module Validator.
Import RegExp.

(** The groups of the pattern of [isValidYouTubeUrl], in source order:
    [(https?:\/\/)?], [(www\.)?], [(youtube|youtu|youtube-nocookie)],
    [(com|be)], [(watch\?v=|embed\/|v\/|.+\?v=)?] and [([^&=%\?]{11})]. *)
Definition scheme_re : regex :=
  Opt (Lit (u "http") +++ Opt (One (Chr 115)) +++ Lit (u "://")).

Definition www_re : regex := Opt (Lit (u "www.")).

Definition host_re : regex :=
  Alt (Lit (u "youtube")) (Alt (Lit (u "youtu")) (Lit (u "youtube-nocookie"))).

Definition suffix_re : regex := Alt (Lit (u "com")) (Lit (u "be")).

Definition path_re : regex :=
  Opt (Alt (Lit (u "watch?v="))
      (Alt (Lit (u "embed/"))
      (Alt (Lit (u "v/"))
           (Plus Dot +++ Lit (u "?v="))))).

Definition id_re : regex := Rep 11 (NoneOf (u "&=%?")).

Definition youtubeRegex : regex :=
  Bol +++ scheme_re +++ www_re +++ host_re +++ Lit (u ".") +++ suffix_re
      +++ Lit (u "/") +++ path_re +++ id_re.

Definition isValidYouTubeUrl (url : ustring) : bool := test youtubeRegex url.

(** ** The strings the pattern accepts *)

(** What each group of the pattern consumes. The group of the path/query
    segment is optional in the pattern: it consumes one of the three fixed
    path prefixes, any one-line text followed by [?v=], or nothing. *)
Definition schemes : list ustring := [[]; u "http://"; u "https://"].
Definition www_prefixes : list ustring := [[]; u "www."].
Definition hosts : list ustring :=
  [u "youtube"; u "youtu"; u "youtube-nocookie"].
Definition suffixes : list ustring := [u "com"; u "be"].

Inductive path_query_segment : ustring -> Prop :=
| segment_absent : path_query_segment []
| segment_watch : path_query_segment (u "watch?v=")
| segment_embed : path_query_segment (u "embed/")
| segment_v : path_query_segment (u "v/")
| segment_query p :
    p <> [] -> Forall (fun c => is_line_terminator c = false) p ->
    path_query_segment (p ++ u "?v=").

(** The video-id token: eleven code units, none of them [&], [=], [%], [?]. *)
Definition id_terminators : list N := u "&=%?".

Definition id_token (id : ustring) : Prop :=
  List.length id = 11 /\ Forall (fun c => mem c id_terminators = false) id.

(** Everything that comes before the id token, with a path/query segment
    that satisfies [segment]. *)
Definition prefix_with (segment : ustring -> Prop) (pre : ustring) : Prop :=
  exists scheme www host suffix path,
    pre = scheme ++ www ++ host ++ u "." ++ suffix ++ u "/" ++ path /\
    In scheme schemes /\ In www www_prefixes /\ In host hosts /\
    In suffix suffixes /\ segment path.

Definition url_prefix : ustring -> Prop := prefix_with path_query_segment.

(** The strings the pattern accepts: the segment may be absent and the text
    after the eleven id characters is not looked at. *)
Definition AcceptedShape (url : ustring) : Prop :=
  exists pre id rest, url = pre ++ id ++ rest /\ url_prefix pre /\ id_token id.

(** ** The documented URL shape *)

(** The shape in the words of the specification: optional scheme, optional
    [www.], host, domain suffix, a path/query segment, and an 11-character
    video-id token terminated before [&], [=], [%] or [?]. The segment is
    there, and the token ends where the string ends or where one of the four
    terminators stands. *)
Definition documented_segment (path : ustring) : Prop :=
  path_query_segment path /\ path <> [].

Definition terminated (rest : ustring) : Prop :=
  match rest with
  | [] => True
  | c :: _ => In c id_terminators
  end.

Definition DocumentedShape (url : ustring) : Prop :=
  exists pre id rest,
    url = pre ++ id ++ rest /\ prefix_with documented_segment pre /\
    id_token id /\ terminated rest.

(** The documented shape as a pattern with a mandatory segment, run by the
    same matcher; the continuation looks at what follows the token. *)
Definition segment_re : regex :=
  Alt (Lit (u "watch?v="))
      (Alt (Lit (u "embed/"))
      (Alt (Lit (u "v/"))
           (Plus Dot +++ Lit (u "?v=")))).

Definition documentedRegex : regex :=
  Bol +++ scheme_re +++ www_re +++ host_re +++ Lit (u ".") +++ suffix_re
      +++ Lit (u "/") +++ segment_re +++ id_re.

Definition terminated_b (rest : ustring) : bool :=
  match rest with
  | [] => true
  | c :: _ => mem c id_terminators
  end.

Definition documented_b (url : ustring) : bool :=
  run documentedRegex 0 url (fun _ rest => terminated_b rest).

Example valid_watch :
  isValidYouTubeUrl (u "https://www.youtube.com/watch?v=dQw4w9WgXcQ") = true.
Proof. reflexivity. Qed.

Example valid_short : isValidYouTubeUrl (u "youtu.be/dQw4w9WgXcQ") = true.
Proof. reflexivity. Qed.

Example valid_nocookie :
  isValidYouTubeUrl (u "http://youtube-nocookie.com/embed/dQw4w9WgXcQ?rel=0")
  = true.
Proof. reflexivity. Qed.

Example valid_late_query :
  isValidYouTubeUrl (u "youtube.com/playlist?list=PL&x=1?v=dQw4w9WgXcQ") = true.
Proof. reflexivity. Qed.

(** Nothing is required of the text after the eleven id characters. *)
Example valid_longer_tail :
  isValidYouTubeUrl (u "youtube.com/watch?v=dQw4w9WgXcQ-and-more&t=1") = true.
Proof. reflexivity. Qed.

Example invalid_short_id :
  isValidYouTubeUrl (u "https://youtube.com/watch?v=short") = false.
Proof. reflexivity. Qed.

Example invalid_other_host :
  isValidYouTubeUrl (u "https://example.com/watch?v=dQw4w9WgXcQ") = false.
Proof. reflexivity. Qed.

Example invalid_leading_space :
  isValidYouTubeUrl (u " youtu.be/dQw4w9WgXcQ") = false.
Proof. reflexivity. Qed.

(** ** Each group recognises its part of the shape *)

Lemma lang_scheme pos w : lang scheme_re pos w <-> In w schemes.
Proof.
  unfold scheme_re, schemes. cbn [lang In]. split.
  - intros [(w1 & w2 & -> & H1 & w3 & w4 & -> & H3 & H4) | ->]; [|auto].
    apply lang_Lit in H1, H4. subst.
    destruct H3 as [(c & -> & Hc) | ->].
    + apply N.eqb_eq in Hc. subst. auto.
    + auto.
  - intros [<- | [<- | [<- | []]]]; [now right | left | left].
    + exists (u "http"), (u "://"). repeat split; [now apply lang_Lit|].
      exists [], (u "://"). repeat split; [now right | now apply lang_Lit].
    + exists (u "http"), (u "s://"). repeat split; [now apply lang_Lit|].
      exists (u "s"), (u "://"). repeat split; [|now apply lang_Lit].
      left. now exists 115%N.
Qed.

Lemma lang_www pos w : lang www_re pos w <-> In w www_prefixes.
Proof.
  unfold www_re, www_prefixes. cbn [lang In]. rewrite lang_Lit.
  intuition.
Qed.

Lemma lang_host pos w : lang host_re pos w <-> In w hosts.
Proof.
  unfold host_re, hosts. cbn [lang In]. rewrite !lang_Lit. intuition.
Qed.

Lemma lang_suffix pos w : lang suffix_re pos w <-> In w suffixes.
Proof.
  unfold suffix_re, suffixes. cbn [lang In]. rewrite !lang_Lit. intuition.
Qed.

Lemma lang_path pos w : lang path_re pos w <-> path_query_segment w.
Proof.
  unfold path_re. cbn [lang]. rewrite !lang_Lit. split.
  - intros [[-> | [-> | [-> | (p & q & -> & (Hne & Hall) & Hq)]]] | ->];
      try constructor.
    + apply lang_Lit in Hq. subst. constructor; [assumption|].
      eapply Forall_impl; [|exact Hall]. cbn. intros c Hc.
      now apply negb_true_iff.
  - intros [| | | |p Hne Hall]; auto 6.
    left. right. right. right. exists p, (u "?v=").
    repeat split; [assumption | | now apply lang_Lit].
    eapply Forall_impl; [|exact Hall]. cbn. intros c Hc.
    now apply negb_true_iff.
Qed.

Lemma lang_id pos w : lang id_re pos w <-> id_token w.
Proof.
  unfold id_re, id_token. cbn [lang]. split; intros (Hl & Hall);
    (split; [assumption|]); (eapply Forall_impl; [|exact Hall]); cbn;
    intros c Hc; now apply negb_true_iff.
Qed.

Lemma lang_segment pos w : lang segment_re pos w <-> documented_segment w.
Proof.
  unfold documented_segment. split.
  - intros H. split; [apply (lang_path pos); now left|].
    unfold segment_re in H. cbn [lang] in H. rewrite !lang_Lit in H.
    destruct H as [-> | [-> | [-> | (p & q & -> & (Hne & _) & _)]]];
      try discriminate.
    destruct p; [congruence | discriminate].
  - intros (H & Hne). apply (lang_path pos) in H. destruct H as [H | ->];
      [exact H | congruence].
Qed.

Lemma lang_shape (pr : regex) (segment : ustring -> Prop) :
  (forall pos w, lang pr pos w <-> segment w) ->
  forall w,
    lang (Bol +++ scheme_re +++ www_re +++ host_re +++ Lit (u ".")
              +++ suffix_re +++ Lit (u "/") +++ pr +++ id_re) 0 w <->
    exists pre id, w = pre ++ id /\ prefix_with segment pre /\ id_token id.
Proof.
  intros Hpr w. split.
  - intros (w0 & r0 & -> & (_ & ->) & w1 & r1 & -> & H1 & w2 & r2 & -> & H2
            & w3 & r3 & -> & H3 & w4 & r4 & -> & H4 & w5 & r5 & -> & H5
            & w6 & r6 & -> & H6 & w7 & w8 & -> & H7 & H8).
    apply lang_scheme in H1. apply lang_www in H2. apply lang_host in H3.
    apply lang_Lit in H4. apply lang_suffix in H5. apply lang_Lit in H6.
    apply Hpr in H7. apply lang_id in H8. subst.
    exists (w1 ++ w2 ++ w3 ++ u "." ++ w5 ++ u "/" ++ w7), w8.
    split; [|split].
    + rewrite <- !app_assoc. reflexivity.
    + now exists w1, w2, w3, w5, w7.
    + exact H8.
  - intros (pre & id & -> & (w1 & w2 & w3 & w5 & w7 & -> & H1 & H2 & H3 & H5
            & H7) & H8).
    exists [], ((w1 ++ w2 ++ w3 ++ u "." ++ w5 ++ u "/" ++ w7) ++ id).
    repeat split.
    exists w1, ((w2 ++ w3 ++ u "." ++ w5 ++ u "/" ++ w7) ++ id).
    repeat split; [now rewrite <- !app_assoc | now apply lang_scheme |].
    exists w2, ((w3 ++ u "." ++ w5 ++ u "/" ++ w7) ++ id).
    repeat split; [now rewrite <- !app_assoc | now apply lang_www |].
    exists w3, ((u "." ++ w5 ++ u "/" ++ w7) ++ id).
    repeat split; [now rewrite <- !app_assoc | now apply lang_host |].
    exists (u "."), ((w5 ++ u "/" ++ w7) ++ id).
    repeat split; [now apply lang_Lit |].
    exists w5, ((u "/" ++ w7) ++ id).
    repeat split; [now rewrite <- !app_assoc | now apply lang_suffix |].
    exists (u "/"), (w7 ++ id).
    repeat split; [now apply lang_Lit |].
    exists w7, id.
    split; [reflexivity|]. split; [now apply Hpr | now apply lang_id].
Qed.

Lemma lang_youtubeRegex w :
  lang youtubeRegex 0 w <->
  exists pre id, w = pre ++ id /\ url_prefix pre /\ id_token id.
Proof. apply (lang_shape path_re path_query_segment lang_path). Qed.

Lemma isValidYouTubeUrl_iff url :
  isValidYouTubeUrl url = true <-> AcceptedShape url.
Proof.
  unfold isValidYouTubeUrl, youtubeRegex. rewrite test_anchored.
  rewrite match_at_spec. fold youtubeRegex. unfold AcceptedShape. split.
  - intros (w & rest & -> & H). apply lang_youtubeRegex in H.
    destruct H as (pre & id & -> & Hp & Hi).
    exists pre, id, rest. now rewrite <- app_assoc.
  - intros (pre & id & rest & -> & Hp & Hi).
    exists (pre ++ id), rest. rewrite <- app_assoc. split; [reflexivity|].
    apply lang_youtubeRegex. now exists pre, id.
Qed.

Lemma terminated_b_spec rest : terminated_b rest = true <-> terminated rest.
Proof.
  destruct rest as [|c rest]; cbn [terminated_b terminated];
    [tauto | apply mem_In].
Qed.

Lemma documented_b_spec url : documented_b url = true <-> DocumentedShape url.
Proof.
  unfold documented_b, DocumentedShape. rewrite run_spec. unfold continues.
  split.
  - intros (w & rest & -> & H & Ht).
    apply (lang_shape segment_re documented_segment lang_segment) in H.
    destruct H as (pre & id & -> & Hp & Hi).
    exists pre, id, rest. rewrite <- app_assoc.
    split; [reflexivity|]. split; [assumption|]. split; [assumption|].
    now apply terminated_b_spec.
  - intros (pre & id & rest & -> & Hp & Hi & Ht).
    exists (pre ++ id), rest. rewrite <- app_assoc. split; [reflexivity|].
    split; [|now apply terminated_b_spec].
    apply (lang_shape segment_re documented_segment lang_segment).
    now exists pre, id.
Qed.



(** Two strings without an 11-character id token in the documented
    position, a page of the site and a channel address with a short [v]
    parameter, are accepted: the pattern takes eleven characters of the
    path as the id. *)
Lemma isValidYouTubeUrl_accepts_undocumented :
  ~ DocumentedShape (u "youtube.com/feed/subscriptions") /\
  isValidYouTubeUrl (u "youtube.com/feed/subscriptions") = true /\
  ~ DocumentedShape (u "https://www.youtube.com/channel/UCabc?v=abc") /\
  isValidYouTubeUrl (u "https://www.youtube.com/channel/UCabc?v=abc") = true.
Proof.
  split; [|split; [|split]]; try reflexivity;
    intros H; apply documented_b_spec in H; discriminate H.
Qed.

End Validator.

(* ===================================================================== *)
(** * The formatters *)
(* ===================================================================== *)

Module Format.
Local Open Scope Z_scope.

(** Both formatters are modelled on integer arguments (a byte count, a
    number of seconds). An integer below 2^53 is an exact JavaScript number,
    and so are its quotients by powers of 1024. *)

Definition k : Z := 1024.
Definition sizes : list ustring := [u "Bytes"; u "KB"; u "MB"; u "GB"].

(** [Math.floor(Math.log(bytes) / Math.log(k))] for [bytes > 0], taken as
    the exact value: the exponent of the largest power of 1024 that is at
    most [bytes]. *)
Definition magnitude (bytes : Z) : Z := Z.log2 bytes / 10.

(** [x.toFixed(1)] for [x = num / den]: the number of tenths nearest to [x],
    the larger one on a tie. *)
Definition toFixed1 (num den : Z) : Z := (20 * num + den) / (2 * den).

(** [parseFloat] of a [toFixed(1)] result, printed again by the string
    concatenation: a trailing [.0] is dropped. *)
Definition print_tenths (n : Z) : ustring :=
  of_Z (n / 10) ++ (if n mod 10 =? 0 then [] else u "." ++ of_Z (n mod 10)).

(** [sizes[i]] printed by string concatenation; an index outside the array
    reads [undefined]. *)
Definition size_label (i : Z) : ustring :=
  match nth_error sizes (Z.to_nat i) with
  | Some label => label
  | None => u "undefined"
  end.

Definition formatFileSize (bytes : Z) : ustring :=
  if bytes =? 0 then u "0 Bytes"
  else if bytes <? 0 then
    (* Math.log of a negative number is NaN, and so is all that follows *)
    u "NaN undefined"
  else
    let i := magnitude bytes in
    print_tenths (toFixed1 bytes (k ^ i)) ++ u " " ++ size_label i.

(** [formatDuration]: [Math.floor] of a quotient is [Z.div], the remainder
    operator [%] takes the sign of the dividend and is [Z.rem]. *)
Definition formatDuration (seconds : Z) : ustring :=
  let hours := seconds / 3600 in
  let minutes := Z.rem seconds 3600 / 60 in
  let secs := Z.rem seconds 60 in
  if 0 <? hours then
    of_Z hours ++ u ":" ++ padStart 2 48 (of_Z minutes) ++ u ":" ++
    padStart 2 48 (of_Z secs)
  else
    of_Z minutes ++ u ":" ++ padStart 2 48 (of_Z secs).

Example formatFileSize_1023 : formatFileSize 1023 = u "1023 Bytes".
Proof. reflexivity. Qed.

Example formatFileSize_rounds_up : formatFileSize 1048575 = u "1024 KB".
Proof. reflexivity. Qed.

Example formatFileSize_GB : formatFileSize (3 * 1024 ^ 3 + 1024 ^ 3 / 4)
                            = u "3.3 GB".
Proof. reflexivity. Qed.

Example formatDuration_zero : formatDuration 0 = u "0:00".
Proof. reflexivity. Qed.

Example formatDuration_hour : formatDuration 3600 = u "1:00:00".
Proof. reflexivity. Qed.

(** ** Unit labels *)

Lemma magnitude_range bytes i :
  0 <= i -> k ^ i <= bytes < k ^ (i + 1) -> magnitude bytes = i.
Proof.
  intros Hi [Hlo Hhi]. unfold magnitude, k in *.
  assert (Hpos : 0 < bytes).
  { eapply Z.lt_le_trans; [|exact Hlo]. apply Z.pow_pos_nonneg; lia. }
  replace 1024 with (2 ^ 10) in Hlo, Hhi by reflexivity.
  rewrite <- Z.pow_mul_r in Hlo, Hhi by lia.
  apply Z.log2_le_pow2 in Hlo; [|assumption].
  apply Z.log2_lt_pow2 in Hhi; [|assumption].
  symmetry. apply (Z.div_unique_pos _ 10 i (Z.log2 bytes - 10 * i)); lia.
Qed.

(** Below 1024^4 the label is one of the four units of [sizes]. *)
Lemma size_label_below_TiB bytes :
  0 < bytes < k ^ 4 -> In (size_label (magnitude bytes)) sizes.
Proof.
  intros [Hlo Hhi]. unfold magnitude, k in *.
  assert (H : 0 <= Z.log2 bytes < 40).
  { split; [apply Z.log2_nonneg|].
    apply Z.log2_lt_pow2; [assumption|]. exact Hhi. }
  assert (Hq : 0 <= Z.log2 bytes / 10 < 4).
  { split; [apply Z.div_pos; lia | apply Z.div_lt_upper_bound; lia]. }
  assert (E : Z.log2 bytes / 10 = 0 \/ Z.log2 bytes / 10 = 1 \/
              Z.log2 bytes / 10 = 2 \/ Z.log2 bytes / 10 = 3) by lia.
  destruct E as [-> | [-> | [-> | ->]]]; cbn; auto 6.
Qed.


(** Below 1024^4 the result has the documented form: the byte count scaled
    by a power of 1024, rounded to tenths, then a unit of [sizes]. *)
Lemma formatFileSize_below_TiB bytes :
  0 < bytes < k ^ 4 ->
  exists i label,
    0 <= i < 4 /\ nth_error sizes (Z.to_nat i) = Some label /\
    k ^ i <= bytes < k ^ (i + 1) /\
    formatFileSize bytes
    = print_tenths (toFixed1 bytes (k ^ i)) ++ u " " ++ label.
Proof.
  intros [Hlo Hhi]. unfold formatFileSize.
  destruct (Z.eqb_spec bytes 0) as [|_]; [lia|].
  destruct (Z.ltb_spec bytes 0) as [|_]; [lia|].
  assert (H : 0 <= Z.log2 bytes < 40).
  { split; [apply Z.log2_nonneg|].
    apply Z.log2_lt_pow2; [assumption|]. exact Hhi. }
  assert (Hq : 0 <= magnitude bytes < 4).
  { unfold magnitude.
    split; [apply Z.div_pos; lia | apply Z.div_lt_upper_bound; lia]. }
  assert (Hb : k ^ magnitude bytes <= bytes < k ^ (magnitude bytes + 1)).
  { unfold magnitude, k in *. replace 1024 with (2 ^ 10) by reflexivity.
    rewrite <- !Z.pow_mul_r by lia.
    destruct (Z.log2_spec bytes Hlo) as [L1 L2].
    pose proof (Z.div_mod (Z.log2 bytes) 10 ltac:(lia)) as D.
    pose proof (Z.mod_pos_bound (Z.log2 bytes) 10 ltac:(lia)) as M.
    split.
    - eapply Z.le_trans; [|exact L1]. apply Z.pow_le_mono_r; lia.
    - eapply Z.lt_le_trans; [exact L2|]. apply Z.pow_le_mono_r; lia. }
  exists (magnitude bytes).
  assert (E : magnitude bytes = 0 \/ magnitude bytes = 1 \/
              magnitude bytes = 2 \/ magnitude bytes = 3) by lia.
  unfold size_label.
  destruct E as [E | [E | [E | E]]]; rewrite E in *; cbn [Z.to_nat];
    eexists; (split; [lia|]); (split; [reflexivity|]); (split; [assumption|]);
    reflexivity.
Qed.

(** C2. At [bytes = 1024^4] (one tebibyte) the index computed by
    [formatFileSize] is 4, past the end of the four-entry [sizes] array, and
    the result is the magnitude followed by the text [undefined] instead of
    a unit label. *)
Theorem formatFileSize_TiB_undefined :
  formatFileSize 1099511627776 = u "1 undefined" /\
  ~ In (size_label (magnitude 1099511627776)) sizes.
Proof.
  split; [reflexivity|].
  cbn. intros [H | [H | [H | [H | []]]]]; discriminate H.
Qed.

(** C3. The five values given by the specification. *)
Theorem format_examples :
  formatFileSize 0 = u "0 Bytes" /\
  formatFileSize 1024 = u "1 KB" /\
  formatFileSize 1536 = u "1.5 KB" /\
  formatDuration 65 = u "1:05" /\
  formatDuration 3661 = u "1:01:01".
Proof. repeat split; reflexivity. Qed.

End Format.

(* ===================================================================== *)
(** * JavaScript numbers *)
(* ===================================================================== *)

Module Number.
Local Open Scope Q_scope.

(** A JavaScript number is an IEEE 754 binary64 value. The finite ones are
    modelled as the rationals they stand for, and an arithmetic operation
    returns the double nearest to its exact result, ties to even, with
    gradual underflow and overflow to an infinity. The sign of a zero is not
    modelled. *)

(** ** Rounding to the nearest integer, ties to even *)

Definition rne (x : Q) : Z :=
  let f := Qfloor x in
  match Qcompare (x - inject_Z f) (1 # 2) with
  | Lt => f
  | Gt => (f + 1)%Z
  | Eq => if Z.even f then f else (f + 1)%Z
  end.

Lemma rne_comp x y : x == y -> rne x = rne y.
Proof.
  intros H. unfold rne. rewrite (Qfloor_comp x y H).
  assert (E : x - inject_Z (Qfloor y) == y - inject_Z (Qfloor y))
    by now rewrite H.
  now rewrite (Qcompare_comp _ _ E _ _ (Qeq_refl (1 # 2))).
Qed.

Lemma rne_floor x : (Qfloor x <= rne x <= Qfloor x + 1)%Z.
Proof.
  unfold rne. destruct (Qcompare (x - inject_Z (Qfloor x)) (1 # 2));
    [destruct (Z.even (Qfloor x))| |]; lia.
Qed.

Lemma rne_Z z : rne (inject_Z z) = z.
Proof.
  unfold rne. rewrite Qfloor_Z.
  assert (H : inject_Z z - inject_Z z < 1 # 2).
  { setoid_replace (inject_Z z - inject_Z z) with 0 by ring. reflexivity. }
  now rewrite (proj1 (Qlt_alt _ _) H).
Qed.

Lemma rne_mono x y : x <= y -> (rne x <= rne y)%Z.
Proof.
  intros H. pose proof (Qfloor_resp_le x y H) as Hf.
  destruct (Z.eq_dec (Qfloor x) (Qfloor y)) as [E|Hne].
  - unfold rne. rewrite <- E.
    destruct (Qcompare_spec (x - inject_Z (Qfloor x)) (1 # 2)) as [H1|H1|H1],
             (Qcompare_spec (y - inject_Z (Qfloor x)) (1 # 2)) as [H2|H2|H2];
      destruct (Z.even (Qfloor x)); try lia; exfalso; lra.
  - pose proof (rne_floor x). pose proof (rne_floor y). lia.
Qed.

Lemma rne_le x z : x <= inject_Z z -> (rne x <= z)%Z.
Proof. intros H. rewrite <- (rne_Z z). now apply rne_mono. Qed.

Lemma rne_ge x z : inject_Z z <= x -> (z <= rne x)%Z.
Proof. intros H. rewrite <- (rne_Z z). now apply rne_mono. Qed.

(** ** Powers of two *)

Lemma two_pos e : 0 < 2 ^ e.
Proof. now apply Qpower_0_lt. Qed.

Lemma two_plus a b : 2 ^ (a + b) == 2 ^ a * 2 ^ b.
Proof. apply Qpower_plus. discriminate. Qed.

Lemma two_le a b : (a <= b)%Z -> 2 ^ a <= 2 ^ b.
Proof. intros H. apply Qpower_le_compat_l; [assumption | discriminate]. Qed.

Lemma two_lt a b : (a < b)%Z -> 2 ^ a < 2 ^ b.
Proof. intros H. apply Qpower_lt_compat_l; [assumption | reflexivity]. Qed.

Lemma two_lt_inv a b : 2 ^ a < 2 ^ b -> (a < b)%Z.
Proof. intros H. apply (Qpower_lt_compat_l_inv 2); [assumption | reflexivity]. Qed.

Lemma two_Z a : (0 <= a)%Z -> 2 ^ a == inject_Z (2 ^ a).
Proof. intros H. symmetry. now apply (Zpower_Qpower 2 a). Qed.

(** ** The binary exponent *)

Definition ilog2 (q : Q) : Z :=
  let c := (Z.log2 (Qnum q) - Z.log2 (Zpos (Qden q)))%Z in
  if Qle_bool (2 ^ c) q then c else (c - 1)%Z.

Lemma candidate_bounds q :
  0 < q ->
  let c := (Z.log2 (Qnum q) - Z.log2 (Zpos (Qden q)))%Z in
  2 ^ (c - 1) < q /\ q < 2 ^ (c + 1).
Proof.
  intros Hq. cbv zeta. destruct q as [n d]. cbn [Qnum Qden].
  assert (Hn : (0 < n)%Z).
  { unfold Qlt in Hq. simpl in Hq. lia. }
  set (a := Z.log2 n). set (b := Z.log2 (Zpos d)).
  destruct (Z.log2_spec n Hn) as [Ha1 Ha2]. fold a in Ha1, Ha2.
  destruct (Z.log2_spec (Zpos d) eq_refl) as [Hb1 Hb2]. fold b in Hb1, Hb2.
  assert (Ha : (0 <= a)%Z) by apply Z.log2_nonneg.
  assert (Hb : (0 <= b)%Z) by apply Z.log2_nonneg.
  assert (Qa1 : 2 ^ a <= inject_Z n).
  { rewrite two_Z by assumption. now rewrite <- Zle_Qle. }
  assert (Qa2 : inject_Z n < 2 ^ (a + 1)).
  { rewrite two_Z by lia. rewrite <- Zlt_Qlt. now rewrite Z.add_1_r. }
  assert (Qb1 : 2 ^ b <= inject_Z (Zpos d)).
  { rewrite two_Z by assumption. now rewrite <- Zle_Qle. }
  assert (Qb2 : inject_Z (Zpos d) < 2 ^ (b + 1)).
  { rewrite two_Z by lia. rewrite <- Zlt_Qlt. now rewrite Z.add_1_r. }
  assert (Hd : 0 < inject_Z (Zpos d)) by reflexivity.
  rewrite (Qmake_Qdiv n d). split.
  - apply Qlt_shift_div_l; [exact Hd|].
    apply Qlt_le_trans with (2 ^ (a - b - 1) * 2 ^ (b + 1)).
    + apply Qmult_lt_l; [apply two_pos | exact Qb2].
    + rewrite <- two_plus. replace (a - b - 1 + (b + 1))%Z with a by lia.
      exact Qa1.
  - apply Qlt_shift_div_r; [exact Hd|].
    apply Qlt_le_trans with (2 ^ (a + 1)); [exact Qa2|].
    replace (a + 1)%Z with (a - b + 1 + b)%Z at 1 by lia. rewrite two_plus.
    apply Qmult_le_l; [apply two_pos | exact Qb1].
Qed.

Lemma ilog2_spec q : 0 < q -> 2 ^ ilog2 q <= q /\ q < 2 ^ (ilog2 q + 1).
Proof.
  intros Hq. destruct (candidate_bounds q Hq) as [Hlo Hhi]. unfold ilog2.
  set (c := (Z.log2 (Qnum q) - Z.log2 (Zpos (Qden q)))%Z) in *.
  destruct (Qle_bool (2 ^ c) q) eqn:E.
  - apply Qle_bool_iff in E. now split.
  - split; [now apply Qlt_le_weak|].
    replace (c - 1 + 1)%Z with c by lia.
    apply Qnot_le_lt. intros C. apply Qle_bool_iff in C. congruence.
Qed.

Lemma ilog2_unique q e : 2 ^ e <= q -> q < 2 ^ (e + 1) -> ilog2 q = e.
Proof.
  intros Hlo Hhi.
  assert (Hq : 0 < q) by (eapply Qlt_le_trans; [apply (two_pos e) | exact Hlo]).
  destruct (ilog2_spec q Hq) as [Hlo' Hhi'].
  assert (H1 : (e < ilog2 q + 1)%Z).
  { apply two_lt_inv. eapply Qle_lt_trans; eassumption. }
  assert (H2 : (ilog2 q < e + 1)%Z).
  { apply two_lt_inv. eapply Qle_lt_trans; eassumption. }
  lia.
Qed.

Lemma ilog2_mono x y : 0 < x -> x <= y -> (ilog2 x <= ilog2 y)%Z.
Proof.
  intros Hx Hxy.
  assert (Hy : 0 < y) by (eapply Qlt_le_trans; eassumption).
  destruct (ilog2_spec x Hx) as [Hlo _]. destruct (ilog2_spec y Hy) as [_ Hhi].
  assert (H : (ilog2 x < ilog2 y + 1)%Z).
  { apply two_lt_inv. eapply Qle_lt_trans; [exact Hlo|].
    eapply Qle_lt_trans; eassumption. }
  lia.
Qed.

(** ** Rounding to binary64 *)

Inductive num : Type :=
| Fin (q : Q)
| NaN
| PInf
| NInf.

(** The spacing of the doubles around a positive [q] is [2 ^ scale q]:
    53 significant bits, and the fixed spacing [2 ^ -1074] below
    [2 ^ -1022]. *)
Definition scale (q : Q) : Z := (Z.max (ilog2 q) (-1022) - 52)%Z.

(** The multiple of the spacing nearest to a positive [q], ties to even. *)
Definition round_pos (q : Q) : Q :=
  inject_Z (rne (q / 2 ^ scale q)) * 2 ^ scale q.

(** The first power of two beyond the finite doubles. *)
Definition huge : Q := 2 ^ 1024.

(** The double nearest to [q]: the result of an arithmetic operation whose
    exact value is [q]. *)
Definition round (q : Q) : num :=
  match Qcompare q 0 with
  | Eq => Fin 0
  | Gt => if Qle_bool huge (round_pos q) then PInf else Fin (round_pos q)
  | Lt =>
      if Qle_bool huge (round_pos (- q)) then NInf
      else Fin (- round_pos (- q))
  end.

Lemma scale_min q : (-1074 <= scale q)%Z.
Proof. unfold scale. lia. Qed.

Lemma scale_ilog2 q : (ilog2 q <= scale q + 52)%Z.
Proof. unfold scale. lia. Qed.

Lemma ilog2_comp x y : 0 < x -> x == y -> ilog2 x = ilog2 y.
Proof.
  intros Hx E. destruct (ilog2_spec x Hx) as [Hlo Hhi]. symmetry.
  apply ilog2_unique; now rewrite <- E.
Qed.

Lemma round_pos_comp x y : 0 < x -> x == y -> round_pos x == round_pos y.
Proof.
  intros Hx E. unfold round_pos, scale. rewrite (ilog2_comp x y Hx E).
  set (s := (Z.max (ilog2 y) (-1022) - 52)%Z).
  assert (E' : x / 2 ^ s == y / 2 ^ s) by now rewrite E.
  now rewrite (rne_comp _ _ E').
Qed.

Lemma scaled_le q s z : q <= inject_Z z * 2 ^ s -> q / 2 ^ s <= inject_Z z.
Proof.
  intros H. apply Qle_shift_div_r; [apply two_pos | exact H].
Qed.

Lemma scaled_ge q s z : inject_Z z * 2 ^ s <= q -> inject_Z z <= q / 2 ^ s.
Proof.
  intros H. apply Qle_shift_div_l; [apply two_pos | exact H].
Qed.

(** Rounding does not cross a multiple of the spacing. *)
Lemma round_pos_le q z :
  q <= inject_Z z * 2 ^ scale q -> round_pos q <= inject_Z z * 2 ^ scale q.
Proof.
  intros H. unfold round_pos. apply Qmult_le_compat_r.
  - rewrite <- Zle_Qle. apply rne_le. now apply scaled_le.
  - apply Qlt_le_weak, two_pos.
Qed.

Lemma round_pos_ge q z :
  inject_Z z * 2 ^ scale q <= q -> inject_Z z * 2 ^ scale q <= round_pos q.
Proof.
  intros H. unfold round_pos. apply Qmult_le_compat_r.
  - rewrite <- Zle_Qle. apply rne_ge. now apply scaled_ge.
  - apply Qlt_le_weak, two_pos.
Qed.

Lemma two_53 s : inject_Z (2 ^ 53) * 2 ^ s == 2 ^ (s + 53).
Proof. rewrite <- two_Z by lia. rewrite <- two_plus. now rewrite Z.add_comm. Qed.

Lemma two_52 s : inject_Z (2 ^ 52) * 2 ^ s == 2 ^ (s + 52).
Proof. rewrite <- two_Z by lia. rewrite <- two_plus. now rewrite Z.add_comm. Qed.

Lemma round_pos_upper q : 0 < q -> round_pos q <= 2 ^ (scale q + 53).
Proof.
  intros Hq. rewrite <- two_53. apply round_pos_le. rewrite two_53.
  destruct (ilog2_spec q Hq) as [_ Hhi]. apply Qlt_le_weak.
  eapply Qlt_le_trans; [exact Hhi|]. apply two_le.
  pose proof (scale_ilog2 q). lia.
Qed.

Lemma round_pos_lower q :
  0 < q -> (-1022 <= ilog2 q)%Z -> 2 ^ ilog2 q <= round_pos q.
Proof.
  intros Hq Hn.
  assert (E : (scale q + 52 = ilog2 q)%Z) by (unfold scale; lia).
  rewrite <- E, <- two_52. apply round_pos_ge. rewrite two_52, E.
  apply ilog2_spec, Hq.
Qed.

Lemma round_pos_nonneg q : 0 < q -> 0 <= round_pos q.
Proof.
  intros Hq.
  setoid_replace 0 with (inject_Z 0 * 2 ^ scale q) by ring.
  apply round_pos_ge. setoid_replace (inject_Z 0 * 2 ^ scale q) with 0 by ring.
  now apply Qlt_le_weak.
Qed.

Lemma round_pos_mono x y : 0 < x -> x <= y -> round_pos x <= round_pos y.
Proof.
  intros Hx Hxy.
  assert (Hy : 0 < y) by (eapply Qlt_le_trans; eassumption).
  pose proof (ilog2_mono x y Hx Hxy) as Hl.
  destruct (Z.eq_dec (scale x) (scale y)) as [E|Hne].
  - unfold round_pos. rewrite E. apply Qmult_le_compat_r.
    + rewrite <- Zle_Qle. apply rne_mono.
      apply Qmult_le_compat_r; [exact Hxy|].
      apply Qlt_le_weak, Qinv_lt_0_compat, two_pos.
    + apply Qlt_le_weak, two_pos.
  - assert (Hs : (scale x < scale y)%Z) by (unfold scale in *; lia).
    assert (Hn : (-1022 <= ilog2 y)%Z) by (unfold scale in *; lia).
    eapply Qle_trans; [apply (round_pos_upper x Hx)|].
    eapply Qle_trans; [|apply (round_pos_lower y Hy Hn)].
    apply two_le. unfold scale in *. lia.
Qed.

(** A multiple of its own spacing is left as it is. *)
Lemma round_pos_multiple v z :
  v == inject_Z z * 2 ^ scale v -> round_pos v == v.
Proof.
  intros E. unfold round_pos.
  assert (H : v / 2 ^ scale v == inject_Z z).
  { rewrite E at 1. field. apply Qpower_not_0. discriminate. }
  rewrite (rne_comp _ _ H), rne_Z. now symmetry.
Qed.

Lemma ilog2_lt q e : 0 < q -> q < 2 ^ e -> (ilog2 q < e)%Z.
Proof.
  intros Hq H. apply two_lt_inv. eapply Qle_lt_trans; [|exact H].
  apply ilog2_spec, Hq.
Qed.

Lemma ilog2_ge q e : 0 < q -> 2 ^ e <= q -> (e <= ilog2 q)%Z.
Proof.
  intros Hq H. destruct (ilog2_spec q Hq) as [_ Hhi].
  assert (H' : (e < ilog2 q + 1)%Z).
  { apply two_lt_inv. eapply Qle_lt_trans; eassumption. }
  lia.
Qed.

(** What rounding returns is a double: rounding it again changes nothing. *)
Lemma round_pos_idem q :
  0 < q -> 0 < round_pos q -> round_pos (round_pos q) == round_pos q.
Proof.
  intros Hq Hv. set (v := round_pos q) in *. set (s := scale q).
  set (m := rne (q / 2 ^ s)).
  assert (Ev : v == inject_Z m * 2 ^ s) by reflexivity.
  assert (Hs : (-1074 <= s)%Z) by apply scale_min.
  assert (Hm53 : (m <= 2 ^ 53)%Z).
  { apply rne_le, scaled_le. rewrite two_53. apply Qlt_le_weak.
    eapply Qlt_le_trans; [apply (ilog2_spec q Hq)|]. apply two_le.
    pose proof (scale_ilog2 q). fold s in H. lia. }
  destruct (Z.eq_dec m (2 ^ 53)) as [E53|Hne].
  - assert (Ev' : v == 2 ^ (s + 53)) by now rewrite Ev, E53, two_53.
    assert (Hl : ilog2 v = (s + 53)%Z).
    { apply ilog2_unique; rewrite Ev'; [apply Qle_refl | apply two_lt; lia]. }
    apply (round_pos_multiple v (2 ^ 52)).
    unfold scale. rewrite Hl.
    replace (Z.max (s + 53) (-1022) - 52)%Z with (s + 1)%Z by lia.
    rewrite two_52, Ev'. now replace (s + 1 + 52)%Z with (s + 53)%Z by lia.
  - apply (round_pos_multiple v m).
    assert (Hlt : v < 2 ^ (s + 53)).
    { rewrite Ev, <- two_53. apply Qmult_lt_r; [apply two_pos|].
      rewrite <- Zlt_Qlt. lia. }
    pose proof (ilog2_lt v _ Hv Hlt) as Hup.
    assert (Hlo : (-1022 < ilog2 q -> ilog2 q <= ilog2 v)%Z).
    { intros Hn. apply ilog2_ge; [exact Hv|].
      apply round_pos_lower; [exact Hq | lia]. }
    assert (Es : scale v = s).
    { unfold s, scale in *. lia. }
    now rewrite Es.
Qed.

(** ** Numbers with the two infinities and NaN *)

Definition num_eq (x y : num) : Prop :=
  match x, y with
  | Fin a, Fin b => a == b
  | NaN, NaN => True
  | PInf, PInf => True
  | NInf, NInf => True
  | _, _ => False
  end.

(** The order of the numbers; NaN is not comparable. *)
Definition num_le (x y : num) : Prop :=
  match x, y with
  | NaN, _ => False
  | _, NaN => False
  | NInf, _ => True
  | _, PInf => True
  | Fin a, Fin b => a <= b
  | _, _ => False
  end.

Lemma num_eq_refl x : num_eq x x.
Proof. destruct x; simpl; auto. reflexivity. Qed.

Lemma num_eq_sym x y : num_eq x y -> num_eq y x.
Proof. destruct x, y; simpl; auto. intros H. now symmetry. Qed.

Lemma num_eq_trans x y z : num_eq x y -> num_eq y z -> num_eq x z.
Proof.
  destruct x, y, z; simpl; auto; try contradiction.
  intros H1 H2. now rewrite H1.
Qed.

Lemma num_le_trans x y z : num_le x y -> num_le y z -> num_le x z.
Proof.
  destruct x, y, z; simpl; auto; try contradiction.
  intros H1 H2. eapply Qle_trans; eassumption.
Qed.

Lemma num_le_eq_l x y z : num_eq x y -> num_le y z -> num_le x z.
Proof.
  destruct x, y, z; simpl; auto; try contradiction.
  intros H1 H2. now rewrite H1.
Qed.

Lemma num_le_eq_r x y z : num_le x y -> num_eq y z -> num_le x z.
Proof.
  destruct x, y, z; simpl; auto; try contradiction.
  intros H1 H2. now rewrite <- H2.
Qed.

Lemma Qle_bool_comp a b c d :
  a == b -> c == d -> Qle_bool a c = Qle_bool b d.
Proof.
  intros E1 E2. destruct (Qle_bool a c) eqn:H1, (Qle_bool b d) eqn:H2;
    try reflexivity.
  - apply Qle_bool_iff in H1. rewrite E1, E2 in H1.
    apply Qle_bool_iff in H1. congruence.
  - apply Qle_bool_iff in H2. rewrite <- E1, <- E2 in H2.
    apply Qle_bool_iff in H2. congruence.
Qed.

Lemma round_comp x y : x == y -> num_eq (round x) (round y).
Proof.
  intros E. unfold round.
  rewrite (Qcompare_comp _ _ E _ _ (Qeq_refl 0)).
  destruct (Qcompare_spec y 0) as [H|H|H].
  - simpl. reflexivity.
  - assert (Hx : 0 < - x) by (rewrite E; lra).
    assert (E' : - x == - y) by now rewrite E.
    pose proof (round_pos_comp _ _ Hx E') as Er.
    rewrite (Qle_bool_comp huge huge _ _ (Qeq_refl _) Er).
    destruct (Qle_bool huge (round_pos (- y))); simpl; [exact I|].
    now rewrite Er.
  - assert (Hx : 0 < x) by (rewrite E; exact H).
    pose proof (round_pos_comp _ _ Hx E) as Er.
    rewrite (Qle_bool_comp huge huge _ _ (Qeq_refl _) Er).
    destruct (Qle_bool huge (round_pos y)); simpl; [exact I | exact Er].
Qed.

Lemma round_0 : round 0 = Fin 0.
Proof. reflexivity. Qed.

Lemma round_pos_sign q : 0 < q -> num_le (Fin 0) (round q).
Proof.
  intros Hq. unfold round. rewrite (proj1 (Qgt_alt _ _) Hq).
  destruct (Qle_bool huge (round_pos q)); simpl; [exact I|].
  now apply round_pos_nonneg.
Qed.

Lemma round_neg_sign q : q < 0 -> num_le (round q) (Fin 0).
Proof.
  intros Hq. unfold round. rewrite (proj1 (Qlt_alt _ _) Hq).
  destruct (Qle_bool huge (round_pos (- q))); simpl; [exact I|].
  assert (H : 0 <= round_pos (- q)) by (apply round_pos_nonneg; lra). lra.
Qed.

(** Rounding keeps the order. *)
Lemma round_mono x y : x <= y -> num_le (round x) (round y).
Proof.
  intros Hxy.
  destruct (Qcompare_spec x 0) as [Hx|Hx|Hx],
           (Qcompare_spec y 0) as [Hy|Hy|Hy]; try (exfalso; lra).
  - apply num_le_eq_l with (Fin 0); [now apply (round_comp x 0)|].
    apply num_le_eq_r with (Fin 0); [simpl; apply Qle_refl|].
    apply num_eq_sym. now apply (round_comp y 0).
  - apply num_le_eq_l with (Fin 0); [now apply (round_comp x 0)|].
    now apply round_pos_sign.
  - apply num_le_eq_r with (Fin 0); [now apply round_neg_sign|].
    apply num_eq_sym. now apply (round_comp y 0).
  - unfold round.
    rewrite (proj1 (Qlt_alt _ _) Hx), (proj1 (Qlt_alt _ _) Hy).
    assert (Hm : round_pos (- y) <= round_pos (- x))
      by (apply round_pos_mono; lra).
    destruct (Qle_bool huge (round_pos (- x))) eqn:Ex;
      [destruct (Qle_bool huge (round_pos (- y))); exact I|].
    destruct (Qle_bool huge (round_pos (- y))) eqn:Ey.
    + apply Qle_bool_iff in Ey.
      assert (C : Qle_bool huge (round_pos (- x)) = true).
      { apply Qle_bool_iff. eapply Qle_trans; eassumption. }
      congruence.
    + simpl. lra.
  - apply num_le_trans with (Fin 0);
      [now apply round_neg_sign | now apply round_pos_sign].
  - unfold round.
    rewrite (proj1 (Qgt_alt _ _) Hx), (proj1 (Qgt_alt _ _) Hy).
    assert (Hm : round_pos x <= round_pos y) by now apply round_pos_mono.
    destruct (Qle_bool huge (round_pos y)) eqn:Ey.
    + destruct (Qle_bool huge (round_pos x)); exact I.
    + destruct (Qle_bool huge (round_pos x)) eqn:Ex; [|exact Hm].
      apply Qle_bool_iff in Ex.
      assert (C : Qle_bool huge (round_pos y) = true).
      { apply Qle_bool_iff. eapply Qle_trans; eassumption. }
      congruence.
Qed.

(** [q] is a double: rounding returns it. *)
Definition double (q : Q) : Prop := num_eq (round q) (Fin q).

Lemma double_0 : double 0.
Proof. unfold double. simpl. reflexivity. Qed.

Lemma double_1 : double 1.
Proof. unfold double. vm_compute. reflexivity. Qed.

(** A finite result of rounding is a double. *)
Lemma round_double q v : round q = Fin v -> double v.
Proof.
  unfold double, round at 1.
  destruct (Qcompare_spec q 0) as [Hq|Hq|Hq].
  - intros [= <-]. apply double_0.
  - destruct (Qle_bool huge (round_pos (- q))) eqn:Eh; [discriminate|].
    intros [= <-]. set (p := round_pos (- q)) in *.
    assert (Hp : 0 <= p) by (apply round_pos_nonneg; lra).
    destruct (Qle_lt_or_eq _ _ Hp) as [Hpos | Hz].
    + unfold round. assert (Hn : - p < 0) by lra.
      rewrite (proj1 (Qlt_alt _ _) Hn).
      assert (Ei : round_pos (- - p) == p).
      { rewrite (round_pos_comp (- - p) p); [|lra|ring].
        apply round_pos_idem; [lra | exact Hpos]. }
      rewrite (Qle_bool_comp huge huge _ _ (Qeq_refl _) Ei), Eh. simpl.
      now rewrite Ei.
    + apply num_eq_trans with (round 0).
      * apply round_comp. rewrite <- Hz. ring.
      * simpl. rewrite <- Hz. ring.
  - destruct (Qle_bool huge (round_pos q)) eqn:Eh; [discriminate|].
    intros [= <-]. set (p := round_pos q) in *.
    assert (Hp : 0 <= p) by now apply round_pos_nonneg.
    destruct (Qle_lt_or_eq _ _ Hp) as [Hpos | Hz].
    + unfold round. rewrite (proj1 (Qgt_alt _ _) Hpos).
      assert (Ei : round_pos p == p) by now apply round_pos_idem.
      rewrite (Qle_bool_comp huge huge _ _ (Qeq_refl _) Ei), Eh. simpl.
      exact Ei.
    + apply num_eq_trans with (round 0).
      * apply round_comp. now symmetry.
      * simpl. exact Hz.
Qed.

Lemma double_comp a b : a == b -> double a -> double b.
Proof.
  unfold double. intros E H.
  apply num_eq_trans with (round a); [apply round_comp; now symmetry|].
  apply num_eq_trans with (Fin a); [exact H | exact E].
Qed.

Lemma num_eq_Fin x q : num_eq x (Fin q) -> exists q', x = Fin q' /\ q' == q.
Proof. destruct x; simpl; try contradiction. intros H. now exists q0. Qed.

Lemma round_not_NaN q : round q <> NaN.
Proof.
  unfold round. destruct (Qcompare q 0); [discriminate| |].
  - destruct (Qle_bool huge (round_pos (- q))); discriminate.
  - destruct (Qle_bool huge (round_pos q)); discriminate.
Qed.

(** Rounding between two doubles gives a double between them. *)
Lemma round_between a b q :
  double a -> double b -> a <= q -> q <= b ->
  exists v, round q = Fin v /\ a <= v /\ v <= b.
Proof.
  intros Ha Hb Haq Hqb.
  pose proof (num_le_eq_l _ _ _ (num_eq_sym _ _ Ha) (round_mono a q Haq)) as H1.
  pose proof (num_le_eq_r _ _ _ (round_mono q b Hqb) Hb) as H2.
  destruct (round q) as [v| | |]; simpl in *; try contradiction.
  now exists v.
Qed.

Lemma round_mono_Fin x y u v :
  round x = Fin u -> round y = Fin v -> x <= y -> u <= v.
Proof.
  intros Hx Hy H. pose proof (round_mono x y H) as Hm.
  now rewrite Hx, Hy in Hm.
Qed.

(** A double is returned as it is, up to the fraction that writes it. *)
Lemma round_of_double q t :
  double t -> q == t -> exists v, round q = Fin v /\ v == t.
Proof.
  intros Ht E. apply num_eq_Fin.
  apply num_eq_trans with (round t); [now apply round_comp | exact Ht].
Qed.

(** ** Arithmetic *)

(** The operations of the script on numbers: the exact result, rounded.
    The sign of a zero is not modelled; a zero divisor counts as [+0]. *)
Definition js_neg (x : num) : num :=
  match x with
  | Fin q => Fin (- q)
  | NaN => NaN
  | PInf => NInf
  | NInf => PInf
  end.

Definition js_add (x y : num) : num :=
  match x, y with
  | NaN, _ | _, NaN => NaN
  | PInf, NInf | NInf, PInf => NaN
  | PInf, _ | _, PInf => PInf
  | NInf, _ | _, NInf => NInf
  | Fin a, Fin b => round (a + b)
  end.

Definition js_sub (x y : num) : num := js_add x (js_neg y).

(** An infinity with the sign of [a], or NaN when [a] is zero. *)
Definition signed (a : Q) (pos neg : num) : num :=
  if Qeq_bool a 0 then NaN else if Qle_bool 0 a then pos else neg.

Definition js_mul (x y : num) : num :=
  match x, y with
  | NaN, _ | _, NaN => NaN
  | Fin a, Fin b => round (a * b)
  | Fin a, PInf | PInf, Fin a => signed a PInf NInf
  | Fin a, NInf | NInf, Fin a => signed a NInf PInf
  | PInf, PInf | NInf, NInf => PInf
  | PInf, NInf | NInf, PInf => NInf
  end.

Definition js_div (x y : num) : num :=
  match x, y with
  | NaN, _ | _, NaN => NaN
  | Fin a, Fin b =>
      if Qeq_bool b 0 then signed a PInf NInf else round (a / b)
  | Fin _, _ => Fin 0
  | PInf, Fin b => if Qle_bool 0 b then PInf else NInf
  | NInf, Fin b => if Qle_bool 0 b then NInf else PInf
  | _, _ => NaN
  end.

(** [Math.min]. *)
Definition js_min (x y : num) : num :=
  match x, y with
  | NaN, _ | _, NaN => NaN
  | NInf, _ | _, NInf => NInf
  | PInf, other | other, PInf => other
  | Fin a, Fin b => Fin (if Qle_bool a b then a else b)
  end.

(** [x < y]; a comparison with NaN is false. *)
Definition js_lt (x y : num) : bool :=
  match x, y with
  | NaN, _ | _, NaN => false
  | _, NInf => false
  | NInf, _ => true
  | PInf, _ => false
  | _, PInf => true
  | Fin a, Fin b => negb (Qle_bool b a)
  end.

(** ** Quotients of doubles *)

(** The largest double below 1. *)
Definition below_one : Q := 1 - 2 ^ (-53).

Lemma double_below_one : double below_one.
Proof. unfold double. vm_compute. reflexivity. Qed.

Lemma double_multiple x :
  double x -> 0 < x -> exists m, x == inject_Z m * 2 ^ scale x.
Proof.
  unfold double, round. intros H Hx. rewrite (proj1 (Qgt_alt _ _) Hx) in H.
  destruct (Qle_bool huge (round_pos x)); simpl in H; [contradiction|].
  exists (rne (x / 2 ^ scale x)). symmetry. exact H.
Qed.

Lemma below_top x : 0 < x -> x < 2 ^ (scale x + 53).
Proof.
  intros Hx. eapply Qlt_le_trans; [apply (ilog2_spec x Hx)|].
  apply two_le. pose proof (scale_ilog2 x). lia.
Qed.

Lemma normal_lower x : 0 < x -> (-1074 < scale x)%Z -> 2 ^ (scale x + 52) <= x.
Proof.
  intros Hx Hs.
  assert (E : (scale x + 52 = ilog2 x)%Z) by (unfold scale in *; lia).
  rewrite E. apply ilog2_spec, Hx.
Qed.

Lemma scale_mono x y : 0 < x -> x <= y -> (scale x <= scale y)%Z.
Proof.
  intros Hx H. pose proof (ilog2_mono x y Hx H). unfold scale. lia.
Qed.

(** Two doubles [a < d]: their quotient is at most the largest double
    below 1. *)
Lemma quotient_below_one a d :
  double a -> double d -> 0 < a -> a < d -> a / d <= below_one.
Proof.
  intros Ha Hd Hpos Hlt.
  assert (Hdpos : 0 < d) by lra.
  destruct (double_multiple a Ha Hpos) as (ma & Ea).
  destruct (double_multiple d Hd Hdpos) as (md & Ed).
  pose proof (scale_mono a d Hpos (Qlt_le_weak _ _ Hlt)) as Hs.
  pose proof (below_top a Hpos) as Ta. pose proof (below_top d Hdpos) as Td.
  assert (P53 : forall s, 2 ^ (s + 53) == 2 ^ 53 * 2 ^ s).
  { intros s. rewrite Z.add_comm. apply two_plus. }
  assert (K : 2 ^ (-53) * 2 ^ 53 == 1).
  { rewrite <- two_plus. reflexivity. }
  apply Qle_shift_div_r; [exact Hdpos|]. unfold below_one.
  set (e := 2 ^ (-53)) in *. set (B := 2 ^ 53) in *.
  assert (He : 0 < e) by apply two_pos.
  assert (HB : 0 < B) by apply two_pos.
  destruct (Z.eq_dec (scale a) (scale d)) as [E|Hne].
  - set (U := 2 ^ scale d) in *. rewrite E in Ea, Ta. fold U in Ea.
    assert (HU : 0 < U) by apply two_pos.
    rewrite (P53 (scale d)) in Ta, Td. fold U in Ta, Td.
    assert (Hm : (ma < md)%Z).
    { apply Z.lt_nge. intros C. rewrite Zle_Qle in C.
      assert (d <= a); [|lra].
      rewrite Ea, Ed. apply Qmult_le_compat_r; [exact C | lra]. }
    assert (Hstep : a + U <= d).
    { rewrite Ea, Ed.
      setoid_replace (inject_Z ma * U + U) with (inject_Z (ma + 1) * U)
        by (rewrite inject_Z_plus; ring).
      apply Qmult_le_compat_r; [|lra]. rewrite <- Zle_Qle. lia. }
    assert (Hed : e * d <= U).
    { apply Qlt_le_weak.
      apply Qlt_le_trans with (e * (B * U)).
      - apply Qmult_lt_l; assumption.
      - setoid_replace (e * (B * U)) with ((e * B) * U) by ring.
        rewrite K. lra. }
    lra.
  - assert (Hs' : (scale a < scale d)%Z) by lia.
    set (U := 2 ^ scale a) in *. fold U in Ea.
    assert (HU : 0 < U) by apply two_pos.
    rewrite (P53 (scale a)) in Ta. fold U in Ta.
    assert (Hm : (ma < 2 ^ 53)%Z).
    { apply Z.lt_nge. intros C. rewrite Zle_Qle in C.
      assert (B * U <= a); [|lra].
      rewrite Ea. apply Qmult_le_compat_r; [|lra].
      unfold B. rewrite two_Z by lia. exact C. }
    assert (Hstep : a + U <= B * U).
    { rewrite Ea.
      setoid_replace (inject_Z ma * U + U) with (inject_Z (ma + 1) * U)
        by (rewrite inject_Z_plus; ring).
      apply Qmult_le_compat_r; [|lra].
      unfold B. rewrite two_Z by lia. rewrite <- Zle_Qle. lia. }
    assert (Hn : B * U <= d).
    { eapply Qle_trans; [|apply (normal_lower d Hdpos)].
      - unfold B, U. rewrite <- two_plus. apply two_le. lia.
      - pose proof (scale_min a). lia. }
    assert (HeB : e * (B * U) == U).
    { setoid_replace (e * (B * U)) with ((e * B) * U) by ring.
      rewrite K. ring. }
    assert (He1 : e < 1) by reflexivity.
    assert (Hprod : 0 <= (1 - e) * (d - B * U)).
    { apply Qmult_le_0_compat; lra. }
    setoid_replace ((1 - e) * d) with ((1 - e) * (d - B * U) + (B * U - e * (B * U)))
      by ring.
    rewrite HeB. lra.
Qed.

End Number.

(* ===================================================================== *)
(** * The progress animation *)
(* ===================================================================== *)

Module Animation.
Import Number.
Local Open Scope Q_scope.

(** Times and widths are JavaScript numbers: see [Number]. The arguments of
    the function and the time stamps are finite doubles, written as the
    rationals they stand for. *)

(** The element's [style.width], as the number in front of the percent
    sign, and whether a frame callback is pending. *)
Record bar : Type := mkBar {
  width : num;
  scheduled : bool
}.

Section Animate.

(** The arguments of [animateProgressBar] and the value [performance.now()]
    returned when it was called. *)
Variables (targetWidth duration startTime : Q).

Definition startWidth : Q := 0.

Definition elapsed (currentTime : Q) : num :=
  js_sub (Fin currentTime) (Fin startTime).

Definition progress (currentTime : Q) : num :=
  js_min (js_div (elapsed currentTime) (Fin duration)) (Fin 1).

Definition currentWidth (currentTime : Q) : num :=
  js_add (Fin startWidth)
         (js_mul (js_sub (Fin targetWidth) (Fin startWidth))
                 (progress currentTime)).

(** The callback [animate], run by the browser with the time stamp of the
    frame. *)
Definition animate (currentTime : Q) : bar :=
  {| width := currentWidth currentTime;
     scheduled := js_lt (progress currentTime) (Fin 1) |}.

(** [animateProgressBar]: nothing happens when no element has the id,
    otherwise [animate] is requested for the next frame. The width the
    element had is neither read nor changed here. *)
Definition animateProgressBar (found : bool) (b : bar) : bar :=
  if found then {| width := width b; scheduled := true |} else b.

(** The browser delivers a frame: a pending callback runs, and nothing
    happens when none is pending. *)
Definition frame (b : bar) (currentTime : Q) : bar :=
  if scheduled b then animate currentTime else b.

Definition frames (times : list Q) (b : bar) : bar := fold_left frame times b.

(** The frame at [currentTime] writes
    [targetWidth * min(elapsed / duration, 1)], each operation being the
    one of the script. *)
Definition interpolates (currentTime : Q) (prior : bar) : Prop :=
  let b := frame (animateProgressBar true prior) currentTime in
  num_eq (width b)
         (js_mul (Fin targetWidth)
                 (js_min (js_div (js_sub (Fin currentTime) (Fin startTime))
                                 (Fin duration))
                         (Fin 1))).

(** The elapsed time computed by the frame has reached the duration. *)
Definition reached (currentTime : Q) : Prop :=
  num_le (Fin duration) (elapsed currentTime).

(** The width written is the target. *)
Definition on_target (b : bar) : Prop :=
  exists q, width b = Fin q /\ q == targetWidth.

(** Once the elapsed time has reached the duration, the frame writes the
    target itself and requests no further frame. *)
Definition stops_on_target (currentTime : Q) (prior : bar) : Prop :=
  let b := frame (animateProgressBar true prior) currentTime in
  reached currentTime -> on_target b /\ scheduled b = false.

(** A frame that requests no further frame has written the target. *)
Definition stops_only_on_target (currentTime : Q) (prior : bar) : Prop :=
  let b := frame (animateProgressBar true prior) currentTime in
  scheduled b = false -> on_target b.

(** While the elapsed time is below the duration, the frame requests
    another one. *)
Definition continues_before (currentTime : Q) (prior : bar) : Prop :=
  let b := frame (animateProgressBar true prior) currentTime in
  js_lt (elapsed currentTime) (Fin duration) = true -> scheduled b = true.

(** A run of frames ends the animation on the target width. *)
Definition terminates_on_target (times : list Q) (prior : bar) : Prop :=
  let b := frames times (animateProgressBar true prior) in
  scheduled b = false /\ on_target b.

(** ** The steps of one frame *)

Lemma elapsed_round t : elapsed t = round (t + - startTime).
Proof. reflexivity. Qed.

Lemma elapsed_cases t :
  (exists a, elapsed t = Fin a) \/ elapsed t = PInf \/ elapsed t = NInf.
Proof.
  rewrite elapsed_round. pose proof (round_not_NaN (t + - startTime)).
  destruct (round (t + - startTime)); eauto. congruence.
Qed.

Lemma elapsed_mono t1 t2 : t1 <= t2 -> num_le (elapsed t1) (elapsed t2).
Proof. intros H. rewrite !elapsed_round. apply round_mono. lra. Qed.

Lemma elapsed_nonneg t : startTime <= t -> num_le (Fin 0) (elapsed t).
Proof.
  intros H. rewrite elapsed_round. rewrite <- round_0. apply round_mono. lra.
Qed.

Hypothesis target_double : double targetWidth.

Lemma span_target :
  exists T, js_sub (Fin targetWidth) (Fin startWidth) = Fin T /\
            T == targetWidth.
Proof.
  unfold js_sub, js_neg, js_add, startWidth.
  apply round_of_double; [exact target_double | ring].
Qed.

Lemma signed_comp a b pos neg : a == b -> signed a pos neg = signed b pos neg.
Proof.
  intros E. unfold signed.
  assert (E0 : Qeq_bool a 0 = Qeq_bool b 0).
  { destruct (Qeq_bool a 0) eqn:H1, (Qeq_bool b 0) eqn:H2; try reflexivity.
    - apply Qeq_bool_iff in H1. rewrite E in H1. apply Qeq_bool_iff in H1.
      congruence.
    - apply Qeq_bool_iff in H2. rewrite <- E in H2. apply Qeq_bool_iff in H2.
      congruence. }
  now rewrite E0, (Qle_bool_comp 0 0 a b (Qeq_refl 0) E).
Qed.

Lemma js_mul_comp a b x : a == b -> num_eq (js_mul (Fin a) x) (js_mul (Fin b) x).
Proof.
  intros E. destruct x as [q| | |]; simpl.
  - apply round_comp. now rewrite E.
  - exact I.
  - rewrite (signed_comp a b _ _ E). apply num_eq_refl.
  - rewrite (signed_comp a b _ _ E). apply num_eq_refl.
Qed.

(** Adding to zero what an operation returned returns it. *)
Lemma js_add_zero_rounded x :
  (forall v, x = Fin v -> double v) -> num_eq (js_add (Fin 0) x) x.
Proof.
  intros H. destruct x as [v| | |]; simpl; try exact I.
  apply num_eq_trans with (round v); [apply round_comp; ring|].
  now apply H.
Qed.

Lemma js_mul_rounded a x v : js_mul (Fin a) x = Fin v -> double v.
Proof.
  destruct x as [q| | |]; simpl; try discriminate.
  - apply round_double.
  - unfold signed. destruct (Qeq_bool a 0); [discriminate|].
    destruct (Qle_bool 0 a); discriminate.
  - unfold signed. destruct (Qeq_bool a 0); [discriminate|].
    destruct (Qle_bool 0 a); discriminate.
Qed.

Lemma width_eq t :
  num_eq (currentWidth t) (js_mul (Fin targetWidth) (progress t)).
Proof.
  unfold currentWidth. destruct span_target as (T & -> & ET).
  unfold startWidth.
  apply num_eq_trans with (js_mul (Fin T) (progress t)).
  - apply js_add_zero_rounded. intros v. apply js_mul_rounded.
  - now apply js_mul_comp.
Qed.

Lemma animate_interpolates t prior : interpolates t prior.
Proof.
  unfold interpolates, frame, animateProgressBar. cbn [scheduled width animate].
  apply width_eq.
Qed.

(** With progress 1 the width is the target. *)
Lemma width_at_one t q :
  progress t = Fin q -> q == 1 -> exists v, currentWidth t = Fin v /\ v == targetWidth.
Proof.
  intros Hp Hq. apply num_eq_Fin.
  apply num_eq_trans with (js_mul (Fin targetWidth) (progress t));
    [apply width_eq|].
  rewrite Hp. simpl.
  apply num_eq_trans with (round targetWidth); [|exact target_double].
  apply round_comp. rewrite Hq. ring.
Qed.

Hypothesis duration_pos : 0 < duration.

Lemma duration_nonzero : Qeq_bool duration 0 = false.
Proof.
  destruct (Qeq_bool duration 0) eqn:E; [|reflexivity].
  apply Qeq_bool_iff in E. lra.
Qed.

Lemma duration_sign : Qle_bool 0 duration = true.
Proof. apply Qle_bool_iff. lra. Qed.

(** The progress of a frame is a number that is at most 1, or minus
    infinity. *)
Lemma progress_cases t :
  (exists q, progress t = Fin q /\ q <= 1) \/ progress t = NInf.
Proof.
  unfold progress.
  destruct (elapsed_cases t) as [(a & ->) | [-> | ->]]; simpl.
  - rewrite duration_nonzero.
    pose proof (round_not_NaN (a / duration)) as Hn.
    destruct (round (a / duration)) as [q| | |]; simpl.
    + left. eexists. split; [reflexivity|].
      destruct (Qle_bool q 1) eqn:E; [now apply Qle_bool_iff | apply Qle_refl].
    + congruence.
    + left. exists 1. split; [reflexivity | apply Qle_refl].
    + now right.
  - rewrite duration_sign. simpl. left. exists 1.
    split; [reflexivity | apply Qle_refl].
  - rewrite duration_sign. simpl. now right.
Qed.

Lemma progress_reached t :
  reached t -> exists q, progress t = Fin q /\ q == 1.
Proof.
  unfold reached, progress. intros H.
  destruct (elapsed t) as [a| | |]; simpl in H; try contradiction; simpl.
  - rewrite duration_nonzero.
    assert (H1 : 1 <= a / duration).
    { apply Qle_shift_div_l; [exact duration_pos | lra]. }
    pose proof (num_le_eq_l _ _ _ (num_eq_sym _ _ double_1)
                  (round_mono 1 (a / duration) H1)) as Hr.
    destruct (round (a / duration)) as [q| | |]; simpl in Hr;
      try contradiction; simpl.
    + eexists. split; [reflexivity|].
      destruct (Qle_bool q 1) eqn:E; [|reflexivity].
      apply Qle_bool_iff in E. now apply Qle_antisym.
    + exists 1. now split.
  - rewrite duration_sign. simpl. exists 1. now split.
Qed.

Lemma animate_stops t prior : stops_on_target t prior.
Proof.
  unfold stops_on_target, on_target, frame, animateProgressBar.
  cbn [scheduled width animate]. intros H.
  destruct (progress_reached t H) as (q & Hp & Hq). split.
  - now apply (width_at_one t q).
  - rewrite Hp. simpl. apply negb_false_iff, Qle_bool_iff. rewrite Hq.
    apply Qle_refl.
Qed.

Lemma animate_stops_only t prior : stops_only_on_target t prior.
Proof.
  unfold stops_only_on_target, on_target, frame, animateProgressBar.
  cbn [scheduled width animate]. intros H.
  destruct (progress_cases t) as [(q & Hp & Hq) | Hp]; rewrite Hp in H;
    simpl in H; [|discriminate].
  apply negb_false_iff, Qle_bool_iff in H.
  apply (width_at_one t q Hp). now apply Qle_antisym.
Qed.

Lemma frames_idle times b : scheduled b = false -> frames times b = b.
Proof.
  intros H. induction times as [|t times IH]; [reflexivity|].
  unfold frames in *. simpl. unfold frame at 2. now rewrite H.
Qed.

Lemma frames_reach times : forall b,
  scheduled b = true ->
  Exists reached times ->
  scheduled (frames times b) = false /\ on_target (frames times b).
Proof.
  induction times as [|t times IH]; intros b Hb Hex.
  - inversion Hex.
  - unfold frames. cbn [fold_left]. fold (frames times).
    assert (E : frame b t = animate t) by (unfold frame; now rewrite Hb).
    rewrite E.
    destruct (scheduled (animate t)) eqn:Hs.
    + apply IH; [exact Hs|].
      inversion Hex as [? ? H0|]; subst; [|assumption].
      destruct (animate_stops t b H0) as (_ & Hstop).
      unfold frame, animateProgressBar in Hstop. cbn [scheduled] in Hstop.
      congruence.
    + rewrite frames_idle by assumption. split; [exact Hs|].
      pose proof (animate_stops_only t b) as Ho.
      unfold stops_only_on_target, frame, animateProgressBar in Ho.
      cbn [scheduled] in Ho. now apply Ho.
Qed.

Lemma frames_terminate times prior :
  Exists reached times -> terminates_on_target times prior.
Proof. intros H. now apply frames_reach. Qed.

(** The frame whose time stamp is the start time plus the duration, or
    later, has reached the duration. *)
Lemma reached_after t :
  double duration -> startTime + duration <= t -> reached t.
Proof.
  intros Hd H. unfold reached. rewrite elapsed_round.
  apply num_le_eq_l with (round duration); [now apply num_eq_sym|].
  apply round_mono. lra.
Qed.

Lemma animate_continues t prior : double duration -> continues_before t prior.
Proof.
  intros Hd. unfold continues_before, frame, animateProgressBar.
  cbn [scheduled animate]. unfold progress.
  pose proof (elapsed_round t) as Er.
  destruct (elapsed t) as [a| | |]; simpl; try discriminate.
  - intros H. apply negb_true_iff in H. rewrite duration_nonzero.
    assert (Hlt : a < duration).
    { apply Qnot_le_lt. intros C. apply Qle_bool_iff in C. congruence. }
    assert (Hq : a / duration <= below_one).
    { destruct (Qlt_le_dec 0 a) as [Hpos | Hneg].
      - apply quotient_below_one; try assumption.
        now apply (round_double (t + - startTime)).
      - apply Qle_trans with 0; [|discriminate].
        apply Qle_shift_div_r; [exact duration_pos | lra]. }
    pose proof (num_le_eq_r _ _ _ (round_mono _ _ Hq) double_below_one) as Hr.
    destruct (round (a / duration)) as [q| | |]; simpl in Hr;
      try contradiction; simpl; [|reflexivity].
    assert (H1 : q < 1).
    { eapply Qle_lt_trans; [exact Hr | reflexivity]. }
    assert (E : Qle_bool q 1 = true) by (apply Qle_bool_iff; lra).
    rewrite E. apply negb_true_iff.
    destruct (Qle_bool 1 q) eqn:C; [|reflexivity].
    apply Qle_bool_iff in C. lra.
  - intros _. rewrite duration_sign. reflexivity.
Qed.

End Animate.

(** 70 percent over 1000 ms, 333 ms after the start: the width written is
    the double next above 23.31, which prints as 23.310000000000002. *)
Example animate_rounds :
  num_eq (width (animate 70 1000 0 333))
         (Fin (410073856695337 # 17592186044416)).
Proof. vm_compute. reflexivity. Qed.

(** C8 (amended). For every target percentage and every positive duration
    (both doubles), each frame of [animateProgressBar] writes the width
    [targetWidth * min(elapsed / duration, 1)], computed in the arithmetic
    of the script and interpolated from 0 whatever width the element had.
    Once the elapsed time has reached the duration, as it has for every
    time stamp from the start time plus the duration on, the width written
    is exactly the target and no further frame is requested; a frame that
    requests no further frame has written the target, and while the elapsed
    time is below the duration another frame is requested. So every run of
    frames that gets that far ends the animation on the target. With no
    element of the given id nothing is written or requested. *)
Theorem animateProgressBar_positive_duration
        (targetWidth duration startTime : Q) :
  0 < duration -> double targetWidth -> double duration ->
  (forall t prior, interpolates targetWidth duration startTime t prior) /\
  (forall t prior, stops_on_target targetWidth duration startTime t prior) /\
  (forall t prior,
     stops_only_on_target targetWidth duration startTime t prior) /\
  (forall t prior, continues_before targetWidth duration startTime t prior) /\
  (forall t, startTime + duration <= t -> reached duration startTime t) /\
  (forall times prior,
     Exists (reached duration startTime) times ->
     terminates_on_target targetWidth duration startTime times prior) /\
  (forall prior, animateProgressBar false prior = prior).
Proof.
  intros Hpos Ht Hd. split; [|split; [|split; [|split; [|split; [|split]]]]].
  - intros t prior. now apply animate_interpolates.
  - intros t prior. now apply animate_stops.
  - intros t prior. now apply animate_stops_only.
  - intros t prior. now apply animate_continues.
  - intros t H. now apply reached_after.
  - intros times prior H. now apply frames_terminate.
  - reflexivity.
Qed.

Lemma double_integer_50 : double 50.
Proof. unfold double. vm_compute. reflexivity. Qed.

Lemma double_integer_1000 : double 1000.
Proof. unfold double. vm_compute. reflexivity. Qed.

Lemma animateProgressBar_positive_duration_witness :
  0 < 1000 /\ double 50 /\ double 1000 /\
  terminates_on_target 50 1000 0 [16 # 1; 500 # 1; 1016 # 1; 1033 # 1]
                       (mkBar (Fin 80) false).
Proof.
  split; [reflexivity|]. split; [exact double_integer_50|].
  split; [exact double_integer_1000|].
  apply (animateProgressBar_positive_duration 50 1000 0);
    [reflexivity | exact double_integer_50 | exact double_integer_1000 |].
  right. right. left. vm_compute. discriminate.
Defined.

(** With a negative duration the elapsed time is past the duration from the
    first frame on, yet the frame writes a width other than the target and
    requests another frame. *)
Lemma animateProgressBar_negative_duration :
  ~ stops_on_target 50 (-1000 # 1) 0 (16 # 1) (mkBar (Fin 0) false).
Proof.
  unfold stops_on_target. intros H.
  destruct H as [_ Hs]; [vm_compute; discriminate|].
  vm_compute in Hs. discriminate Hs.
Qed.


End Animation.

(* ===================================================================== *)
(** * The document *)
(* ===================================================================== *)

Module Dom.

(** The identity of an element object: two references are the same object
    exactly when their [uid]s are equal. *)
Definition ref := nat.

(** An element: its identity, tag, attributes, and the state the script
    reads or writes ([:checked], [value], inline [style]). *)
Record element : Type := mkElement {
  uid : ref;
  localName : ustring;
  attributes : list (ustring * ustring);
  checked : bool;
  value : ustring;
  style : list (ustring * ustring)
}.

(** A node is a text node or an element with its child nodes, in order. A
    document is the list of the child nodes of the [Document] object. *)
#[local] Unset Elimination Schemes.
Inductive node : Type :=
| Text (data : ustring)
| Elem (e : element) (childNodes : list node).
#[local] Set Elimination Schemes.

Abbreviation forest := (list node) (only parsing).

Fixpoint assoc (key : ustring) (l : list (ustring * ustring)) : option ustring :=
  match l with
  | [] => None
  | (k, v) :: l' => if ueqb k key then Some v else assoc key l'
  end.

Fixpoint assoc_set (key v : ustring) (l : list (ustring * ustring))
  : list (ustring * ustring) :=
  match l with
  | [] => [(key, v)]
  | (k, v') :: l' =>
      if ueqb k key then (k, v) :: l' else (k, v') :: assoc_set key v l'
  end.

Definition getAttribute (key : ustring) (e : element) : option ustring :=
  assoc key (attributes e).

(** The [className] property reflects the [class] attribute. *)
Definition className (e : element) : ustring :=
  match getAttribute (u "class") e with Some c => c | None => [] end.

(** Class names are separated by ASCII white space. *)
Definition ascii_space (c : N) : bool := mem c [9; 10; 12; 13; 32]%N.

Fixpoint tokens_from (cur : ustring) (s : ustring) : list ustring :=
  match s with
  | [] => match cur with [] => [] | _ => [rev cur] end
  | c :: s' =>
      if ascii_space c then
        match cur with
        | [] => tokens_from [] s'
        | _ => rev cur :: tokens_from [] s'
        end
      else tokens_from (c :: cur) s'
  end.

Definition classList (e : element) : list ustring :=
  tokens_from [] (className e).

(** The selector [.cls]. *)
Definition has_class (cls : ustring) (e : element) : bool :=
  existsb (ueqb cls) (classList e).

(** [element.style.prop = v]. *)
Definition set_style (prop v : ustring) (e : element) : element :=
  mkElement (uid e) (localName e) (attributes e) (checked e) (value e)
            (assoc_set prop v (style e)).

Definition get_style (prop : ustring) (e : element) : option ustring :=
  assoc prop (style e).

(** ** Traversal in document order *)

Fixpoint subtree (n : node) : list node :=
  match n with
  | Text _ => []
  | Elem e kids => n :: flat_map subtree kids
  end.

(** All elements of a forest, in document (pre-)order. *)
Definition elements (d : forest) : list node := flat_map subtree d.

Definition node_matches (p : element -> bool) (n : node) : bool :=
  match n with
  | Text _ => false
  | Elem e _ => p e
  end.

Definition node_uid (n : node) : option ref :=
  match n with
  | Text _ => None
  | Elem e _ => Some (uid e)
  end.

Definition has_uid (r : ref) (n : node) : bool :=
  node_matches (fun e => Nat.eqb (uid e) r) n.

(** [querySelectorAll] and [querySelector] for a selector that tests one
    element at a time. *)
Definition querySelectorAll (p : element -> bool) (d : forest) : list node :=
  filter (node_matches p) (elements d).

Definition querySelector (p : element -> bool) (d : forest) : option node :=
  find (node_matches p) (elements d).

(** [Element.querySelector]: the search goes through the descendants. *)
Definition descendant (p : element -> bool) (n : node) : option node :=
  match n with
  | Text _ => None
  | Elem _ kids => querySelector p kids
  end.

Definition uids (d : forest) : list ref :=
  flat_map (fun n => match node_uid n with Some r => [r] | None => [] end)
           (elements d).

(** The element object with identity [r], if it is in the forest. *)
Definition lookup (r : ref) (d : forest) : option node :=
  querySelector (fun e => Nat.eqb (uid e) r) d.

(** ** Mutation *)

(** Apply [f] to the child list of the element [target]. *)
Fixpoint update_children (target : ref) (f : forest -> forest) (n : node)
  : node :=
  match n with
  | Text _ => n
  | Elem e kids =>
      if Nat.eqb (uid e) target then Elem e (f kids)
      else Elem e (map (update_children target f) kids)
  end.

(** [parent.insertBefore(child, parent.firstChild)]. *)
Definition insertFirst (parent : ref) (child : node) (d : forest) : forest :=
  map (update_children parent (cons child)) d.

(** [parent.appendChild(child)]. *)
Definition appendChild (parent : ref) (child : node) (d : forest) : forest :=
  map (update_children parent (fun kids => kids ++ [child])) d.

Definition without (r : ref) (kids : forest) : forest :=
  filter (fun n => negb (has_uid r n)) kids.

(** [parent.removeChild(child)], when [child] is a child of [parent]. *)
Definition removeChild (parent child : ref) (d : forest) : forest :=
  map (update_children parent (without child)) d.

(** [node.remove()]: the node leaves the child list it is in, if any. *)
Fixpoint remove_in (r : ref) (n : node) : node :=
  match n with
  | Text _ => n
  | Elem e kids => Elem e (without r (map (remove_in r) kids))
  end.

Definition remove (r : ref) (d : forest) : forest :=
  without r (map (remove_in r) d).

(** The nodes of identity [r] in the forest, each with its subtree. *)
Definition extracted (r : ref) (d : forest) : forest :=
  querySelectorAll (fun e => Nat.eqb (uid e) r) d.

(** The element objects that a changed document no longer holds, when
    [keep] lists the identities that are still in it: an element that is
    gone is kept as it was, with its subtree. *)
Fixpoint orphans (keep : list ref) (n : node) : forest :=
  match n with
  | Text _ => []
  | Elem e kids =>
      if existsb (Nat.eqb (uid e)) keep then flat_map (orphans keep) kids
      else [n]
  end.

(** Apply [g] to the element [r] itself. *)
Fixpoint update_element (r : ref) (g : element -> element) (n : node) : node :=
  match n with
  | Text _ => n
  | Elem e kids =>
      Elem (if Nat.eqb (uid e) r then g e else e)
           (map (update_element r g) kids)
  end.

Definition setStyle (r : ref) (prop v : ustring) (d : forest) : forest :=
  map (update_element r (set_style prop v)) d.

(** [document.body]: the first [body] or [frameset] child of the [html]
    document element. *)
Definition is_element (n : node) : bool :=
  match n with Text _ => false | Elem _ _ => true end.

Definition is_body (e : element) : bool :=
  ueqb (localName e) (u "body") || ueqb (localName e) (u "frameset").

Definition body (d : forest) : option node :=
  match find is_element d with
  | Some (Elem e kids) =>
      if ueqb (localName e) (u "html") then find (node_matches is_body) kids
      else None
  | _ => None
  end.

Definition children (n : node) : forest :=
  match n with
  | Text _ => []
  | Elem _ kids => kids
  end.

End Dom.

(* ===================================================================== *)
(** * The browser: world state, timers, effects *)
(* ===================================================================== *)

Module Browser.
Import Dom.
Local Open Scope Z_scope.

(** The two timer callbacks of the script. Both close over one alert
    element. [Dismiss r] is
    [() => { alert.style.opacity = '0'; setTimeout(() => alert.remove(), 300); }]
    and [Remove r] is [() => alert.remove()]. *)
Inductive callback : Type :=
| Dismiss (r : ref)
| Remove (r : ref).

(** How [document.execCommand('copy')] ends: it returns [true] after copying
    the selection, returns [false] when the command is unsupported or
    disabled, or throws. *)
Inductive exec_outcome : Type :=
| Copied
| Refused
| Raises (error : ustring).

(** What the platform offers to one call of the clipboard helper. The copy
    command is the browser's: how it ends may depend on the document it is
    run on. *)
Record platform : Type := mkPlatform {
  clipboard_api : bool;       (* navigator.clipboard is defined *)
  secure_context : bool;      (* window.isSecureContext *)
  writeText_fulfilled : bool; (* the promise of writeText is fulfilled *)
  writeText_reason : ustring; (* the reason it is rejected with otherwise *)
  execCommand_copy : forest -> exec_outcome
}.

Record world : Type := mkWorld {
  document : forest;          (* the nodes in the document *)
  detached : forest;          (* element objects outside the document *)
  next_uid : ref;             (* identity of the next element created *)
  clock : Z;                  (* milliseconds *)
  timers : list (Z * callback);   (* pending timers: due time, callback *)
  console : list ustring;     (* what console.error printed *)
  clipboard : option ustring; (* the system clipboard, when written *)
  defaultPrevented : bool     (* of the event being dispatched *)
}.

Definition with_document (d : forest) (w : world) : world :=
  mkWorld d (detached w) (next_uid w) (clock w) (timers w) (console w)
          (clipboard w) (defaultPrevented w).

Definition with_detached (d : forest) (w : world) : world :=
  mkWorld (document w) d (next_uid w) (clock w) (timers w) (console w)
          (clipboard w) (defaultPrevented w).

Definition with_next_uid (r : ref) (w : world) : world :=
  mkWorld (document w) (detached w) r (clock w) (timers w) (console w)
          (clipboard w) (defaultPrevented w).

Definition with_clock (t : Z) (w : world) : world :=
  mkWorld (document w) (detached w) (next_uid w) t (timers w) (console w)
          (clipboard w) (defaultPrevented w).

Definition with_timers (l : list (Z * callback)) (w : world) : world :=
  mkWorld (document w) (detached w) (next_uid w) (clock w) l (console w)
          (clipboard w) (defaultPrevented w).

Definition with_console (l : list ustring) (w : world) : world :=
  mkWorld (document w) (detached w) (next_uid w) (clock w) (timers w) l
          (clipboard w) (defaultPrevented w).

Definition with_clipboard (c : option ustring) (w : world) : world :=
  mkWorld (document w) (detached w) (next_uid w) (clock w) (timers w)
          (console w) c (defaultPrevented w).

Definition with_defaultPrevented (b : bool) (w : world) : world :=
  mkWorld (document w) (detached w) (next_uid w) (clock w) (timers w)
          (console w) (clipboard w) b.

(** ** A state and exception monad *)

Inductive completion (A : Type) : Type :=
| Normal (a : A)
| Throw (error : ustring).
Arguments Normal {A} a.
Arguments Throw {A} error.

Definition M (A : Type) : Type := world -> completion A * world.

Definition ret {A} (a : A) : M A := fun w => (Normal a, w).

Definition bind {A B} (m : M A) (k : A -> M B) : M B :=
  fun w =>
    match m w with
    | (Normal a, w') => k a w'
    | (Throw e, w') => (Throw e, w')
    end.

Definition throw {A} (e : ustring) : M A := fun w => (Throw e, w).

(** [try { m } catch (err) { handler(err) }]. *)
Definition try_catch {A} (m : M A) (handler : ustring -> M A) : M A :=
  fun w =>
    match m w with
    | (Normal a, w') => (Normal a, w')
    | (Throw e, w') => handler e w'
    end.

Definition gets {A} (f : world -> A) : M A := fun w => (Normal (f w), w).
Definition modify (f : world -> world) : M unit := fun w => (Normal tt, f w).

Definition exec {A} (m : M A) (w : world) : world := snd (m w).

Notation "x <- m ;; k" := (bind m (fun x => k))
  (at level 100, m at next level, right associativity).
Notation "m ;; k" := (bind m (fun _ => k))
  (at level 100, right associativity).

(** [forEach]. *)
Fixpoint forEach {A} (l : list A) (body : A -> M unit) : M unit :=
  match l with
  | [] => ret tt
  | a :: l' => body a ;; forEach l' body
  end.

(** ** Primitive effects *)

(** [document.createElement]: a new identity. *)
Definition fresh : M ref :=
  fun w => (Normal (next_uid w), with_next_uid (S (next_uid w)) w).

(** [setTimeout(callback, delay)]. *)
Definition setTimeout (t : callback) (delay : Z) : M unit :=
  modify (fun w => with_timers (timers w ++ [(clock w + delay, t)]) w).

Definition console_error (msg : ustring) : M unit :=
  modify (fun w => with_console (console w ++ [msg]) w).

(** [e.preventDefault()]. *)
Definition preventDefault : M unit := modify (with_defaultPrevented true).

(** [document.body]; reading a property of [null] throws. *)
Definition document_body : M ref :=
  fun w =>
    match body (document w) with
    | Some (Elem e _) => (Normal (uid e), w)
    | _ => (Throw (u "TypeError"), w)
    end.

Definition is_child (parent child : ref) (d : forest) : bool :=
  match lookup parent d with
  | Some (Elem _ kids) => existsb (has_uid child) kids
  | _ => false
  end.

(** [parent.removeChild(child)] throws when [child] is not a child of
    [parent]. *)
Definition remove_child (parent child : ref) : M unit :=
  fun w =>
    if is_child parent child (document w) then
      (Normal tt, with_document (removeChild parent child (document w)) w)
    else (Throw (u "NotFoundError"), w).

(** ** The event loop *)

(** Running a timer callback. The callback holds the element object, so
    the style is set wherever the element is, and an element taken out of
    the document stays an object outside it. *)
Definition run_callback (t : callback) : M unit :=
  match t with
  | Dismiss r =>
      modify (fun w =>
        with_detached (setStyle r (u "opacity") (u "0") (detached w))
          (with_document (setStyle r (u "opacity") (u "0") (document w)) w)) ;;
      setTimeout (Remove r) 300
  | Remove r =>
      modify (fun w =>
        with_detached (detached w ++ extracted r (document w))
          (with_document (remove r (document w)) w))
  end.

(** The pending timer that is due first; among timers due at the same time
    the one set first. *)
Fixpoint pop_earliest (l : list (Z * callback))
  : option ((Z * callback) * list (Z * callback)) :=
  match l with
  | [] => None
  | x :: l' =>
      match pop_earliest l' with
      | Some (y, rest) =>
          if fst y <? fst x then Some (y, x :: rest) else Some (x, l')
      | None => Some (x, [])
      end
  end.

(** One turn of the event loop: time passes until the next timer is due and
    its callback runs. *)
Definition tick (w : world) : option world :=
  match pop_earliest (timers w) with
  | Some ((due, t), rest) =>
      Some (exec (run_callback t)
                 (with_clock (Z.max (clock w) due) (with_timers rest w)))
  | None => None
  end.

(** Anything the user does to the page between two turns: the document may
    change in any way; the script's timers are not touched, since the
    script never calls [clearTimeout]. An element that leaves the document
    remains an object, which a pending callback still holds. *)
Definition interact (f : forest -> forest) (w : world) : world :=
  let d := f (document w) in
  with_detached (detached w ++ flat_map (orphans (uids d)) (document w))
                (with_document d w).

(** [n] turns of the event loop, the user acting on the page before each
    one: [user i] is what is done before turn [i]. *)
Fixpoint turns (n : nat) (user : nat -> forest -> forest) (w : world)
  : option world :=
  match n with
  | O => Some w
  | S n' =>
      match tick (interact (user O) w) with
      | Some w' => turns n' (fun i => user (S i)) w'
      | None => None
      end
  end.

(** No pending timer is overdue. *)
Definition on_time (w : world) : Prop :=
  Forall (fun x => clock w <= fst x) (timers w).

End Browser.

(* ===================================================================== *)
(** * The page script *)
(* ===================================================================== *)

Module Page.
Import Dom Browser Validator.

Definition new_element (r : ref) (tag : ustring)
           (attrs : list (ustring * ustring)) : element :=
  mkElement r tag attrs false [] [].

(** ** showAlert *)

(** The two template strings of [showAlert] that depend on [type]. *)
Definition alert_class (type : ustring) : ustring :=
  u "alert alert-" ++
  (if ueqb type (u "error") then u "danger" else u "success") ++
  u " alert-dismissible fade show".

Definition icon_class (type : ustring) : ustring :=
  u "fas fa-" ++
  (if ueqb type (u "error") then u "exclamation-triangle"
   else u "check-circle") ++
  u " me-2".

(** The element built by [createElement('div')], the [className] assignment
    and the [innerHTML] assignment. The markup of the template is parsed
    into an [i] element, the message between two runs of white space, the
    dismiss button, and the white space around them; the message is taken
    as text. [r], [ri], [rb] are the identities of the three elements. *)
Definition banner (r ri rb : ref) (message type : ustring) : node :=
  Elem (new_element r (u "div") [(u "class", alert_class type)])
       [ Text (10 :: u "        ")%N;
         Elem (new_element ri (u "i") [(u "class", icon_class type)]) [];
         Text ((10 :: u "        ") ++ message ++ (10 :: u "        "))%N;
         Elem (new_element rb (u "button")
                 [(u "type", u "button"); (u "class", u "btn-close");
                  (u "data-bs-dismiss", u "alert")]) [];
         Text (10 :: u "    ")%N ].

(** A message without [<] holds no markup: assigned to [innerHTML] inside
    the template it is parsed into text, and the elements of the banner are
    those of the template. *)
Definition plain_text (message : ustring) : bool := negb (mem 60%N message).

(** [showAlert(message, type = 'info')]; [None] is a call without the
    second argument. *)
Definition showAlert (message : ustring) (type : option ustring) : M unit :=
  let type := match type with Some t => t | None => u "info" end in
  r <- fresh ;;
  ri <- fresh ;;
  rb <- fresh ;;
  let alertContainer := banner r ri rb message type in
  container <- gets (fun w =>
                 querySelector (has_class (u "container")) (document w)) ;;
  match container with
  | Some (Elem c _) =>
      modify (fun w =>
        with_document (insertFirst (uid c) alertContainer (document w)) w)
  | _ =>
      (* never inserted; the timer below still refers to the element *)
      modify (fun w => with_detached (alertContainer :: detached w) w)
  end ;;
  setTimeout (Dismiss r) 5000.

(** ** The submit listeners *)

Definition msg_missing_url : ustring := u "Please enter a YouTube URL".
Definition msg_invalid_url : ustring := u "Please enter a valid YouTube URL".
Definition msg_missing_quality : ustring := u "Please select a quality option".

(** The listener on the analyze form; [value] is [urlInput.value] when the
    event is dispatched. *)
Definition analyzeSubmit (value : ustring) : M unit :=
  let url := trim value in
  if negb (truthy url) then
    preventDefault ;; showAlert msg_missing_url (Some (u "error"))
  else if negb (isValidYouTubeUrl url) then
    preventDefault ;; showAlert msg_invalid_url (Some (u "error"))
  else ret tt.

(** The selector [input[name="quality"]:checked]. *)
Definition quality_checked (e : element) : bool :=
  ueqb (localName e) (u "input") &&
  match getAttribute (u "name") e with
  | Some n => ueqb n (u "quality")
  | None => false
  end &&
  checked e.

(** The listener on the download form. *)
Definition downloadSubmit : M unit :=
  selectedQuality <- gets (fun w => querySelector quality_checked (document w)) ;;
  match selectedQuality with
  | None => preventDefault ;; showAlert msg_missing_quality (Some (u "error"))
  | Some _ => ret tt
  end.

(** ** The page-load pass over the alerts already in the page *)

Definition has_dismiss_button (alert : node) : bool :=
  match descendant (has_class (u "btn-close")) alert with
  | Some _ => true
  | None => false
  end.

Definition autoDismiss (alert : node) : M unit :=
  match alert with
  | Elem e _ =>
      if negb (has_dismiss_button alert) then setTimeout (Dismiss (uid e)) 5000
      else ret tt
  | Text _ => ret tt
  end.

Definition autoDismissPass : M unit :=
  alerts <- gets (fun w => querySelectorAll (has_class (u "alert")) (document w)) ;;
  forEach alerts autoDismiss.

(** ** The clipboard helper *)

Definition msg_copied : ustring := u "URL copied to clipboard!".
Definition msg_copy_failed : ustring := u "Failed to copy URL".

(** [document.execCommand('copy')] after [focus()] and [select()] on the
    element [selected]: what is copied is the text selected in the
    document, the value of that element. *)
Definition execCommand (p : platform) (selected : ref) : M bool :=
  fun w =>
    match execCommand_copy p (document w) with
    | Copied =>
        (Normal true,
         match lookup selected (document w) with
         | Some (Elem e _) => with_clipboard (Some (value e)) w
         | _ => w
         end)
    | Refused => (Normal false, w)
    | Raises e => (Throw e, w)
    end.

(** The text area of the fallback: its value and the three style
    properties are set before it is attached. *)
Definition textArea (r : ref) (text : ustring) : node :=
  Elem (mkElement r (u "textarea") [] false text
          [(u "top", u "0"); (u "left", u "0"); (u "position", u "fixed")])
       [].

Definition fallbackCopyTextToClipboard (p : platform) (text : ustring)
  : M unit :=
  r <- fresh ;;
  b <- document_body ;;
  modify (fun w => with_document (appendChild b (textArea r text) (document w)) w) ;;
  (* focus() and select(): the text area holds the selection *)
  try_catch
    (_ <- execCommand p r ;;
     showAlert msg_copied (Some (u "success")))
    (fun err =>
     console_error (u "Fallback: Oops, unable to copy " ++ err) ;;
     showAlert msg_copy_failed (Some (u "error"))) ;;
  b' <- document_body ;;
  remove_child b' r.

(** A promise reaction: an exception it throws rejects a promise nobody
    listens to. *)
Definition reaction (m : M unit) : M unit := try_catch m (fun _ => ret tt).

(** [copyToClipboard]. The reactions of the promise run once the promise is
    settled; they are run here right away. *)
Definition copyToClipboard (p : platform) (text : ustring) : M unit :=
  if clipboard_api p && secure_context p then
    let on_rejected err :=
      console_error (u "Failed to copy: " ++ err) ;;
      fallbackCopyTextToClipboard p text in
    if writeText_fulfilled p then
      modify (with_clipboard (Some text)) ;;
      reaction (try_catch (showAlert msg_copied (Some (u "success")))
                          on_rejected)
    else reaction (on_rejected (writeText_reason p))
  else fallbackCopyTextToClipboard p text.

(** ** A small page to run the script on *)

Definition el (r : ref) (tag : string) (cls : string) (kids : forest) : node :=
  Elem (new_element r (u tag) [(u "class", u cls)]) kids.

Definition radio (r : ref) (on : bool) : node :=
  Elem (mkElement r (u "input")
          [(u "type", u "radio"); (u "name", u "quality")] on [] []) [].

Definition sample_page (quality : bool) : forest :=
  [ el 0 "html" ""
      [ el 1 "head" "" [];
        el 2 "body" ""
          [ el 3 "div" "container mt-4"
              [ el 4 "div" "alert alert-info" [Text (u "Ready")];
                el 5 "div" "alert alert-warning alert-dismissible"
                  [ Text (u "Careful"); el 6 "button" "btn-close" [] ];
                el 7 "form" "" [ radio 8 false; radio 9 quality ] ] ] ] ].

Definition sample_world (quality : bool) : world :=
  mkWorld (sample_page quality) [] 10 0 [] [] None false.

End Page.

(* ===================================================================== *)
(** * Facts about the document tree *)
(* ===================================================================== *)

Module DomFacts.
Import Dom.

(** ** Induction in document order *)

Fixpoint node_size (n : node) : nat :=
  match n with
  | Text _ => 1
  | Elem _ kids => S (list_sum (map node_size kids))
  end.

Definition forest_size (d : forest) : nat := list_sum (map node_size d).

(** A forest is empty, or starts with a text node, or starts with an
    element whose children come before its later siblings. *)
Lemma forest_ind (P : forest -> Prop) :
  P [] ->
  (forall data d, P d -> P (Text data :: d)) ->
  (forall e kids d, P kids -> P d -> P (Elem e kids :: d)) ->
  forall d, P d.
Proof.
  intros Hnil Htext Helem d.
  remember (forest_size d) as n eqn:Hn.
  assert (Hle : forest_size d <= n) by lia. clear Hn.
  revert d Hle. induction n as [|n IH]; intros d Hle.
  - destruct d as [|[data|e kids] d]; [exact Hnil | |];
      unfold forest_size in Hle; simpl in Hle; lia.
  - destruct d as [|[data|e kids] d]; [exact Hnil | |];
      unfold forest_size in *; simpl in Hle.
    + apply Htext, IH. lia.
    + apply Helem; apply IH; lia.
Qed.

(** ** Unfolding the traversals *)

Lemma find_app {A} (p : A -> bool) l1 l2 :
  find p (l1 ++ l2) = match find p l1 with Some a => Some a | None => find p l2 end.
Proof.
  induction l1 as [|a l1 IH]; simpl; [reflexivity|].
  destruct (p a); [reflexivity | exact IH].
Qed.

Lemma elements_text data d : elements (Text data :: d) = elements d.
Proof. reflexivity. Qed.

Lemma elements_elem e kids d :
  elements (Elem e kids :: d) = Elem e kids :: elements kids ++ elements d.
Proof. reflexivity. Qed.

Lemma querySelector_text p data d :
  querySelector p (Text data :: d) = querySelector p d.
Proof. reflexivity. Qed.

Lemma querySelector_elem p e kids d :
  querySelector p (Elem e kids :: d) =
  if p e then Some (Elem e kids)
  else match querySelector p kids with
       | Some n => Some n
       | None => querySelector p d
       end.
Proof.
  unfold querySelector. rewrite elements_elem. simpl.
  destruct (p e); [reflexivity | apply find_app].
Qed.

Lemma uids_text data d : uids (Text data :: d) = uids d.
Proof. reflexivity. Qed.

Lemma uids_elem e kids d :
  uids (Elem e kids :: d) = uid e :: uids kids ++ uids d.
Proof.
  unfold uids. rewrite elements_elem. simpl. now rewrite flat_map_app.
Qed.

Lemma uids_app d1 d2 : uids (d1 ++ d2) = uids d1 ++ uids d2.
Proof.
  unfold uids, elements. now rewrite !flat_map_app.
Qed.

(** What [querySelector] returns is an element of the forest that matches. *)
Lemma querySelector_some p : forall d n,
  querySelector p d = Some n ->
  exists e kids, n = Elem e kids /\ p e = true /\ In (uid e) (uids d).
Proof.
  induction d as [|data d IH|e kids d IHk IHd] using forest_ind; intros n H.
  - discriminate.
  - rewrite querySelector_text in H. rewrite uids_text. now apply IH.
  - rewrite querySelector_elem in H. rewrite uids_elem.
    destruct (p e) eqn:Hp.
    + injection H as <-. exists e, kids. simpl. auto.
    + destruct (querySelector p kids) as [m|] eqn:Hk.
      * injection H as <-. destruct (IHk _ eq_refl) as (e' & k' & -> & Hp' & Hin).
        exists e', k'. repeat split; [assumption|].
        right. apply in_or_app. now left.
      * destruct (IHd _ H) as (e' & k' & -> & Hp' & Hin).
        exists e', k'. repeat split; [assumption|].
        right. apply in_or_app. now right.
Qed.

(** ** Updating child lists *)

Lemma update_children_forest_text c f data d :
  map (update_children c f) (Text data :: d)
  = Text data :: map (update_children c f) d.
Proof. reflexivity. Qed.

Lemma update_children_forest_elem c f e kids d :
  map (update_children c f) (Elem e kids :: d)
  = (if Nat.eqb (uid e) c then Elem e (f kids)
     else Elem e (map (update_children c f) kids))
    :: map (update_children c f) d.
Proof. simpl. now destruct (Nat.eqb (uid e) c). Qed.

(** The first match of a selector, as an element. *)
Definition first_match (p : element -> bool) (d : forest) : option element :=
  match querySelector p d with
  | Some (Elem e _) => Some e
  | _ => None
  end.

Lemma first_match_text p data d : first_match p (Text data :: d) = first_match p d.
Proof. reflexivity. Qed.

Lemma first_match_elem p e kids d :
  first_match p (Elem e kids :: d) =
  if p e then Some e
  else match first_match p kids with
       | Some e' => Some e'
       | None => first_match p d
       end.
Proof.
  unfold first_match. rewrite querySelector_elem.
  destruct (p e); [reflexivity|].
  destruct (querySelector p kids) as [n|] eqn:Hk; [|reflexivity].
  destruct (querySelector_some _ _ _ Hk) as (e' & k' & -> & _). reflexivity.
Qed.

Lemma first_match_none p d :
  first_match p d = None <-> querySelector p d = None.
Proof.
  unfold first_match. destruct (querySelector p d) as [n|] eqn:H.
  - destruct (querySelector_some _ _ _ H) as (e' & k' & -> & _).
    split; discriminate.
  - split; reflexivity.
Qed.

(** An update of child lists that never changes the first match among the
    children does not change the first match in the forest. *)
Lemma first_match_update p c f :
  (forall kids, first_match p (f kids) = first_match p kids) ->
  forall d, first_match p (map (update_children c f) d) = first_match p d.
Proof.
  intros Hf.
  induction d as [|data d IH|e kids d IHk IHd] using forest_ind.
  - reflexivity.
  - rewrite update_children_forest_text, !first_match_text. exact IH.
  - rewrite update_children_forest_elem.
    destruct (Nat.eqb (uid e) c); rewrite !first_match_elem;
      destruct (p e); try reflexivity.
    + now rewrite Hf, IHd.
    + now rewrite IHk, IHd.
Qed.

Lemma first_match_cons p n kids :
  first_match p [n] = None ->
  first_match p (n :: kids) = first_match p kids.
Proof.
  destruct n as [data|e k]; [reflexivity|].
  rewrite !first_match_elem. destruct (p e); [discriminate|].
  destruct (first_match p k); [discriminate | reflexivity].
Qed.

Lemma first_match_app p d1 d2 :
  first_match p (d1 ++ d2) =
  match first_match p d1 with Some e => Some e | None => first_match p d2 end.
Proof.
  induction d1 as [|data d IH|e kids d IHk IHd] using forest_ind.
  - reflexivity.
  - simpl. rewrite !first_match_text. exact IH.
  - simpl. rewrite !first_match_elem. destruct (p e); [reflexivity|].
    destruct (first_match p kids); [reflexivity | exact IHd].
Qed.

Lemma first_match_snoc p n kids :
  first_match p [n] = None ->
  first_match p (kids ++ [n]) = first_match p kids.
Proof.
  intros H. rewrite first_match_app, H. now destruct (first_match p kids).
Qed.

(** ** Inserting a first child under the first match *)

Lemma NoDup_uids_elem e kids d :
  NoDup (uids (Elem e kids :: d)) ->
  ~ In (uid e) (uids kids) /\ ~ In (uid e) (uids d) /\
  NoDup (uids kids) /\ NoDup (uids d) /\
  (forall r, In r (uids kids) -> ~ In r (uids d)).
Proof.
  rewrite uids_elem. intros H. inversion H as [|? ? Hnot Hnd]; subst.
  repeat split.
  - intros Hin. apply Hnot, in_or_app. now left.
  - intros Hin. apply Hnot, in_or_app. now right.
  - now apply NoDup_app_remove_r in Hnd.
  - now apply NoDup_app_remove_l in Hnd.
  - intros r H1 H2. revert H1 H2. clear -Hnd.
    induction (uids kids) as [|a l IH]; simpl in *; [tauto|].
    inversion Hnd as [|? ? Ha Hl]; subst. intros [-> | H1] H2.
    + apply Ha, in_or_app. now right.
    + now apply IH.
Qed.

(** In a document whose elements have distinct identities, inserting
    [child] under the element found by [querySelector] makes [child] the
    first child of what [querySelector] finds afterwards, provided nothing
    in [child] matches the selector. *)
Lemma querySelector_insertFirst p child : 
  first_match p [child] = None ->
  forall d e kids,
    NoDup (uids d) ->
    querySelector p d = Some (Elem e kids) ->
    querySelector p (insertFirst (uid e) child d) = Some (Elem e (child :: kids)).
Proof.
  intros Hchild. unfold insertFirst.
  assert (Hnone : forall d c, querySelector p d = None ->
            querySelector p (map (update_children c (cons child)) d) = None).
  { intros d c H. apply first_match_none. rewrite first_match_update.
    - now apply first_match_none.
    - intros k. now apply first_match_cons. }
  induction d as [|data d IH|e0 k0 d IHk IHd] using forest_ind;
    intros e kids Hnd H.
  - discriminate.
  - rewrite querySelector_text in H. rewrite uids_text in Hnd.
    rewrite update_children_forest_text, querySelector_text. now apply IH.
  - apply NoDup_uids_elem in Hnd. destruct Hnd as (Hk & Hd & Ndk & Ndd & _).
    rewrite querySelector_elem in H. rewrite update_children_forest_elem.
    destruct (p e0) eqn:Hp.
    + injection H as -> ->. rewrite Nat.eqb_refl.
      rewrite querySelector_elem, Hp. reflexivity.
    + destruct (querySelector p k0) as [m|] eqn:Hq.
      * injection H as ->.
        destruct (querySelector_some _ _ _ Hq) as (e' & k' & E & _ & Hin).
        injection E as <- <-.
        destruct (Nat.eqb_spec (uid e0) (uid e)) as [E|_];
          [rewrite E in Hk; contradiction|].
        rewrite querySelector_elem, Hp. now rewrite (IHk e kids Ndk eq_refl).
      * destruct (querySelector_some _ _ _ H) as (e' & k' & E & _ & Hin).
        injection E as <- <-.
        destruct (Nat.eqb_spec (uid e0) (uid e)) as [E|_];
          [rewrite E in Hd; contradiction|].
        rewrite querySelector_elem, Hp, (Hnone _ _ Hq). now apply IHd.
Qed.

(** ** Styles *)

Lemma assoc_assoc_set key v l : assoc key (assoc_set key v l) = Some v.
Proof.
  induction l as [|[k v'] l IH]; simpl.
  - now rewrite ueqb_refl.
  - destruct (ueqb k key) eqn:E; simpl; rewrite E; [reflexivity | exact IH].
Qed.

(** Every element of identity [r] in the forest has [style.prop = v]. *)
Definition styled (r : ref) (prop v : ustring) (d : forest) : Prop :=
  forall e kids,
    In (Elem e kids) (elements d) -> uid e = r -> get_style prop e = Some v.

Lemma setStyle_styled r prop v : forall d, styled r prop v (setStyle r prop v d).
Proof.
  unfold styled, setStyle.
  induction d as [|data d IH|e0 k0 d IHk IHd] using forest_ind;
    intros e kids Hin Hr.
  - contradiction.
  - cbn [map update_element] in Hin. rewrite elements_text in Hin.
    now apply (IH e kids).
  - cbn [map update_element] in Hin. rewrite elements_elem in Hin.
    destruct Hin as [E | Hin].
    + injection E as <- <-. simpl in Hr.
      destruct (Nat.eqb_spec (uid e0) r) as [_|Hne].
      * unfold get_style, set_style. simpl. apply assoc_assoc_set.
      * destruct (Nat.eqb (uid e0) r) eqn:E'; simpl in Hr.
        -- apply Nat.eqb_eq in E'. contradiction.
        -- contradiction.
    + apply in_app_or in Hin. destruct Hin as [Hin | Hin].
      * now apply (IHk e kids).
      * now apply (IHd e kids).
Qed.

(** ** Removal *)

Lemma without_cons r n l :
  without r (n :: l) = if has_uid r n then without r l else n :: without r l.
Proof. unfold without. simpl. now destruct (has_uid r n). Qed.

Lemma remove_not_in r : forall d, ~ In r (uids (remove r d)).
Proof.
  unfold remove.
  induction d as [|data d IH|e k d IHk IHd] using forest_ind.
  - simpl. tauto.
  - cbn [map remove_in]. rewrite without_cons. cbn [has_uid node_matches].
    now rewrite uids_text.
  - cbn [map remove_in]. rewrite without_cons. cbn [has_uid node_matches].
    destruct (Nat.eqb_spec (uid e) r) as [E|Hne]; [exact IHd|].
    rewrite uids_elem. intros [E | Hin]; [contradiction|].
    apply in_app_or in Hin. tauto.
Qed.

(** ** Updates of child lists: fusing, commuting, cancelling *)

Lemma node_uid_update c f n : node_uid (update_children c f n) = node_uid n.
Proof. destruct n as [data|e k]; simpl; [|destruct (Nat.eqb (uid e) c)]; reflexivity. Qed.

Lemma has_uid_update r c f n : has_uid r (update_children c f n) = has_uid r n.
Proof. destruct n as [data|e k]; simpl; [|destruct (Nat.eqb (uid e) c)]; reflexivity. Qed.

Lemma node_matches_update p c f n :
  node_matches p (update_children c f n) = node_matches p n.
Proof. destruct n as [data|e k]; simpl; [|destruct (Nat.eqb (uid e) c)]; reflexivity. Qed.

Lemma is_element_update c f n : is_element (update_children c f n) = is_element n.
Proof. destruct n as [data|e k]; simpl; [|destruct (Nat.eqb (uid e) c)]; reflexivity. Qed.

Lemma update_children_fuse c f g : forall d,
  map (update_children c f) (map (update_children c g) d)
  = map (update_children c (fun k => f (g k))) d.
Proof.
  induction d as [|data d IH|e k d IHk IHd] using forest_ind.
  - reflexivity.
  - rewrite !update_children_forest_text. now rewrite IH.
  - rewrite !update_children_forest_elem.
    destruct (Nat.eqb (uid e) c) eqn:E;
      rewrite update_children_forest_elem; cbn [uid]; rewrite E;
      now rewrite ?IHk, IHd.
Qed.

Lemma update_children_comm b c f g :
  b <> c ->
  (forall k, map (update_children c g) (f k) = f (map (update_children c g) k)) ->
  (forall k, map (update_children b f) (g k) = g (map (update_children b f) k)) ->
  forall d,
    map (update_children b f) (map (update_children c g) d)
    = map (update_children c g) (map (update_children b f) d).
Proof.
  intros Hbc Hf Hg.
  induction d as [|data d IH|e k d IHk IHd] using forest_ind.
  - reflexivity.
  - rewrite !update_children_forest_text. now rewrite IH.
  - rewrite (update_children_forest_elem c), (update_children_forest_elem b).
    destruct (Nat.eqb_spec (uid e) c) as [Ec|Ec];
      destruct (Nat.eqb_spec (uid e) b) as [Eb|Eb]; [congruence | | |];
      rewrite !update_children_forest_elem; cbn [uid].
    + destruct (Nat.eqb_spec (uid e) c); [|contradiction].
      destruct (Nat.eqb_spec (uid e) b); [contradiction|].
      now rewrite Hg, IHd.
    + destruct (Nat.eqb_spec (uid e) c); [contradiction|].
      destruct (Nat.eqb_spec (uid e) b); [|contradiction].
      now rewrite Hf, IHd.
    + destruct (Nat.eqb_spec (uid e) c); [contradiction|].
      destruct (Nat.eqb_spec (uid e) b); [contradiction|].
      now rewrite IHk, IHd.
Qed.

Lemma update_children_id b : forall d,
  map (update_children b (fun k => k)) d = d.
Proof.
  induction d as [|data d IH|e k d IHk IHd] using forest_ind.
  - reflexivity.
  - rewrite update_children_forest_text. now rewrite IH.
  - rewrite update_children_forest_elem, IHk, IHd.
    now destruct (Nat.eqb (uid e) b).
Qed.

(** Two updates agree on a forest when they agree on every child list in
    which the identity [r] does not occur, and [r] is not in the forest. *)
Lemma update_children_ext_fresh r b f g :
  (forall k, ~ In r (uids k) -> f k = g k) ->
  forall d, ~ In r (uids d) ->
    map (update_children b f) d = map (update_children b g) d.
Proof.
  intros Hfg.
  induction d as [|data d IH|e k d IHk IHd] using forest_ind; intros Hr.
  - reflexivity.
  - rewrite !update_children_forest_text. rewrite uids_text in Hr.
    now rewrite IH.
  - rewrite uids_elem in Hr. rewrite !update_children_forest_elem.
    assert (Hk : ~ In r (uids k)).
    { intros H. apply Hr. right. apply in_or_app. now left. }
    assert (Hd : ~ In r (uids d)).
    { intros H. apply Hr. right. apply in_or_app. now right. }
    rewrite (IHd Hd), (IHk Hk), (Hfg k Hk). reflexivity.
Qed.

Lemma update_children_absent b f : forall d,
  ~ In b (uids d) -> map (update_children b f) d = d.
Proof.
  induction d as [|data d IH|e k d IHk IHd] using forest_ind; intros Hb.
  - reflexivity.
  - rewrite update_children_forest_text. rewrite uids_text in Hb.
    now rewrite IH.
  - rewrite uids_elem in Hb. rewrite update_children_forest_elem.
    destruct (Nat.eqb_spec (uid e) b) as [E|_]; [exfalso; apply Hb; now left|].
    rewrite IHk, IHd; [reflexivity | |]; intros H; apply Hb; right;
      apply in_or_app; [now right | now left].
Qed.

Lemma without_app r k1 k2 : without r (k1 ++ k2) = without r k1 ++ without r k2.
Proof. apply filter_app. Qed.

Lemma without_map_update r c g k :
  without r (map (update_children c g) k)
  = map (update_children c g) (without r k).
Proof.
  induction k as [|n k IH]; [reflexivity|].
  cbn [map]. rewrite !without_cons, has_uid_update, IH.
  now destruct (has_uid r n).
Qed.

Lemma uids_cons n d : uids (n :: d) = uids [n] ++ uids d.
Proof. apply (uids_app [n] d). Qed.

Lemma without_fresh r : forall k, ~ In r (uids k) -> without r k = k.
Proof.
  induction k as [|n k IH]; intros Hr; [reflexivity|].
  rewrite uids_cons in Hr. rewrite without_cons.
  assert (Hk : ~ In r (uids k)) by (intros H; apply Hr, in_or_app; now right).
  rewrite (IH Hk). destruct n as [data|e kk]; [reflexivity|].
  cbn [has_uid node_matches].
  destruct (Nat.eqb_spec (uid e) r) as [E|_]; [|reflexivity].
  exfalso. apply Hr, in_or_app. left. rewrite uids_elem. now left.
Qed.

(** Appending a node of fresh identity [r] and then removing the child of
    identity [r] gives back the forest. *)
Lemma removeChild_appendChild b r t : forall d,
  ~ In r (uids d) -> uid t = r ->
  removeChild b r (appendChild b (Elem t []) d) = d.
Proof.
  intros d Hr Ht. unfold removeChild, appendChild.
  rewrite update_children_fuse.
  rewrite (update_children_ext_fresh r b _ (fun k => k)); [|  | exact Hr].
  - apply update_children_id.
  - intros k Hk. rewrite without_app, (without_fresh r k Hk).
    rewrite without_cons. cbn [has_uid node_matches]. rewrite Ht.
    rewrite Nat.eqb_refl. apply app_nil_r.
Qed.

(** The same with the insertion of [child] in between, when neither [b] nor
    [r] occurs in [child]. *)
Lemma removeChild_insertFirst_appendChild b c r t child : forall d,
  ~ In r (uids d) -> uid t = r ->
  ~ In r (uids [child]) -> ~ In b (uids [child]) ->
  removeChild b r (insertFirst c child (appendChild b (Elem t []) d))
  = insertFirst c child d.
Proof.
  intros d Hr Ht Hrc Hbc. unfold removeChild, insertFirst, appendChild.
  destruct (Nat.eq_dec b c) as [<-|Hne].
  - rewrite !update_children_fuse.
    apply (update_children_ext_fresh r); [|exact Hr].
    intros k Hk. rewrite without_cons.
    assert (Hc : has_uid r child = false).
    { destruct child as [data|e kk]; [reflexivity|].
      cbn [has_uid node_matches]. apply Nat.eqb_neq. intros E.
      apply Hrc. rewrite uids_elem. now left. }
    rewrite Hc, without_app, (without_fresh r k Hk), without_cons.
    cbn [has_uid node_matches]. rewrite Ht, Nat.eqb_refl.
    now rewrite app_nil_r.
  - rewrite update_children_comm; [| exact Hne | |].
    + f_equal. now apply (removeChild_appendChild b r t).
    + intros k. symmetry. apply without_map_update.
    + intros k. cbn [map]. f_equal.
      assert (H := update_children_absent b (without r) [child] Hbc).
      cbn [map] in H. now injection H.
Qed.

(** ** Looking an element up by identity *)

Lemma lookup_text b data d : lookup b (Text data :: d) = lookup b d.
Proof. reflexivity. Qed.

Lemma lookup_elem b e k d :
  lookup b (Elem e k :: d) =
  if Nat.eqb (uid e) b then Some (Elem e k)
  else match lookup b k with Some n => Some n | None => lookup b d end.
Proof. unfold lookup. apply querySelector_elem. Qed.

Lemma lookup_none_iff b : forall d, lookup b d = None <-> ~ In b (uids d).
Proof.
  induction d as [|data d IH|e k d IHk IHd] using forest_ind.
  - simpl. tauto.
  - rewrite lookup_text, uids_text. exact IH.
  - rewrite lookup_elem, uids_elem.
    destruct (Nat.eqb_spec (uid e) b) as [E|Hne].
    + split; [discriminate|]. intros H. exfalso. apply H. now left.
    + destruct (lookup b k) as [n|].
      * split; [discriminate|]. intros H. exfalso.
        assert (Hk : ~ In b (uids k)).
        { intros Hin. apply H. right. apply in_or_app. now left. }
        apply IHk in Hk. discriminate.
      * rewrite IHd. split.
        -- intros Hd [E | Hin]; [contradiction|].
           apply in_app_or in Hin. destruct Hin as [Hin | Hin]; [|contradiction].
           now apply (proj1 IHk eq_refl).
        -- intros H Hin. apply H. right. apply in_or_app. now right.
Qed.

Lemma lookup_update_same b f : forall d e k,
  lookup b d = Some (Elem e k) ->
  lookup b (map (update_children b f) d) = Some (Elem e (f k)).
Proof.
  induction d as [|data d IH|e0 k0 d IHk IHd] using forest_ind; intros e k H.
  - discriminate.
  - rewrite update_children_forest_text, lookup_text. now apply IH.
  - rewrite lookup_elem in H. rewrite update_children_forest_elem.
    destruct (Nat.eqb (uid e0) b) eqn:E.
    + injection H as <- <-. rewrite lookup_elem. cbn [uid]. now rewrite E.
    + rewrite lookup_elem. cbn [uid]. rewrite E.
      destruct (lookup b k0) as [n|] eqn:Hk.
      * injection H as ->. now rewrite (IHk e k eq_refl).
      * assert (Hk' : lookup b k0 = None) by exact Hk.
        apply lookup_none_iff in Hk'.
        rewrite (update_children_absent b f k0 Hk'), Hk. now apply IHd.
Qed.

(** The identities of the children of a node. *)
Definition child_refs (n : node) : list (option ref) :=
  map node_uid (children n).

(** An update at another element leaves the child identities of [b] as they
    are, provided that it does not disturb the lookup of [b] in the child
    list it rewrites. *)
Lemma lookup_update_other b c g :
  b <> c ->
  (forall k, lookup b (g k) = lookup b k) ->
  forall d,
    option_map child_refs (lookup b (map (update_children c g) d))
    = option_map child_refs (lookup b d).
Proof.
  intros Hbc Hg.
  induction d as [|data d IH|e k d IHk IHd] using forest_ind.
  - reflexivity.
  - rewrite update_children_forest_text, !lookup_text. exact IH.
  - rewrite update_children_forest_elem.
    destruct (Nat.eqb_spec (uid e) c) as [Ec|Ec]; rewrite !lookup_elem;
      cbn [uid].
    + destruct (Nat.eqb_spec (uid e) b) as [Eb|Eb]; [congruence|].
      rewrite Hg. destruct (lookup b k); [reflexivity | exact IHd].
    + destruct (Nat.eqb_spec (uid e) b) as [Eb|Eb].
      * cbn. unfold child_refs. cbn. rewrite map_map. f_equal.
        apply map_ext. intros n. apply node_uid_update.
      * destruct (lookup b (map (update_children c g) k)) as [n1|],
                 (lookup b k) as [n2|]; cbn in IHk; try discriminate.
        -- exact IHk.
        -- exact IHd.
Qed.

(** ** document.body *)

Lemma find_map {A} (p : A -> bool) (F : A -> A) l :
  (forall a, p (F a) = p a) -> find p (map F l) = option_map F (find p l).
Proof.
  intros H. induction l as [|a l IH]; [reflexivity|].
  simpl. rewrite H. destruct (p a); [reflexivity | exact IH].
Qed.

Definition body_ref (d : forest) : option ref :=
  match body d with
  | Some (Elem e _) => Some (uid e)
  | _ => None
  end.

(** An update of child lists that keeps which child is the first [body]
    keeps [document.body]. *)
Lemma body_ref_update c g :
  (forall k, option_map node_uid (find (node_matches is_body) (g k))
             = option_map node_uid (find (node_matches is_body) k)) ->
  forall d, body_ref (map (update_children c g) d) = body_ref d.
Proof.
  intros Hg d. unfold body_ref, body.
  rewrite find_map by apply is_element_update.
  destruct (find is_element d) as [[data|h hk]|]; [reflexivity | | reflexivity].
  cbn [option_map update_children].
  assert (E : forall n1 n2 : option node,
             option_map node_uid n1 = option_map node_uid n2 ->
             match n1 with Some (Elem e _) => Some (uid e) | _ => None end
             = match n2 with Some (Elem e _) => Some (uid e) | _ => None end).
  { intros [[?|? ?]|] [[?|? ?]|]; cbn; congruence. }
  destruct (Nat.eqb (uid h) c); cbn [localName];
    destruct (ueqb (localName h) (u "html")); try reflexivity; apply E.
  - apply Hg.
  - rewrite find_map by apply node_matches_update.
    destruct (find (node_matches is_body) hk); [|reflexivity].
    cbn. now rewrite node_uid_update.
Qed.

Lemma in_root_uids e k : forall d, In (Elem e k) d -> In (uid e) (uids d).
Proof.
  induction d as [|n d IH]; intros H; [contradiction|].
  rewrite uids_cons. apply in_or_app. destruct H as [-> | H].
  - left. rewrite uids_elem. now left.
  - right. now apply IH.
Qed.

Lemma in_child_uids h hk x : forall d,
  In (Elem h hk) d -> In x (uids hk) -> In x (uids d).
Proof.
  induction d as [|n d IH]; intros H Hx; [contradiction|].
  rewrite uids_cons. apply in_or_app. destruct H as [-> | H].
  - left. rewrite uids_elem. right. apply in_or_app. now left.
  - right. now apply IH.
Qed.

Lemma NoDup_root_child h hk : forall d,
  NoDup (uids d) -> In (Elem h hk) d -> ~ In (uid h) (uids hk).
Proof.
  induction d as [|n d IH]; intros Hnd H; [contradiction|].
  rewrite uids_cons in Hnd. destruct H as [-> | H].
  - apply NoDup_app_remove_r in Hnd. rewrite uids_elem in Hnd.
    inversion Hnd as [|? ? Hnot _]; subst. intros Hin. apply Hnot.
    apply in_or_app. now left.
  - apply NoDup_app_remove_l in Hnd. now apply IH.
Qed.

Lemma body_parts d e k :
  body d = Some (Elem e k) ->
  exists h hk,
    find is_element d = Some (Elem h hk) /\
    ueqb (localName h) (u "html") = true /\
    find (node_matches is_body) hk = Some (Elem e k) /\
    In (Elem h hk) d /\ In (Elem e k) hk.
Proof.
  unfold body. destruct (find is_element d) as [[data|h hk]|] eqn:F;
    try discriminate.
  destruct (ueqb (localName h) (u "html")) eqn:Eh; [|discriminate].
  intros H. exists h, hk. repeat split; try assumption.
  - now apply find_some in F.
  - now apply find_some in H.
Qed.

Lemma body_in_uids d e k : body d = Some (Elem e k) -> In (uid e) (uids d).
Proof.
  intros H. destruct (body_parts _ _ _ H) as (h & hk & _ & _ & _ & Hh & He).
  apply (in_child_uids h hk _ d Hh). now apply (in_root_uids e k).
Qed.

(** In a document with distinct identities, [appendChild] on the body makes
    the new node the last child of [document.body]. *)
Lemma body_appendChild d e k child :
  NoDup (uids d) -> body d = Some (Elem e k) ->
  body (appendChild (uid e) child d) = Some (Elem e (k ++ [child])).
Proof.
  intros Hnd H.
  destruct (body_parts _ _ _ H) as (h & hk & F & Eh & Fb & Hh & He).
  assert (Hne : Nat.eqb (uid h) (uid e) = false).
  { apply Nat.eqb_neq. intros E.
    apply (NoDup_root_child h hk d Hnd Hh). rewrite E.
    now apply (in_root_uids e k). }
  unfold body, appendChild. rewrite find_map by apply is_element_update.
  rewrite F. cbn [option_map update_children]. rewrite Hne.
  cbn [localName]. rewrite Eh.
  rewrite find_map by apply node_matches_update. rewrite Fb.
  cbn [option_map update_children]. now rewrite Nat.eqb_refl.
Qed.

(** An update of the children of [c] changes [document.body] only through
    its own update, when the documents has distinct identities and the
    update keeps which child is the first [body]. *)
Lemma body_update d e k c g :
  NoDup (uids d) -> body d = Some (Elem e k) ->
  (forall hk, find (node_matches is_body) (g hk) = find (node_matches is_body) hk) ->
  body (map (update_children c g) d)
  = Some (if Nat.eqb (uid e) c then Elem e (g k)
          else Elem e (map (update_children c g) k)).
Proof.
  intros Hnd H Hg.
  destruct (body_parts _ _ _ H) as (h & hk & F & Eh & Fb & Hh & He).
  pose proof (NoDup_root_child h hk d Hnd Hh) as Hroot.
  unfold body. rewrite find_map by apply is_element_update.
  rewrite F. cbn [option_map update_children].
  destruct (Nat.eqb_spec (uid h) c) as [Ec|Ec]; cbn [localName]; rewrite Eh.
  - rewrite Hg, Fb. f_equal.
    assert (Hk : ~ In c (uids k)).
    { intros Hin. apply Hroot. rewrite Ec.
      now apply (in_child_uids e k c hk He). }
    destruct (Nat.eqb_spec (uid e) c) as [E|_].
    + exfalso. apply Hroot. rewrite Ec, <- E. now apply (in_root_uids e k).
    + now rewrite (update_children_absent c g k Hk).
  - rewrite find_map by apply node_matches_update. rewrite Fb. reflexivity.
Qed.

Lemma uids_insertFirst c child x : forall d,
  In x (uids (insertFirst c child d)) -> In x (uids d) \/ In x (uids [child]).
Proof.
  unfold insertFirst.
  induction d as [|data d IH|e k d IHk IHd] using forest_ind; intros H.
  - contradiction.
  - rewrite update_children_forest_text, uids_text in H. rewrite uids_text.
    now apply IH.
  - rewrite update_children_forest_elem in H. rewrite uids_elem.
    destruct (Nat.eqb (uid e) c); rewrite uids_elem in H; cbn [uid] in H;
      destruct H as [E | H]; try (left; now left); apply in_app_or in H;
      destruct H as [H | H].
    + rewrite uids_cons in H. apply in_app_or in H. destruct H as [H | H].
      * now right.
      * left. right. apply in_or_app. now left.
    + destruct (IHd H) as [H' | H']; [|now right].
      left. right. apply in_or_app. now right.
    + destruct (IHk H) as [H' | H']; [|now right].
      left. right. apply in_or_app. now left.
    + destruct (IHd H) as [H' | H']; [|now right].
      left. right. apply in_or_app. now right.
Qed.

Lemma lookup_skip b child k :
  ~ In b (uids [child]) -> lookup b (child :: k) = lookup b k.
Proof.
  intros H. destruct child as [data|e kk]; [reflexivity|].
  rewrite uids_elem in H. rewrite lookup_elem.
  destruct (Nat.eqb_spec (uid e) b) as [E|_]; [exfalso; apply H; now left|].
  assert (Hk : lookup b kk = None).
  { apply lookup_none_iff. intros Hin. apply H. right. apply in_or_app.
    now left. }
  now rewrite Hk.
Qed.

(** ** Element objects that leave the document *)

Lemma orphans_none keep : forall d,
  incl (uids d) keep -> flat_map (orphans keep) d = [].
Proof.
  induction d as [|data d IH|e k d IHk IHd] using forest_ind; intros H.
  - reflexivity.
  - rewrite uids_text in H. cbn [flat_map orphans app]. now apply IH.
  - rewrite uids_elem in H. cbn [flat_map orphans].
    assert (He : existsb (Nat.eqb (uid e)) keep = true).
    { apply existsb_exists. exists (uid e). split; [|apply Nat.eqb_refl].
      apply H. now left. }
    rewrite He, IHk, IHd; [reflexivity | |]; intros x Hx; apply H; right;
      apply in_or_app; [now right | now left].
Qed.

Lemma orphans_keep keep r : forall d,
  In r (uids d) -> In r keep \/ In r (uids (flat_map (orphans keep) d)).
Proof.
  induction d as [|data d IH|e k d IHk IHd] using forest_ind; intros H.
  - contradiction.
  - rewrite uids_text in H. cbn [flat_map orphans app]. now apply IH.
  - rewrite uids_elem in H. cbn [flat_map orphans]. rewrite uids_app.
    destruct (existsb (Nat.eqb (uid e)) keep) eqn:He.
    + apply existsb_exists in He. destruct He as (y & Hy & E).
      apply Nat.eqb_eq in E. subst y.
      destruct H as [<- | H]; [now left|].
      apply in_app_or in H. destruct H as [H | H].
      * destruct (IHk H) as [H' | H']; [now left|].
        right. apply in_or_app. now left.
      * destruct (IHd H) as [H' | H']; [now left|].
        right. apply in_or_app. now right.
    + destruct H as [<- | H].
      * right. apply in_or_app. left. rewrite uids_elem. now left.
      * apply in_app_or in H. destruct H as [H | H].
        -- right. apply in_or_app. left. rewrite uids_elem. right.
           apply in_or_app. now left.
        -- destruct (IHd H) as [H' | H']; [now left|].
           right. apply in_or_app. now right.
Qed.

Lemma uids_setStyle r prop v : forall d, uids (setStyle r prop v d) = uids d.
Proof.
  unfold setStyle.
  induction d as [|data d IH|e k d IHk IHd] using forest_ind.
  - reflexivity.
  - cbn [map update_element]. now rewrite !uids_text.
  - cbn [map update_element]. rewrite !uids_elem, IHk, IHd.
    now destruct (Nat.eqb (uid e) r).
Qed.

Lemma extracted_text r data d : extracted r (Text data :: d) = extracted r d.
Proof. reflexivity. Qed.

Lemma extracted_elem r e k d :
  extracted r (Elem e k :: d) =
  (if Nat.eqb (uid e) r then [Elem e k] else [])
  ++ extracted r k ++ extracted r d.
Proof.
  unfold extracted, querySelectorAll. rewrite elements_elem.
  cbn [filter node_matches]. rewrite filter_app.
  now destruct (Nat.eqb (uid e) r).
Qed.

(** What [remove] takes out of a forest is in what [extracted] returns. *)
Lemma remove_or_extracted r x : forall d,
  In x (uids d) -> In x (uids (remove r d)) \/ In x (uids (extracted r d)).
Proof.
  unfold remove.
  induction d as [|data d IH|e k d IHk IHd] using forest_ind; intros H.
  - contradiction.
  - cbn [map remove_in]. rewrite without_cons. cbn [has_uid node_matches].
    rewrite uids_text in *. rewrite extracted_text. now apply IH.
  - cbn [map remove_in]. rewrite without_cons. cbn [has_uid node_matches].
    rewrite extracted_elem, !uids_app. rewrite uids_elem in H.
    destruct (Nat.eqb (uid e) r).
    + destruct H as [H | H].
      * right. apply in_or_app. left. rewrite uids_elem. now left.
      * apply in_app_or in H. destruct H as [H | H].
        -- right. apply in_or_app. left. rewrite uids_elem. right.
           apply in_or_app. now left.
        -- destruct (IHd H) as [H' | H']; [now left|].
           right. apply in_or_app. right. apply in_or_app. now right.
    + rewrite uids_elem. destruct H as [H | H]; [left; now left|].
      apply in_app_or in H. destruct H as [H | H].
      * destruct (IHk H) as [H' | H'].
        -- left. right. apply in_or_app. now left.
        -- right. apply in_or_app. right. apply in_or_app. now left.
      * destruct (IHd H) as [H' | H'].
        -- left. right. apply in_or_app. now right.
        -- right. apply in_or_app. right. apply in_or_app. now right.
Qed.

(** A child inserted under an element of the forest is in the forest. *)
Lemma in_uids_insertFirst c child x : forall d,
  In c (uids d) -> In x (uids [child]) -> In x (uids (insertFirst c child d)).
Proof.
  unfold insertFirst.
  induction d as [|data d IH|e k d IHk IHd] using forest_ind; intros Hc Hx.
  - contradiction.
  - rewrite update_children_forest_text, uids_text. rewrite uids_text in Hc.
    now apply IH.
  - rewrite update_children_forest_elem. rewrite uids_elem in Hc.
    destruct (Nat.eqb_spec (uid e) c) as [E|Hne]; rewrite uids_elem.
    + right. apply in_or_app. left. rewrite uids_cons. apply in_or_app.
      now left.
    + destruct Hc as [Hc | Hc]; [contradiction|].
      apply in_app_or in Hc. right. apply in_or_app.
      destruct Hc as [Hc | Hc]; [left; now apply IHk | right; now apply IHd].
Qed.

Lemma elements_app d1 d2 : elements (d1 ++ d2) = elements d1 ++ elements d2.
Proof. unfold elements. apply flat_map_app. Qed.

Lemma lookup_app b d1 d2 :
  lookup b (d1 ++ d2) =
  match lookup b d1 with Some n => Some n | None => lookup b d2 end.
Proof. unfold lookup, querySelector. now rewrite elements_app, find_app. Qed.

(** A new child appended to [b] is found under its own identity. *)
Lemma lookup_appendChild b r e kk : forall d,
  uid e = r -> ~ In r (uids d) -> In b (uids d) ->
  lookup r (appendChild b (Elem e kk) d) = Some (Elem e kk).
Proof.
  intros d Hr. unfold appendChild.
  induction d as [|data d IH|e0 k0 d IHk IHd] using forest_ind;
    intros Hnot Hb.
  - contradiction.
  - rewrite update_children_forest_text, lookup_text.
    rewrite uids_text in Hnot, Hb. now apply IH.
  - rewrite uids_elem in Hnot, Hb. rewrite update_children_forest_elem.
    assert (Hne : Nat.eqb (uid e0) r = false).
    { apply Nat.eqb_neq. intros E. apply Hnot. now left. }
    assert (Hk : ~ In r (uids k0)).
    { intros Hin. apply Hnot. right. apply in_or_app. now left. }
    assert (Hd : ~ In r (uids d)).
    { intros Hin. apply Hnot. right. apply in_or_app. now right. }
    destruct (Nat.eqb_spec (uid e0) b) as [E|Hneb]; rewrite lookup_elem;
      cbn [uid]; rewrite Hne.
    + rewrite lookup_app. rewrite (proj2 (lookup_none_iff r k0) Hk).
      rewrite lookup_elem. now rewrite (proj2 (Nat.eqb_eq _ _) Hr).
    + destruct Hb as [Hb | Hb]; [contradiction|].
      apply in_app_or in Hb.
      destruct (in_dec Nat.eq_dec b (uids k0)) as [Hbk | Hbk].
      * now rewrite (IHk Hk Hbk).
      * rewrite (update_children_absent b _ k0 Hbk).
        rewrite (proj2 (lookup_none_iff r k0) Hk).
        destruct Hb as [Hb | Hb]; [contradiction|]. now apply IHd.
Qed.

(** ** Counting the elements a selector matches *)

Definition matches (p : element -> bool) (d : forest) : nat :=
  List.length (querySelectorAll p d).





End DomFacts.

(* ===================================================================== *)
(** * Properties of the page script *)
(* ===================================================================== *)

Module PageFacts.
Import Dom Browser Validator Page DomFacts.

Definition container_selector : element -> bool := has_class (u "container").

Definition type_or_default (type : option ustring) : ustring :=
  match type with Some t => t | None => u "info" end.

(** The banner that [showAlert] builds in world [w]. *)
Definition banner_of (w : world) (message : ustring) (type : option ustring)
  : node :=
  banner (next_uid w) (S (next_uid w)) (S (S (next_uid w))) message
         (type_or_default type).

(** ** showAlert, step by step *)

Ltac world_simpl :=
  cbn [document detached next_uid clock timers console clipboard
       defaultPrevented with_document with_detached with_next_uid with_clock
       with_timers with_console with_clipboard with_defaultPrevented
       fst snd].

Ltac world_simpl_in H :=
  cbn [document detached next_uid clock timers console clipboard
       defaultPrevented with_document with_detached with_next_uid with_clock
       with_timers with_console with_clipboard with_defaultPrevented
       fst snd] in H.

Ltac run_showAlert :=
  unfold exec, showAlert, bind, fresh, gets, modify, setTimeout, ret,
    container_selector, banner_of, type_or_default;
  world_simpl;
  match goal with
  | |- context [querySelector ?p (document ?w)] =>
      destruct (querySelector p (document w)) as [[?|? ?]|]
  end; world_simpl; auto.

Lemma showAlert_completes message type w :
  showAlert message type w = (Normal tt, exec (showAlert message type) w).
Proof. run_showAlert. Qed.

Lemma showAlert_document message type w :
  document (exec (showAlert message type) w) =
  match querySelector container_selector (document w) with
  | Some (Elem c _) => insertFirst (uid c) (banner_of w message type) (document w)
  | _ => document w
  end.
Proof. run_showAlert. Qed.

Lemma showAlert_detached message type w :
  detached (exec (showAlert message type) w) =
  match querySelector container_selector (document w) with
  | Some (Elem c _) => detached w
  | _ => banner_of w message type :: detached w
  end.
Proof. run_showAlert. Qed.

Lemma showAlert_timers message type w :
  timers (exec (showAlert message type) w) =
  timers w ++ [((clock w + 5000)%Z, Dismiss (next_uid w))].
Proof. run_showAlert. Qed.

Lemma showAlert_frame message type w :
  let w' := exec (showAlert message type) w in
  next_uid w' = S (S (S (next_uid w))) /\ clock w' = clock w /\
  console w' = console w /\ clipboard w' = clipboard w /\
  defaultPrevented w' = defaultPrevented w.
Proof. run_showAlert. Qed.

(** ** The banner *)

Definition banner_element (n : node) : option element :=
  match n with Elem e _ => Some e | Text _ => None end.

Lemma banner_classList r ri rb message type :
  option_map classList (banner_element (banner r ri rb message type)) =
  Some [u "alert";
        if ueqb type (u "error") then u "alert-danger" else u "alert-success";
        u "alert-dismissible"; u "fade"; u "show"].
Proof.
  unfold banner, alert_class.
  destruct (ueqb type (u "error")); reflexivity.
Qed.

Lemma banner_no_container r ri rb message type :
  first_match container_selector [banner r ri rb message type] = None.
Proof.
  unfold banner, alert_class, icon_class.
  destruct (ueqb type (u "error")); reflexivity.
Qed.

Lemma banner_has_dismiss_button r ri rb message type :
  has_class (u "alert") (new_element r (u "div") [(u "class", alert_class type)])
  = true /\
  has_dismiss_button (banner r ri rb message type) = true.
Proof.
  unfold banner, alert_class, icon_class.
  destruct (ueqb type (u "error")); split; reflexivity.
Qed.

(** C7. For every message and severity, the banner built by [showAlert] has
    the class [alert-danger] when the severity is ['error'] and
    [alert-success] for any other severity, the default ['info'] included;
    when the document has an element of class [container], the banner
    becomes the first child of the first such element, and otherwise the
    document is left as it was. *)
Theorem showAlert_prepends_banner
        (w : world) (message : ustring) (type : option ustring) :
  let w' := exec (showAlert message type) w in
  let alertContainer := banner_of w message type in
  option_map classList (banner_element alertContainer) =
    Some [u "alert";
          if ueqb (type_or_default type) (u "error")
          then u "alert-danger" else u "alert-success";
          u "alert-dismissible"; u "fade"; u "show"] /\
  (forall c kids,
     NoDup (uids (document w)) ->
     querySelector container_selector (document w) = Some (Elem c kids) ->
     querySelector container_selector (document w')
     = Some (Elem c (alertContainer :: kids))) /\
  (querySelector container_selector (document w) = None ->
   document w' = document w /\ detached w' = alertContainer :: detached w).
Proof.
  cbv zeta. split; [apply banner_classList|]. split.
  - intros c kids Hnd Hq. rewrite showAlert_document, Hq.
    apply querySelector_insertFirst; [apply banner_no_container | | ];
      assumption.
  - intros Hq. rewrite showAlert_document, showAlert_detached, Hq. auto.
Qed.

Lemma showAlert_prepends_banner_witness :
  let w := sample_world true in
  NoDup (uids (document w)) /\
  exists c kids,
    querySelector container_selector (document w) = Some (Elem c kids) /\
    querySelector container_selector
      (document (exec (showAlert msg_copied None) w))
    = Some (Elem c (banner_of w msg_copied None :: kids)).
Proof.
  cbv zeta.
  assert (Hnd : NoDup (uids (document (sample_world true)))).
  { vm_compute. repeat constructor; simpl; intuition discriminate. }
  split; [exact Hnd|].
  eexists. eexists. split; [reflexivity|].
  apply (showAlert_prepends_banner (sample_world true) msg_copied None);
    [exact Hnd | reflexivity].
Defined.

(** ** The submit listeners *)

(** The world after the listener has cancelled the event and shown one
    error alert with [msg]. *)
Definition blocked_with (msg : ustring) (w : world) : world :=
  exec (showAlert msg (Some (u "error"))) (with_defaultPrevented true w).

Lemma blocked_with_prevented msg w :
  defaultPrevented (blocked_with msg w) = true /\
  timers (blocked_with msg w)
  = timers w ++ [((clock w + 5000)%Z, Dismiss (next_uid w))].
Proof.
  unfold blocked_with. split.
  - now destruct (showAlert_frame msg (Some (u "error"))
                    (with_defaultPrevented true w)) as (_ & _ & _ & _ & ->).
  - now rewrite showAlert_timers.
Qed.

Lemma truthy_false_iff s : truthy s = false <-> s = [].
Proof. destruct s; simpl; split; congruence. Qed.

Lemma analyzeSubmit_cases value w :
  analyzeSubmit value w =
  if negb (truthy (trim value)) then
    (Normal tt, blocked_with msg_missing_url w)
  else if negb (isValidYouTubeUrl (trim value)) then
    (Normal tt, blocked_with msg_invalid_url w)
  else (Normal tt, w).
Proof.
  unfold analyzeSubmit, blocked_with.
  destruct (negb (truthy (trim value))).
  - unfold bind, preventDefault, modify. now rewrite showAlert_completes.
  - destruct (negb (isValidYouTubeUrl (trim value))); [|reflexivity].
    unfold bind, preventDefault, modify. now rewrite showAlert_completes.
Qed.

Lemma downloadSubmit_cases w :
  downloadSubmit w =
  match querySelector quality_checked (document w) with
  | None => (Normal tt, blocked_with msg_missing_quality w)
  | Some _ => (Normal tt, w)
  end.
Proof.
  unfold downloadSubmit, blocked_with, bind, gets.
  destruct (querySelector quality_checked (document w)); [reflexivity|].
  unfold preventDefault, modify. now rewrite showAlert_completes.
Qed.



(** ** Alerts on the page *)

(** The number of alerts in the document. *)
Definition alerts_shown (w : world) : nat :=
  matches (has_class (u "alert")) (document w).





(** The selector of the download listener asks for an [input] named
    [quality] in the [:checked] state; a radio button is such an input
    whose [type] is [radio]. *)
Definition radio_quality_checked (e : element) : bool :=
  quality_checked e &&
  match getAttribute (u "type") e with
  | Some t => ueqb t (u "radio")
  | None => false
  end.




(** A page whose only input named [quality] is a checked check box. *)
Definition checkbox_page : world :=
  mkWorld
    [ el 0 "html" ""
        [ el 1 "body" "container"
            [ el 2 "form" ""
                [ Elem (mkElement 3 (u "input")
                          [(u "type", u "checkbox"); (u "name", u "quality")]
                          true [] []) [] ] ] ] ]
    [] 4 0 [] [] None false.

(** A page without an element of class [container]. *)
Definition plain_page : world :=
  mkWorld [ el 0 "html" "" [ el 1 "body" "" [ el 2 "form" "" [] ] ] ]
          [] 3 0 [] [] None false.

(** As the claim is worded, three cases go otherwise. A value that fails
    [isValidYouTubeUrl] as it stands, for its leading space, is submitted
    without an alert. With no radio button named [quality] checked, a
    checked check box of that name lets the download form be submitted. On
    a page without a container the event is cancelled and no alert comes
    into the document. *)
Lemma submit_listeners_as_worded :
  (isValidYouTubeUrl (u " youtu.be/dQw4w9WgXcQ") = false /\
   analyzeSubmit (u " youtu.be/dQw4w9WgXcQ") (sample_world false)
   = (Normal tt, sample_world false)) /\
  (querySelector radio_quality_checked (document checkbox_page) = None /\
   downloadSubmit checkbox_page = (Normal tt, checkbox_page)) /\
  (isValidYouTubeUrl [] = false /\
   exists w', analyzeSubmit [] plain_page = (Normal tt, w') /\
              defaultPrevented w' = true /\
              alerts_shown w' = alerts_shown plain_page).
Proof.
  split; [split; reflexivity|]. split; [split; reflexivity|].
  split; [reflexivity|]. exists (blocked_with msg_missing_url plain_page).
  split; [reflexivity|]. split; reflexivity.
Qed.

(** C10. The analyze listener trims the field's value before both checks. A
    value made only of white space is blocked with the missing-URL alert,
    which is not the invalid-URL alert; for any other value the validator
    decides on the trimmed string; white space around a value never changes
    what the listener does, so a valid URL with white space around it is
    accepted. *)
Theorem analyzeSubmit_trims (value : ustring) (w : world) :
  (forallb is_space value = true ->
   analyzeSubmit value w = (Normal tt, blocked_with msg_missing_url w)) /\
  msg_missing_url <> msg_invalid_url /\
  (forallb is_space value = false ->
   analyzeSubmit value w =
   if isValidYouTubeUrl (trim value) then (Normal tt, w)
   else (Normal tt, blocked_with msg_invalid_url w)) /\
  (forall ws1 ws2,
     forallb is_space ws1 = true -> forallb is_space ws2 = true ->
     analyzeSubmit (ws1 ++ value ++ ws2) w = analyzeSubmit value w) /\
  (forall ws1 ws2,
     forallb is_space ws1 = true -> forallb is_space ws2 = true ->
     trimmed value -> isValidYouTubeUrl value = true ->
     analyzeSubmit (ws1 ++ value ++ ws2) w = (Normal tt, w)).
Proof.
  split; [|split; [|split; [|split]]].
  - intros H. rewrite analyzeSubmit_cases, (trim_all_space _ H). reflexivity.
  - discriminate.
  - intros H. rewrite analyzeSubmit_cases.
    destruct (truthy (trim value)) eqn:T.
    + cbn. now destruct (isValidYouTubeUrl (trim value)).
    + apply truthy_false_iff, trim_nil_iff in T. congruence.
  - intros ws1 ws2 H1 H2. rewrite !analyzeSubmit_cases.
    now rewrite trim_padding.
  - intros ws1 ws2 H1 H2 Ht Hv. rewrite analyzeSubmit_cases.
    rewrite trim_padding by assumption. rewrite (trim_trimmed _ Ht), Hv.
    destruct Ht as (c & s' & -> & _). reflexivity.
Qed.

Lemma analyzeSubmit_trims_witness :
  analyzeSubmit (u "  ") (sample_world false)
  = (Normal tt, blocked_with msg_missing_url (sample_world false)) /\
  analyzeSubmit (u "  " ++ u "https://youtu.be/dQw4w9WgXcQ" ++ [9; 10]%N)
                (sample_world false)
  = (Normal tt, sample_world false).
Proof.
  split.
  - apply (analyzeSubmit_trims (u "  ") (sample_world false)). reflexivity.
  - apply (analyzeSubmit_trims (u "https://youtu.be/dQw4w9WgXcQ")
             (sample_world false)); try reflexivity.
    eexists. eexists. split; [reflexivity|]. split; reflexivity.
Defined.

(** ** Timers *)

Local Open Scope Z_scope.

Lemma world_eta w :
  mkWorld (document w) (detached w) (next_uid w) (clock w) (timers w)
          (console w) (clipboard w) (defaultPrevented w) = w.
Proof. now destruct w. Qed.

Lemma pop_earliest_spec : forall l x rest,
  pop_earliest l = Some (x, rest) ->
  In x l /\ (forall y, In y l -> fst x <= fst y) /\
  (forall y, In y l -> y = x \/ In y rest) /\
  (forall y, In y rest -> In y l).
Proof.
  induction l as [|a l IH]; intros x rest H; simpl in H; [discriminate|].
  destruct (pop_earliest l) as [[y r]|] eqn:E.
  - destruct (IH y r eq_refl) as (Hin & Hmin & Hsplit & Hrest).
    destruct (Z.ltb_spec (fst y) (fst a)) as [Hlt|Hge];
      injection H as <- <-; simpl.
    + repeat split.
      * now right.
      * intros z [<- | Hz]; [lia | now apply Hmin].
      * intros z [<- | Hz]; [right; now left|].
        destruct (Hsplit z Hz); [now left | right; now right].
      * intros z [<- | Hz]; [now left | right; now apply Hrest].
    + repeat split.
      * now left.
      * intros z [<- | Hz]; [lia|]. specialize (Hmin z Hz). lia.
      * intros z [<- | Hz]; [now left | now right].
      * intros z Hz. now right.
  - injection H as <- <-. destruct l as [|b l].
    + repeat split; simpl; try tauto.
      * intros z [<- | []]. lia.
      * intros z [<- | []]. now left.
    + simpl in E. destruct (pop_earliest l) as [[y r]|];
        [destruct (fst y <? fst b)|]; discriminate.
Qed.

Lemma pop_earliest_progress l : l <> [] -> pop_earliest l <> None.
Proof.
  destruct l as [|a l]; [congruence|]. intros _. simpl.
  destruct (pop_earliest l) as [[y r]|]; [destruct (fst y <? fst a)|];
    discriminate.
Qed.

(** The world in which the callback of a popped timer starts. *)
Definition at_due (due : Z) (rest : list (Z * callback)) (w : world) : world :=
  with_clock (Z.max (clock w) due) (with_timers rest w).

Lemma tick_spec w w' :
  tick w = Some w' ->
  exists due t rest,
    pop_earliest (timers w) = Some ((due, t), rest) /\
    w' = exec (run_callback t) (at_due due rest w).
Proof.
  unfold tick. destruct (pop_earliest (timers w)) as [[[due t] rest]|];
    [|discriminate].
  intros H. injection H as <-. now exists due, t, rest.
Qed.

Lemma run_callback_frame t w :
  let w' := exec (run_callback t) w in
  clock w' = clock w /\
  (forall x, In x (timers w) -> In x (timers w')) /\
  (forall x, In x (timers w') -> In x (timers w) \/ fst x = clock w + 300).
Proof.
  destruct t as [r|r]; unfold exec, run_callback, bind, modify, setTimeout;
    world_simpl; repeat split; auto.
  - intros x Hx. apply in_or_app. now left.
  - intros x Hx. apply in_app_or in Hx. destruct Hx as [Hx | [<- | []]]; auto.
Qed.

Lemma run_callback_Dismiss r w :
  let w' := exec (run_callback (Dismiss r)) w in
  styled r (u "opacity") (u "0") (document w') /\
  styled r (u "opacity") (u "0") (detached w') /\
  timers w' = timers w ++ [(clock w + 300, Remove r)].
Proof.
  unfold exec, run_callback, bind, modify, setTimeout. world_simpl.
  repeat split; apply setStyle_styled.
Qed.

Lemma run_callback_Remove r w :
  let w' := exec (run_callback (Remove r)) w in
  ~ In r (uids (document w')) /\ timers w' = timers w.
Proof.
  unfold exec, run_callback, modify. world_simpl.
  split; [apply remove_not_in | reflexivity].
Qed.

(** One turn of the event loop, seen from a pending timer [x]: the world
    stays on time, and either [x] is still pending or it has just fired, at
    its due time. *)
Lemma tick_pending w w' x :
  on_time w -> In x (timers w) -> tick w = Some w' ->
  on_time w' /\
  (In x (timers w') \/
   exists rest, clock w' = fst x /\
                w' = exec (run_callback (snd x))
                          (with_clock (fst x) (with_timers rest w))).
Proof.
  intros Hon Hin Htick.
  destruct (tick_spec _ _ Htick) as (due & t & rest & Hpop & ->).
  destruct (pop_earliest_spec _ _ _ Hpop) as (Hp & Hmin & Hsplit & Hrest).
  assert (Hdue : Z.max (clock w) due = due).
  { apply Z.max_r. unfold on_time in Hon. rewrite Forall_forall in Hon.
    apply (Hon _ Hp). }
  destruct (run_callback_frame t (at_due due rest w)) as (Hc & Hkeep & Hnew).
  unfold at_due in *. rewrite Hdue in *. world_simpl_in Hc.
  split.
  - unfold on_time. rewrite Forall_forall. intros y Hy. rewrite Hc.
    destruct (Hnew y Hy) as [Hy' | Hy'].
    + world_simpl_in Hy'. apply (Hmin y). now apply Hrest.
    + world_simpl_in Hy'. lia.
  - destruct (Hsplit x Hin) as [-> | Hx].
    + right. exists rest. split; [exact Hc | reflexivity].
    + left. apply Hkeep. exact Hx.
Qed.

(** ** The page-load pass *)

Definition dismiss_timers (due : Z) (l : list node) : list (Z * callback) :=
  flat_map (fun n => match n with
                     | Elem e _ => [(due, Dismiss (uid e))]
                     | Text _ => []
                     end) l.

Definition without_dismiss_button (l : list node) : list node :=
  filter (fun n => negb (has_dismiss_button n)) l.

Lemma forEach_autoDismiss : forall l w,
  forEach l autoDismiss w =
  (Normal tt,
   with_timers (timers w ++ dismiss_timers (clock w + 5000)
                                           (without_dismiss_button l)) w).
Proof.
  induction l as [|n l IH]; intros w.
  - simpl. unfold ret, with_timers. rewrite app_nil_r. now rewrite world_eta.
  - cbn [forEach]. unfold bind at 1.
    destruct n as [data|e kids].
    + cbn [autoDismiss]. unfold ret at 1. rewrite IH. reflexivity.
    + cbn [autoDismiss without_dismiss_button filter].
      destruct (negb (has_dismiss_button (Elem e kids))).
      * unfold setTimeout, modify. rewrite IH. world_simpl.
        unfold with_timers. world_simpl. cbn [dismiss_timers flat_map].
        now rewrite <- app_assoc.
      * unfold ret at 1. rewrite IH. reflexivity.
Qed.

Lemma autoDismissPass_timers w :
  timers (exec autoDismissPass w) =
  timers w ++ dismiss_timers (clock w + 5000)
    (without_dismiss_button
       (querySelectorAll (has_class (u "alert")) (document w))).
Proof.
  unfold exec, autoDismissPass, bind, gets. now rewrite forEach_autoDismiss.
Qed.

Lemma in_dismiss_timers due r l :
  In (due, Dismiss r) (dismiss_timers due l) <->
  exists e kids, In (Elem e kids) l /\ uid e = r.
Proof.
  unfold dismiss_timers. rewrite in_flat_map. split.
  - intros ([data|e kids] & Hin & H); [contradiction|].
    destruct H as [E | []]. injection E as <-. now exists e, kids.
  - intros (e & kids & Hin & <-). exists (Elem e kids). split; [assumption|].
    now left.
Qed.

(** ** Element objects outlive their place in the document *)

(** The element object [r] exists: in the document or outside it. *)
Definition alive (r : ref) (w : world) : Prop :=
  In r (uids (document w)) \/ In r (uids (detached w)).

Lemma interact_alive f r w : alive r w -> alive r (interact f w).
Proof.
  unfold alive, interact. cbv zeta. world_simpl. rewrite uids_app.
  intros [H | H].
  - destruct (orphans_keep (uids (f (document w))) r _ H) as [H' | H'];
      [now left|].
    right. apply in_or_app. now right.
  - right. apply in_or_app. now left.
Qed.

Lemma run_callback_alive t r w :
  alive r w -> alive r (exec (run_callback t) w).
Proof.
  unfold alive.
  destruct t as [r'|r']; unfold exec, run_callback, bind, setTimeout, modify;
    world_simpl.
  - rewrite !uids_setStyle. tauto.
  - rewrite uids_app. intros [H | H].
    + destruct (remove_or_extracted r' r _ H) as [H' | H']; [now left|].
      right. apply in_or_app. now right.
    + right. apply in_or_app. now left.
Qed.

Lemma showAlert_alive message type w :
  alive (next_uid w) (exec (showAlert message type) w).
Proof.
  unfold alive. rewrite showAlert_document, showAlert_detached.
  assert (Hb : In (next_uid w) (uids [banner_of w message type])).
  { unfold banner_of, banner. rewrite uids_elem. now left. }
  destruct (querySelector container_selector (document w))
    as [[data|c kids]|] eqn:Hq.
  - right. rewrite uids_cons. apply in_or_app. now left.
  - left. apply in_uids_insertFirst; [|exact Hb].
    destruct (querySelector_some _ _ _ Hq) as (e' & k' & E & _ & Hin).
    injection E as -> ->. exact Hin.
  - right. rewrite uids_cons. apply in_or_app. now left.
Qed.

(** The element [r] exists and has opacity 0, wherever it is. *)
Definition opacity_zero (r : ref) (w : world) : Prop :=
  alive r w /\
  styled r (u "opacity") (u "0") (document w) /\
  styled r (u "opacity") (u "0") (detached w).

(** ** Every pending timer fires *)

(** The turns of the event loop a timer still stands for: the fade timer
    sets the removal timer when it fires. *)
Definition cost (t : callback) : nat :=
  match t with
  | Dismiss _ => 2
  | Remove _ => 1
  end.

Definition weight (l : list (Z * callback)) : nat :=
  list_sum (map (fun x => cost (snd x)) l).

Lemma weight_cons a l : weight (a :: l) = (cost (snd a) + weight l)%nat.
Proof. reflexivity. Qed.

Lemma weight_app l1 l2 : weight (l1 ++ l2) = (weight l1 + weight l2)%nat.
Proof. unfold weight. now rewrite map_app, list_sum_app. Qed.

Lemma weight_in x l : In x l -> (1 <= weight l)%nat.
Proof.
  assert (Hc : forall t, (1 <= cost t)%nat) by (intros []; simpl; lia).
  induction l as [|a l IH]; [contradiction|].
  rewrite weight_cons.
  intros [-> | H]; [pose proof (Hc (snd x)) | apply IH in H]; lia.
Qed.

Lemma pop_earliest_weight : forall l x rest,
  pop_earliest l = Some (x, rest) ->
  weight l = (cost (snd x) + weight rest)%nat.
Proof.
  induction l as [|a l IH]; intros x rest H; simpl in H; [discriminate|].
  destruct (pop_earliest l) as [[y r]|] eqn:E.
  - specialize (IH y r eq_refl).
    destruct (fst y <? fst a); injection H as <- <-;
      rewrite ?weight_cons, IH; lia.
  - injection H as <- <-. destruct l as [|b l]; [rewrite weight_cons; lia|].
    simpl in E. destruct (pop_earliest l) as [[y r]|];
      [destruct (fst y <? fst b)|]; discriminate.
Qed.

Lemma tick_weight w w' :
  tick w = Some w' -> S (weight (timers w')) = weight (timers w).
Proof.
  intros H. destruct (tick_spec _ _ H) as (due & t & rest & Hpop & ->).
  rewrite (pop_earliest_weight _ _ _ Hpop). cbn [snd].
  destruct t as [r|r]; unfold exec, run_callback, bind, setTimeout, modify,
    at_due; world_simpl; cbn [cost].
  - rewrite weight_app, weight_cons. cbn [snd cost]. unfold weight at 2.
    cbn [map list_sum fold_right]. lia.
  - lia.
Qed.

Lemma tick_alive r w w' : alive r w -> tick w = Some w' -> alive r w'.
Proof.
  intros Ha H. destruct (tick_spec _ _ H) as (due & t & rest & _ & ->).
  now apply run_callback_alive.
Qed.

Lemma interact_on_time f w : on_time w -> on_time (interact f w).
Proof. intros H. exact H. Qed.

(** Whatever the user does before each turn, a pending timer fires after
    finitely many turns, at its due time, and the element it holds is still
    an object then. *)
Lemma timer_fires x r : forall k w user,
  (weight (timers w) <= k)%nat -> on_time w -> In x (timers w) ->
  alive r w ->
  exists n w',
    turns (S n) user w = Some w' /\ on_time w' /\
    exists pre rest,
      w' = exec (run_callback (snd x))
                (with_clock (fst x) (with_timers rest pre)) /\
      alive r pre.
Proof.
  induction k as [|k IH]; intros w user Hk Hon Hin Ha.
  - apply weight_in in Hin. lia.
  - pose proof (interact_alive (user O) r w Ha) as Hai.
    pose proof (interact_on_time (user O) w Hon) as Honi.
    assert (Hini : In x (timers (interact (user O) w))) by exact Hin.
    destruct (tick (interact (user O) w)) as [w''|] eqn:T.
    + destruct (tick_pending _ _ _ Honi Hini T)
        as (Hon' & [Hp | (rest & Hc & E)]).
      * pose proof (tick_weight _ _ T) as Hw.
        assert (Hk' : (weight (timers w'') <= k)%nat).
        { change (timers (interact (user O) w)) with (timers w) in Hw. lia. }
        destruct (IH w'' (fun i => user (S i)) Hk' Hon' Hp
                    (tick_alive _ _ _ Hai T))
          as (n & w' & Tn & Hon'' & Hfire).
        exists (S n), w'. split; [|split; assumption].
        change (turns (S (S n)) user w)
          with (match tick (interact (user O) w) with
                | Some w0 => turns (S n) (fun i => user (S i)) w0
                | None => None
                end).
        now rewrite T.
      * exists O, w''. split; [|split; [exact Hon'|]].
        -- cbn [turns]. now rewrite T.
        -- now exists (interact (user O) w), rest.
    + exfalso. unfold tick in T.
      destruct (pop_earliest (timers (interact (user O) w)))
        as [[[due t] rest]|] eqn:E; [discriminate|].
      revert E. apply pop_earliest_progress. intros C.
      rewrite C in Hini. contradiction.
Qed.

(** C5. Every call of [showAlert] sets the fade timer of its banner, due
    5000 ms later, whatever the banner holds (a message without markup
    leaves the dismiss button of the template in it). From a world in which
    no timer is overdue, whatever the user does to the page before each
    turn of the event loop, after finitely many turns the clock stands at
    5000 ms after the call and the banner, wherever it is by then, exists
    and has opacity 0; from there, again whatever the user does, after
    finitely many turns the clock stands at 5300 ms after the call and the
    banner is not in the document. The page-load pass schedules the fade of
    exactly those elements of class [alert] that contain no element of
    class [btn-close]. *)
Theorem alert_auto_dismiss
        (w : world) (message : ustring) (type : option ustring) :
  on_time w ->
  let r := next_uid w in
  let w1 := exec (showAlert message type) w in
  (timers w1 = timers w ++ [(clock w + 5000, Dismiss r)] /\
   clock w1 = clock w /\ alive r w1 /\
   (plain_text message = true ->
    has_dismiss_button (banner_of w message type) = true)) /\
  (forall user, exists n w2,
     turns (S n) user w1 = Some w2 /\
     clock w2 = clock w + 5000 /\ opacity_zero r w2 /\
     forall user', exists m w3,
       turns (S m) user' w2 = Some w3 /\
       clock w3 = clock w + 5300 /\ ~ In r (uids (document w3))) /\
  (forall w',
     let alerts := querySelectorAll (has_class (u "alert")) (document w') in
     timers (exec autoDismissPass w') =
     timers w' ++ dismiss_timers (clock w' + 5000)
                                 (without_dismiss_button alerts) /\
     forall r',
       In (clock w' + 5000, Dismiss r')
          (dismiss_timers (clock w' + 5000) (without_dismiss_button alerts))
       <-> exists e kids,
             In (Elem e kids) alerts /\
             has_dismiss_button (Elem e kids) = false /\ uid e = r').
Proof.
  intros Hon. cbv zeta.
  set (r := next_uid w). set (w1 := exec (showAlert message type) w).
  destruct (showAlert_frame message type w) as (_ & Hc & _).
  fold w1 in Hc. cbv zeta in Hc.
  assert (Ht1 : timers w1 = timers w ++ [(clock w + 5000, Dismiss r)]).
  { apply showAlert_timers. }
  assert (Ha1 : alive r w1) by apply showAlert_alive.
  assert (Hon1 : on_time w1).
  { unfold on_time. rewrite Ht1, Hc. apply Forall_app. split; [exact Hon|].
    constructor; [simpl; lia | constructor]. }
  split; [|split].
  - split; [exact Ht1|]. split; [exact Hc|]. split; [exact Ha1|].
    intros _. apply banner_has_dismiss_button.
  - intros user.
    assert (Hin1 : In (clock w + 5000, Dismiss r) (timers w1)).
    { rewrite Ht1. apply in_or_app. right. now left. }
    destruct (timer_fires (clock w + 5000, Dismiss r) r _ w1 user
                (le_n _) Hon1 Hin1 Ha1)
      as (n & w2 & T & Hon2 & pre & rest & E & Hpre).
    cbn [fst snd] in E.
    set (e := with_clock (clock w + 5000) (with_timers rest pre)) in E.
    destruct (run_callback_Dismiss r e) as (Hs1 & Hs2 & Htm).
    destruct (run_callback_frame (Dismiss r) e) as (Hc2 & _).
    rewrite <- E in Hs1, Hs2, Htm, Hc2.
    assert (Ha2 : alive r w2).
    { rewrite E. apply run_callback_alive. exact Hpre. }
    exists n, w2. split; [exact T|]. split; [exact Hc2|].
    split; [split; [exact Ha2 | split; assumption]|].
    intros user'.
    assert (Hin2 : In (clock w + 5000 + 300, Remove r) (timers w2)).
    { rewrite Htm. apply in_or_app. right. now left. }
    destruct (timer_fires (clock w + 5000 + 300, Remove r) r _ w2 user'
                (le_n _) Hon2 Hin2 Ha2)
      as (m & w3 & T' & _ & pre' & rest' & E' & _).
    cbn [fst snd] in E'.
    set (e' := with_clock (clock w + 5000 + 300) (with_timers rest' pre'))
      in E'.
    destruct (run_callback_Remove r e') as (Hgone & _).
    destruct (run_callback_frame (Remove r) e') as (Hc3 & _).
    rewrite <- E' in Hgone, Hc3.
    exists m, w3. split; [exact T'|]. split; [|exact Hgone].
    rewrite Hc3. unfold e'. world_simpl. lia.
  - intros w'. split; [apply autoDismissPass_timers|].
    intros r'. rewrite in_dismiss_timers. unfold without_dismiss_button.
    split.
    + intros (e & kids & Hin & <-). apply filter_In in Hin.
      destruct Hin as [Hin Hb]. apply negb_true_iff in Hb. now exists e, kids.
    + intros (e & kids & Hin & Hb & <-). exists e, kids.
      split; [|reflexivity]. apply filter_In. split; [assumption|].
      now apply negb_true_iff.
Qed.

(** One banner on the sample page, with the user taking the container of
    the banner out of the document before every turn: the banner is faded
    all the same, 5000 ms after the call. *)
Lemma alert_auto_dismiss_witness :
  let w := sample_world true in
  let r := next_uid w in
  let w1 := exec (showAlert msg_copied None) w in
  on_time w /\
  exists n w2,
    turns (S n) (fun _ => remove 3%nat) w1 = Some w2 /\
    clock w2 = clock w + 5000 /\ opacity_zero r w2.
Proof.
  cbv zeta.
  assert (Hon : on_time (sample_world true)) by constructor.
  split; [exact Hon|].
  destruct (alert_auto_dismiss (sample_world true) msg_copied None Hon)
    as (_ & H & _).
  destruct (H (fun _ => remove 3%nat)) as (n & w2 & T & Hc & Ho & _).
  now exists n, w2.
Defined.

Example alert_scenario :
  let w1 := exec (showAlert msg_copied None) (sample_world true) in
  exists w2 w3,
    tick w1 = Some w2 /\ clock w2 = 5000 /\
    timers w2 = [(5300, Remove 10%nat)] /\
    lookup 10%nat (document w1) <> None /\
    tick (interact (remove 5%nat) w2) = Some w3 /\ clock w3 = 5300 /\
    lookup 10%nat (document w3) = None /\ timers w3 = [] /\ tick w3 = None.
Proof.
  cbv zeta. eexists. eexists.
  split; [reflexivity|]. split; [reflexivity|]. split; [reflexivity|].
  split; [discriminate|].
  split; [reflexivity|]. repeat split.
Qed.

(** ** The clipboard helper *)

Local Close Scope Z_scope.

Lemma bind_run {A B} (m : M A) (k : A -> M B) w a w' :
  m w = (Normal a, w') -> bind m k w = k a w'.
Proof. unfold bind. now intros ->. Qed.

(** [showAlert] as a function on worlds. *)
Lemma showAlert_exec message type w :
  exec (showAlert message type) w =
  let b := banner_of w message type in
  let found := first_match container_selector (document w) in
  mkWorld
    (match found with
     | Some c => insertFirst (uid c) b (document w)
     | None => document w
     end)
    (match found with Some _ => detached w | None => b :: detached w end)
    (S (S (S (next_uid w)))) (clock w)
    (timers w ++ [((clock w + 5000)%Z, Dismiss (next_uid w))])
    (console w) (clipboard w) (defaultPrevented w).
Proof.
  cbv zeta. unfold first_match.
  unfold exec, showAlert, bind, fresh, gets, modify, setTimeout, ret,
    container_selector, banner_of, type_or_default.
  world_simpl.
  destruct (querySelector (has_class (u "container")) (document w))
    as [[?|? ?]|]; reflexivity.
Qed.

(** What the legacy copy command leads the helper to report, and what it
    does to the world before the report, for each way the command ends. *)
Definition report_message (o : exec_outcome) : ustring :=
  match o with
  | Raises _ => msg_copy_failed
  | _ => msg_copied
  end.

Definition report_type (o : exec_outcome) : ustring :=
  match o with
  | Raises _ => u "error"
  | _ => u "success"
  end.

Definition after_copy_command (o : exec_outcome) (text : ustring) (w : world)
  : world :=
  match o with
  | Copied => with_clipboard (Some text) w
  | Refused => w
  | Raises e =>
      with_console (console w ++ [u "Fallback: Oops, unable to copy " ++ e]) w
  end.

(** The world after the one alert of the fallback, without the text area. *)
Definition fallback_outcome (o : exec_outcome) (text : ustring) (w : world)
  : world :=
  exec (showAlert (report_message o) (Some (report_type o)))
       (after_copy_command o text (with_next_uid (S (next_uid w)) w)).

Lemma copy_attempt p r text w :
  lookup r (document w) = Some (textArea r text) ->
  try_catch
    (_ <- execCommand p r ;;
     showAlert msg_copied (Some (u "success")))
    (fun err =>
     console_error (u "Fallback: Oops, unable to copy " ++ err) ;;
     showAlert msg_copy_failed (Some (u "error"))) w
  = (Normal tt,
     exec (showAlert (report_message (execCommand_copy p (document w)))
                     (Some (report_type (execCommand_copy p (document w)))))
          (after_copy_command (execCommand_copy p (document w)) text w)).
Proof.
  intros Hl.
  unfold try_catch, bind, execCommand, report_message, report_type,
    after_copy_command.
  rewrite Hl. unfold textArea. cbn [value].
  destruct (execCommand_copy p (document w)) as [| |e];
    unfold console_error, modify, ret, throw, bind; cbv beta iota;
    now rewrite showAlert_completes.
Qed.

Lemma after_copy_command_document o text d w :
  after_copy_command o text (with_document d w)
  = with_document d (after_copy_command o text w).
Proof. unfold after_copy_command. now destruct o. Qed.

Lemma after_copy_command_frame o text w :
  document (after_copy_command o text w) = document w /\
  next_uid (after_copy_command o text w) = next_uid w.
Proof. unfold after_copy_command. now destruct o. Qed.

Lemma document_body_ref w b :
  body_ref (document w) = Some b -> document_body w = (Normal b, w).
Proof.
  unfold body_ref, document_body.
  destruct (body (document w)) as [[data|e k]|]; try discriminate.
  now intros [= ->].
Qed.

Lemma is_child_refs b r d l :
  option_map child_refs (lookup b d) = Some l -> In (Some r) l ->
  is_child b r d = true.
Proof.
  unfold is_child. destruct (lookup b d) as [[data|e kids]|]; cbn;
    intros [= <-] Hin; try contradiction.
  unfold child_refs in Hin. cbn in Hin. apply in_map_iff in Hin.
  destruct Hin as (n & Hn & Hin). apply existsb_exists. exists n.
  split; [assumption|]. destruct n as [data|e' k']; [discriminate|].
  cbn in Hn. injection Hn as <-. cbn. apply Nat.eqb_refl.
Qed.

Lemma uids_banner r ri rb message type :
  uids [banner r ri rb message type] = [r; ri; rb].
Proof. reflexivity. Qed.

Lemma textArea_no_container r text :
  first_match container_selector [textArea r text] = None.
Proof. reflexivity. Qed.

Lemma banner_not_body r ri rb message type hk :
  find (node_matches is_body) (banner r ri rb message type :: hk)
  = find (node_matches is_body) hk.
Proof. reflexivity. Qed.

Lemma textArea_not_body r text hk :
  option_map node_uid (find (node_matches is_body) (hk ++ [textArea r text]))
  = option_map node_uid (find (node_matches is_body) hk).
Proof.
  rewrite find_app. now destruct (find (node_matches is_body) hk).
Qed.

(** Showing the alert in a world that differs only in its document, and
    then putting the document of the plain run in place, is the plain run,
    as long as both documents have the same first container. *)
Lemma showAlert_other_document message type w d :
  first_match container_selector d
  = first_match container_selector (document w) ->
  with_document (document (exec (showAlert message type) w))
                (exec (showAlert message type) (with_document d w))
  = exec (showAlert message type) w.
Proof.
  intros H. rewrite !showAlert_exec. cbv zeta.
  unfold with_document, banner_of. world_simpl. rewrite H.
  now destruct (first_match container_selector (document w)).
Qed.

Lemma fresh_not_in w :
  Forall (fun x => x < next_uid w) (uids (document w)) ->
  ~ In (next_uid w) (uids (document w)).
Proof.
  intros Hf H. rewrite Forall_forall in Hf. apply Hf in H. lia.
Qed.

Section Fallback.

Variables (p : platform) (text : ustring) (w : world).
Variables (eb : element) (kb : forest).

Hypothesis body_found : body (document w) = Some (Elem eb kb).
Hypothesis identities_fresh :
  Forall (fun x => x < next_uid w) (uids (document w)).

Let r := next_uid w.
Let b := uid eb.
Let attached := appendChild b (textArea r text) (document w).
Let outcome := execCommand_copy p attached.

Lemma body_below : b < r.
Proof.
  unfold b, r. rewrite Forall_forall in identities_fresh.
  apply identities_fresh. now apply (body_in_uids _ eb kb).
Qed.

Lemma textArea_fresh : ~ In r (uids (document w)).
Proof. exact (fresh_not_in w identities_fresh). Qed.

Lemma attached_first_match :
  first_match container_selector attached
  = first_match container_selector (document w).
Proof.
  unfold attached, appendChild. apply first_match_update.
  intros k. apply first_match_snoc, textArea_no_container.
Qed.

Lemma attached_body_ref : body_ref attached = Some b.
Proof.
  unfold attached, appendChild. rewrite body_ref_update.
  - unfold body_ref. now rewrite body_found.
  - intros k. apply textArea_not_body.
Qed.

Lemma attached_is_child : exists l,
  option_map child_refs (lookup b attached) = Some l /\ In (Some r) l.
Proof.
  destruct (lookup b (document w)) as [n|] eqn:Hl.
  - destruct (querySelector_some _ _ _ Hl) as (e0 & k0 & -> & _).
    unfold attached, appendChild.
    rewrite (lookup_update_same b _ _ e0 k0 Hl). cbn.
    eexists. split; [reflexivity|]. unfold child_refs. cbn.
    rewrite map_app. apply in_or_app. right. now left.
  - apply lookup_none_iff in Hl. exfalso. apply Hl.
    now apply (body_in_uids _ eb kb).
Qed.

Lemma attached_lookup : lookup r attached = Some (textArea r text).
Proof.
  unfold attached, textArea. apply lookup_appendChild.
  - reflexivity.
  - apply textArea_fresh.
  - now apply (body_in_uids _ eb kb).
Qed.

(** The document on which the second [document.body] is evaluated. *)
Let reported : forest :=
  document (exec (showAlert (report_message outcome)
                            (Some (report_type outcome)))
                 (after_copy_command outcome text
                    (with_document attached (with_next_uid (S r) w)))).

Lemma reported_eq :
  reported =
  match first_match container_selector (document w) with
  | Some c =>
      insertFirst (uid c)
        (banner (S r) (S (S r)) (S (S (S r))) (report_message outcome)
                (report_type outcome)) attached
  | None => attached
  end.
Proof.
  unfold reported. rewrite showAlert_exec. cbv zeta. world_simpl.
  destruct (after_copy_command_frame outcome text
              (with_document attached (with_next_uid (S r) w))) as [Hd Hn].
  unfold banner_of. rewrite Hd, Hn. world_simpl.
  now rewrite attached_first_match.
Qed.

Lemma reported_body_ref : body_ref reported = Some b.
Proof.
  rewrite reported_eq.
  destruct (first_match container_selector (document w)) as [c|];
    [|apply attached_body_ref].
  unfold insertFirst. rewrite body_ref_update; [apply attached_body_ref|].
  intros k. now rewrite banner_not_body.
Qed.

Lemma reported_is_child : is_child b r reported = true.
Proof.
  destruct attached_is_child as (l & Hl & Hin).
  rewrite reported_eq.
  destruct (first_match container_selector (document w)) as [c|];
    [|now apply (is_child_refs b r attached l)].
  unfold insertFirst. destruct (Nat.eq_dec b (uid c)) as [E|Hne].
  - rewrite <- E.
    destruct (lookup b attached) as [n|] eqn:Hn; [|discriminate].
    destruct (querySelector_some _ _ _ Hn) as (e0 & k0 & -> & _).
    apply (is_child_refs b r _ (Some (S r) :: l)).
    + rewrite (lookup_update_same b _ _ e0 k0 Hn). cbn in *.
      injection Hl as <-. reflexivity.
    + now right.
  - apply (is_child_refs b r _ l); [|assumption].
    rewrite lookup_update_other; [assumption | assumption |].
    intros k. apply lookup_skip. rewrite uids_banner.
    pose proof body_below. simpl. lia.
Qed.

Lemma reported_cleaned :
  removeChild b r reported = document (fallback_outcome outcome text w).
Proof.
  rewrite reported_eq. unfold fallback_outcome. rewrite showAlert_exec.
  cbv zeta. world_simpl.
  destruct (after_copy_command_frame outcome text (with_next_uid (S r) w))
    as [Hd Hn].
  unfold banner_of. fold r. rewrite Hd, Hn. world_simpl.
  destruct (first_match container_selector (document w)) as [c|].
  - unfold attached, textArea.
    apply removeChild_insertFirst_appendChild;
      [apply textArea_fresh | reflexivity | |]; rewrite uids_banner; simpl.
    + lia.
    + pose proof body_below. lia.
  - unfold attached, textArea.
    apply removeChild_appendChild; [apply textArea_fresh | reflexivity].
Qed.

Lemma fallback_run :
  fallbackCopyTextToClipboard p text w
  = (Normal tt, fallback_outcome outcome text w).
Proof.
  unfold fallbackCopyTextToClipboard.
  rewrite (bind_run _ _ w r (with_next_uid (S r) w)) by reflexivity.
  rewrite (bind_run _ _ _ b (with_next_uid (S r) w)).
  2:{ apply document_body_ref. world_simpl. unfold body_ref.
      now rewrite body_found. }
  rewrite (bind_run _ _ _ tt (with_document attached (with_next_uid (S r) w)))
    by reflexivity.
  rewrite (bind_run _ _ _ tt _
             (copy_attempt p r text
                (with_document attached (with_next_uid (S r) w))
                attached_lookup)).
  world_simpl. fold outcome.
  rewrite (bind_run _ _ _ b _ (document_body_ref _ b reported_body_ref)).
  unfold remove_child. fold reported. rewrite reported_is_child.
  f_equal. rewrite reported_cleaned.
  unfold fallback_outcome. rewrite after_copy_command_document.
  apply showAlert_other_document.
  rewrite (proj1 (after_copy_command_frame _ _ _)). world_simpl.
  apply attached_first_match.
Qed.

End Fallback.

Lemma fallback_outcome_document o text w :
  document (fallback_outcome o text w) =
  match first_match container_selector (document w) with
  | Some c =>
      insertFirst (uid c)
        (banner (S (next_uid w)) (S (S (next_uid w))) (S (S (S (next_uid w))))
                (report_message o) (report_type o))
        (document w)
  | None => document w
  end.
Proof.
  unfold fallback_outcome. rewrite showAlert_exec. cbv zeta. world_simpl.
  destruct (after_copy_command_frame o text
              (with_next_uid (S (next_uid w)) w)) as [Hd Hn].
  unfold banner_of. rewrite Hd, Hn. reflexivity.
Qed.

(** C9. [fallbackCopyTextToClipboard] attaches one text area, of a new
    identity, as the last child of [document.body], and detaches that same
    text area before it returns. The copy command runs on the document that
    holds the text area: how the helper ends is how the command ends on
    that document, and what a successful command copies is the value of the
    text area found there. Whether the command returns or throws, the
    helper completes normally in the world in which only its one alert was
    shown: the text area is nowhere in the document, and the children of
    [document.body] are the ones it had, preceded by the banner when
    [document.body] itself is the first [container]. *)
Theorem fallback_textarea_removed
        (p : platform) (text : ustring) (w : world)
        (eb : element) (kb : forest) :
  body (document w) = Some (Elem eb kb) ->
  NoDup (uids (document w)) ->
  Forall (fun x => x < next_uid w) (uids (document w)) ->
  let r := next_uid w in
  let attached := appendChild (uid eb) (textArea r text) (document w) in
  let outcome := execCommand_copy p attached in
  let after := fallback_outcome outcome text w in
  body attached = Some (Elem eb (kb ++ [textArea r text])) /\
  lookup r attached = Some (textArea r text) /\
  fallbackCopyTextToClipboard p text w = (Normal tt, after) /\
  (outcome = Copied -> clipboard after = Some text) /\
  (outcome <> Copied -> clipboard after = clipboard w) /\
  ~ In r (uids (document after)) /\
  option_map child_refs (body (document after)) =
  Some ((match first_match container_selector (document w) with
         | Some c => if Nat.eqb (uid eb) (uid c) then [Some (S r)] else []
         | None => []
         end) ++ map node_uid kb).
Proof.
  intros Hbody Hnd Hfresh. cbv zeta.
  set (o := execCommand_copy p
              (appendChild (uid eb) (textArea (next_uid w) text) (document w))).
  split; [now apply body_appendChild|].
  split; [now apply (attached_lookup text w eb kb)|].
  split; [now apply (fallback_run p text w eb kb)|].
  assert (Hclip : clipboard (fallback_outcome o text w)
                  = clipboard (after_copy_command o text w)).
  { unfold fallback_outcome.
    destruct (showAlert_frame (report_message o) (Some (report_type o))
                (after_copy_command o text (with_next_uid (S (next_uid w)) w)))
      as (_ & _ & _ & -> & _).
    unfold after_copy_command. now destruct o. }
  split; [intros E; rewrite Hclip, E; reflexivity|].
  split.
  { intros E. rewrite Hclip. unfold after_copy_command.
    destruct o; [congruence | reflexivity | reflexivity]. }
  rewrite fallback_outcome_document.
  pose proof (fresh_not_in w Hfresh) as Hr.
  destruct (first_match container_selector (document w)) as [c|].
  - split.
    + intros Hin. apply uids_insertFirst in Hin. destruct Hin as [Hin | Hin];
        [contradiction|].
      rewrite uids_banner in Hin. simpl in Hin. lia.
    + unfold insertFirst. rewrite (body_update _ eb kb); try assumption.
      * destruct (Nat.eqb (uid eb) (uid c)); cbn; [reflexivity|].
        unfold child_refs. cbn. rewrite map_map. f_equal.
        apply map_ext. intros n. apply node_uid_update.
      * intros hk. apply banner_not_body.
  - split; [exact Hr|]. now rewrite Hbody.
Qed.

(** A platform without the clipboard API, on which the copy command always
    ends the same way. *)
Definition no_clipboard_api (outcome : exec_outcome) : platform :=
  mkPlatform false false false [] (fun _ => outcome).

(** A platform on which the copy command copies when the element of
    identity [r] is in the document, and throws when nothing is selected. *)
Definition copies_selected (r : ref) : platform :=
  mkPlatform false false false []
    (fun d => match lookup r d with
              | Some _ => Copied
              | None => Raises (u "nothing selected")
              end).

Lemma fallback_textarea_removed_witness :
  let w := sample_world true in
  let text := u "https://youtu.be/dQw4w9WgXcQ" in
  body (document w) <> None /\
  NoDup (uids (document w)) /\
  Forall (fun x => x < next_uid w) (uids (document w)) /\
  fallbackCopyTextToClipboard (copies_selected 10) text w
  = (Normal tt,
     exec (showAlert msg_copied (Some (u "success")))
          (with_clipboard (Some text) (with_next_uid 11 w))) /\
  lookup 10 (document (fallback_outcome Copied text w)) = None.
Proof.
  cbv zeta.
  assert (Hnd : NoDup (uids (document (sample_world true)))).
  { vm_compute. repeat constructor; simpl; intuition discriminate. }
  assert (Hfresh : Forall (fun x => x < next_uid (sample_world true))
                          (uids (document (sample_world true)))).
  { vm_compute. repeat constructor. }
  split; [discriminate|]. split; [exact Hnd|]. split; [exact Hfresh|].
  destruct (fallback_textarea_removed
              (copies_selected 10)
              (u "https://youtu.be/dQw4w9WgXcQ") (sample_world true)
              _ _ eq_refl Hnd Hfresh) as (_ & _ & Hrun & _ & _ & Hgone & _).
  split; [exact Hrun|].
  apply lookup_none_iff. exact Hgone.
Defined.

(** ** copyToClipboard, path by path *)



(** C6. On a platform without the clipboard API, when the legacy copy
    command returns [false] (nothing is copied, nothing is thrown),
    [copyToClipboard] still shows the success alert: the clipboard is left
    empty, nothing is logged, and the world is the one in which
    [showAlert('URL copied to clipboard!', 'success')] was called. *)
Theorem copyToClipboard_refused_reports_success :
  let p := no_clipboard_api Refused in
  let text := u "https://youtu.be/dQw4w9WgXcQ" in
  let w' := exec (copyToClipboard p text) (sample_world true) in
  clipboard w' = None /\ console w' = [] /\
  w' = exec (showAlert msg_copied (Some (u "success")))
            (with_next_uid 11 (sample_world true)).
Proof. cbv zeta. repeat split. Qed.

End PageFacts.

(* ===================================================================== *)
(** * More on the validator *)
(* ===================================================================== *)

Module ValidatorFacts.
Import RegExp Validator.

(** The pattern has no end anchor: whatever follows an accepted string, the
    result is accepted too. *)
Theorem isValidYouTubeUrl_extends (url tail : ustring) :
  isValidYouTubeUrl url = true -> isValidYouTubeUrl (url ++ tail) = true.
Proof.
  intros H. apply isValidYouTubeUrl_iff in H.
  destruct H as (pre & id & rest & -> & Hp & Hi).
  apply isValidYouTubeUrl_iff. exists pre, id, (rest ++ tail).
  split; [now rewrite <- !app_assoc | now split].
Qed.

Lemma isValidYouTubeUrl_extends_witness :
  isValidYouTubeUrl (u "youtu.be/dQw4w9WgXcQ") = true /\
  isValidYouTubeUrl (u "youtu.be/dQw4w9WgXcQ" ++ u "<script>") = true.
Proof.
  split; [reflexivity|]. apply isValidYouTubeUrl_extends. reflexivity.
Defined.

Definition leading_literals : list ustring :=
  [u "http://"; u "https://"; u "www."; u "youtu"].

Lemma prefix_shortest pre :
  url_prefix pre ->
  9 <= List.length pre /\
  exists p s, In p leading_literals /\ pre = p ++ s.
Proof.
  intros (scheme & www & host & suffix & path & -> & Hs & Hw & Hh & Hx & _).
  assert (Hhost : 5 <= List.length host /\ exists s, host = u "youtu" ++ s).
  { destruct Hh as [<- | [<- | [<- | []]]]; (split; [simpl; lia|]);
      eexists; reflexivity. }
  assert (Hsuffix : 2 <= List.length suffix).
  { destruct Hx as [<- | [<- | []]]; simpl; lia. }
  destruct Hhost as (Hlen & hs & ->).
  split.
  - rewrite !length_app in *. simpl in *. lia.
  - unfold leading_literals.
    destruct Hs as [<- | [<- | [<- | []]]].
    + destruct Hw as [<- | [<- | []]].
      * exists (u "youtu"). eexists. split; [simpl; tauto|].
        cbn [app]. rewrite <- app_assoc. reflexivity.
      * exists (u "www."). eexists. split; [simpl; tauto | reflexivity].
    + exists (u "http://"). eexists. split; [simpl; tauto | reflexivity].
    + exists (u "https://"). eexists. split; [simpl; tauto | reflexivity].
Qed.

(** An accepted string has at least twenty code units (as [youtu.be/] plus
    an id has) and begins with one of [http://], [https://], [www.] and
    [youtu], in exactly this spelling. *)
Theorem isValidYouTubeUrl_shortest (url : ustring) :
  isValidYouTubeUrl url = true ->
  20 <= List.length url /\
  exists p s, In p leading_literals /\ url = p ++ s.
Proof.
  intros H. apply isValidYouTubeUrl_iff in H.
  destruct H as (pre & id & rest & -> & Hp & Hl & _).
  destruct (prefix_shortest pre Hp) as (Hlen & p & s & Hin & ->).
  split.
  - rewrite !length_app in *. lia.
  - exists p, (s ++ id ++ rest). split; [exact Hin|].
    now rewrite <- app_assoc.
Qed.

Lemma isValidYouTubeUrl_shortest_witness :
  isValidYouTubeUrl (u "youtu.be/dQw4w9WgXcQ") = true /\
  20 <= List.length (u "youtu.be/dQw4w9WgXcQ") /\
  exists p s, In p leading_literals /\ u "youtu.be/dQw4w9WgXcQ" = p ++ s.
Proof.
  split; [reflexivity|]. apply isValidYouTubeUrl_shortest. reflexivity.
Defined.

End ValidatorFacts.

(* ===================================================================== *)
(** * More on the formatters *)
(* ===================================================================== *)

Module FormatFacts.
Import Format.
Local Open Scope Z_scope.

(** ** formatFileSize *)

(** Below 1024^4 the number printed is the byte count divided by the power
    of 1024 of its unit, rounded to the nearest tenth; it lies between 1 and
    1024, both included (a count just below the next unit is rounded up to
    1024 of the smaller unit). *)
Theorem formatFileSize_magnitude (bytes : Z) :
  0 < bytes < k ^ 4 ->
  exists i label n,
    nth_error sizes (Z.to_nat i) = Some label /\
    formatFileSize bytes = print_tenths n ++ u " " ++ label /\
    10 <= n <= 10240 /\
    2 * (k ^ i * n) - k ^ i <= 20 * bytes < 2 * (k ^ i * n) + k ^ i.
Proof.
  intros H.
  destruct (formatFileSize_below_TiB bytes H)
    as (i & label & Hi & Hl & Hb & E).
  exists i, label, (toFixed1 bytes (k ^ i)).
  split; [exact Hl|]. split; [exact E|].
  assert (HK : 0 < k ^ i) by (apply Z.pow_pos_nonneg; unfold k; lia).
  assert (Hnext : k ^ (i + 1) = 1024 * k ^ i).
  { rewrite Z.pow_add_r by lia. unfold k at 2. rewrite Z.pow_1_r. lia. }
  rewrite Hnext in Hb. unfold toFixed1.
  set (K := k ^ i) in *.
  split.
  - split.
    + apply Z.div_le_lower_bound; lia.
    + apply Z.lt_succ_r. apply Z.div_lt_upper_bound; lia.
  - pose proof (Z.mul_div_le (20 * bytes + K) (2 * K) ltac:(lia)) as Hlo.
    pose proof (Z.mul_succ_div_gt (20 * bytes + K) (2 * K) ltac:(lia)) as Hhi.
    set (n := (20 * bytes + K) / (2 * K)) in *.
    replace (2 * K * Z.succ n) with (2 * (K * n) + 2 * K) in Hhi by ring.
    replace (2 * K * n) with (2 * (K * n)) in Hlo by ring.
    lia.
Qed.

Lemma formatFileSize_magnitude_witness :
  0 < 1048575 < k ^ 4 /\
  exists i label n,
    nth_error sizes (Z.to_nat i) = Some label /\
    formatFileSize 1048575 = print_tenths n ++ u " " ++ label /\
    10 <= n <= 10240 /\
    2 * (k ^ i * n) - k ^ i <= 20 * 1048575 < 2 * (k ^ i * n) + k ^ i.
Proof.
  split; [split; reflexivity|].
  apply formatFileSize_magnitude. split; reflexivity.
Defined.



(** ** formatDuration *)

(** A number below 60 padded to two places: its two decimal digits. *)
Definition two_digits (n : Z) : ustring :=
  [Z.to_N (48 + n / 10); Z.to_N (48 + n mod 10)].

Lemma padStart_below_60 n :
  0 <= n < 60 -> padStart 2 48 (of_Z n) = two_digits n.
Proof.
  intros H. set (j := Z.to_nat n).
  assert (E : n = Z.of_nat j) by (unfold j; lia).
  assert (Hj : (j < 60)%nat) by (unfold j; lia).
  clearbody j. subst n. clear H.
  do 60 (destruct j as [|j]; [reflexivity|]). lia.
Qed.

(** For a whole number of seconds from 0 up to 2^53, the range in which a
    JavaScript number holds every integer exactly, the three fields are the
    hours, minutes and seconds of the duration; minutes (when hours are
    shown) and seconds always take exactly two digits, and the hours are
    left out below one hour. *)
Theorem formatDuration_fields (seconds : Z) :
  0 <= seconds < 2 ^ 53 ->
  exists h m s,
    seconds = 3600 * h + 60 * m + s /\
    0 <= h /\ 0 <= m < 60 /\ 0 <= s < 60 /\
    formatDuration seconds =
    if 0 <? h then
      of_Z h ++ u ":" ++ two_digits m ++ u ":" ++ two_digits s
    else of_Z m ++ u ":" ++ two_digits s.
Proof.
  intros [H _].
  exists (seconds / 3600), (Z.rem seconds 3600 / 60), (Z.rem seconds 60).
  rewrite !Z.rem_mod_nonneg by lia.
  assert (Hm : 0 <= seconds mod 3600 / 60 < 60).
  { pose proof (Z.mod_pos_bound seconds 3600 ltac:(lia)).
    split; [apply Z.div_pos; lia | apply Z.div_lt_upper_bound; lia]. }
  assert (Hs : 0 <= seconds mod 60 < 60) by (apply Z.mod_pos_bound; lia).
  split; [|split; [|split; [|split]]]; try assumption.
  - Z.div_mod_to_equations. lia.
  - apply Z.div_pos; lia.
  - unfold formatDuration. rewrite !Z.rem_mod_nonneg by lia.
    now rewrite !padStart_below_60 by assumption.
Qed.

Lemma formatDuration_fields_witness :
  0 <= 86399 < 2 ^ 53 /\ formatDuration 86399 = u "23:59:59".
Proof.
  split; [split; [discriminate | reflexivity]|].
  destruct (formatDuration_fields 86399) as (h & m & s & _ & _ & _ & _ & E);
    [split; [discriminate | reflexivity]|].
  reflexivity.
Defined.

(** A negative number of seconds never shows its hours: the hour count is
    below zero, so the short form is chosen, and the two fields printed are
    remainders that an hour more or less does not change. *)
Theorem formatDuration_negative_drops_hours (seconds : Z) :
  seconds < 0 -> formatDuration (seconds - 3600) = formatDuration seconds.
Proof.
  intros H. unfold formatDuration.
  assert (H1 : (0 <? (seconds - 3600) / 3600) = false).
  { apply Z.ltb_ge. apply Z.lt_le_incl, Z.div_lt_upper_bound; lia. }
  assert (H2 : (0 <? seconds / 3600) = false).
  { apply Z.ltb_ge. apply Z.lt_le_incl, Z.div_lt_upper_bound; lia. }
  rewrite H1, H2.
  replace (seconds - 3600) with (seconds + (-1) * 3600) at 1 by ring.
  rewrite Z.rem_add by nia.
  replace (seconds - 3600) with (seconds + (-60) * 60) by ring.
  rewrite Z.rem_add by nia. reflexivity.
Qed.

Lemma formatDuration_negative_drops_hours_witness :
  -65 < 0 /\
  formatDuration (-65 - 3600) = formatDuration (-65) /\
  formatDuration (-65) = u "-2:-5".
Proof.
  split; [reflexivity|]. split; [|reflexivity].
  apply formatDuration_negative_drops_hours. reflexivity.
Defined.

End FormatFacts.

(* ===================================================================== *)
(** * More on the progress animation *)
(* ===================================================================== *)

Module AnimationFacts.
Import Number Animation.
Local Open Scope Q_scope.

Section Forward.

Variables (targetWidth duration startTime : Q).
Hypothesis target_double : double targetWidth.
Hypothesis target_nonneg : 0 <= targetWidth.
Hypothesis duration_pos : 0 < duration.

Let progress := progress duration startTime.
Let currentWidth := currentWidth targetWidth duration startTime.

(** At or after the start the progress is a number from 0 to 1. *)
Lemma progress_after t :
  startTime <= t -> exists q, progress t = Fin q /\ 0 <= q /\ q <= 1.
Proof.
  intros H. unfold progress, Animation.progress.
  pose proof (elapsed_nonneg startTime t H) as He.
  destruct (elapsed startTime t) as [a| | |]; simpl in He; try contradiction;
    simpl.
  - rewrite (duration_nonzero duration duration_pos).
    assert (H0 : 0 <= a / duration).
    { apply Qle_shift_div_l; [exact duration_pos | lra]. }
    pose proof (round_mono 0 (a / duration) H0) as Hr. rewrite round_0 in Hr.
    destruct (round (a / duration)) as [q| | |]; simpl in Hr;
      try contradiction; simpl.
    + eexists. split; [reflexivity|].
      destruct (Qle_bool q 1) eqn:E.
      * apply Qle_bool_iff in E. now split.
      * split; [discriminate | apply Qle_refl].
    + exists 1. split; [reflexivity|]. split; [discriminate | apply Qle_refl].
  - rewrite (duration_sign duration duration_pos). simpl.
    exists 1. split; [reflexivity|]. split; [discriminate | apply Qle_refl].
Qed.

(** Later frames have no smaller progress. *)
Lemma progress_mono t1 t2 q1 q2 :
  t1 <= t2 -> progress t1 = Fin q1 -> progress t2 = Fin q2 -> q1 <= q2.
Proof.
  unfold progress, Animation.progress. intros H.
  pose proof (elapsed_mono startTime t1 t2 H) as He.
  destruct (elapsed startTime t1) as [a1| | |],
           (elapsed startTime t2) as [a2| | |];
    simpl in He; try contradiction; simpl;
    rewrite ?(duration_nonzero duration duration_pos),
            ?(duration_sign duration duration_pos); simpl;
    try discriminate.
  - assert (Hq : a1 / duration <= a2 / duration).
    { apply Qmult_le_compat_r; [exact He|].
      apply Qlt_le_weak, Qinv_lt_0_compat, duration_pos. }
    pose proof (round_mono _ _ Hq) as Hr.
    destruct (round (a1 / duration)) as [r1| | |],
             (round (a2 / duration)) as [r2| | |];
      simpl in Hr; try contradiction; simpl; try discriminate;
      intros [= <-] [= <-].
    + destruct (Qle_bool r1 1) eqn:E1, (Qle_bool r2 1) eqn:E2;
        try apply Qle_bool_iff in E1; try apply Qle_bool_iff in E2;
        try lra.
      assert (1 < r1); [|lra].
      apply Qnot_le_lt. intros C. apply Qle_bool_iff in C. congruence.
    + destruct (Qle_bool r1 1) eqn:E1; [now apply Qle_bool_iff | lra].
    + lra.
  - destruct (round (a1 / duration)) as [r1| | |]; simpl; try discriminate;
      intros [= <-] [= <-]; [|lra].
    destruct (Qle_bool r1 1) eqn:E1; [now apply Qle_bool_iff | lra].
  - intros [= <-] [= <-]. lra.
Qed.

(** The width written for a progress from 0 to 1 lies between 0 and the
    target, and grows with the progress. *)
Lemma width_Fin t q :
  progress t = Fin q ->
  exists T, T == targetWidth /\
            currentWidth t = js_add (Fin 0) (round (T * q)).
Proof.
  intros Hp. unfold currentWidth, Animation.currentWidth.
  fold progress. rewrite Hp.
  destruct (span_target targetWidth target_double) as (T & -> & ET).
  exists T. split; [exact ET | reflexivity].
Qed.

Lemma width_bounds t q :
  progress t = Fin q -> 0 <= q -> q <= 1 ->
  exists v, currentWidth t = Fin v /\ 0 <= v /\ v <= targetWidth.
Proof.
  intros Hp H0 H1. destruct (width_Fin t q Hp) as (T & ET & ->).
  assert (Hlo : 0 <= T * q) by (apply Qmult_le_0_compat; lra).
  assert (Hhi : T * q <= targetWidth).
  { rewrite <- ET. setoid_replace (T * q) with (q * T) by ring.
    setoid_replace T with (1 * T) at 2 by ring.
    apply Qmult_le_compat_r; lra. }
  destruct (round_between 0 targetWidth (T * q) double_0 target_double
              Hlo Hhi) as (y & -> & Hy0 & Hy1).
  simpl.
  apply (round_between 0 targetWidth (0 + y) double_0 target_double); lra.
Qed.

Lemma width_mono t1 t2 q1 q2 v1 v2 :
  progress t1 = Fin q1 -> progress t2 = Fin q2 -> q1 <= q2 ->
  currentWidth t1 = Fin v1 -> currentWidth t2 = Fin v2 -> v1 <= v2.
Proof.
  intros Hp1 Hp2 Hq.
  destruct (width_Fin t1 q1 Hp1) as (T1 & E1 & ->).
  destruct (width_Fin t2 q2 Hp2) as (T2 & E2 & ->).
  assert (Hm : T1 * q1 <= T2 * q2).
  { rewrite E1, E2, !(Qmult_comm targetWidth).
    apply Qmult_le_compat_r; lra. }
  pose proof (round_mono _ _ Hm) as Hr.
  destruct (round (T1 * q1)) as [y1| | |], (round (T2 * q2)) as [y2| | |];
    simpl in Hr; try contradiction; simpl; try discriminate.
  intros H1 H2. apply (round_mono_Fin (0 + y1) (0 + y2)); try assumption.
  lra.
Qed.

End Forward.

(** With a positive duration and a non-negative target, a frame at or after
    the start writes a width between 0 and the target, and a later frame
    never writes a smaller width than an earlier one: the bar neither
    overshoots nor moves back. *)
Theorem animate_bounded_monotone (targetWidth duration startTime t1 t2 : Q) :
  0 < duration -> 0 <= targetWidth -> double targetWidth ->
  startTime <= t1 -> t1 <= t2 ->
  exists q1 q2,
    width (animate targetWidth duration startTime t1) = Fin q1 /\
    width (animate targetWidth duration startTime t2) = Fin q2 /\
    0 <= q1 /\ q1 <= q2 /\ q2 <= targetWidth.
Proof.
  intros Hd Ht Hdbl H1 H12.
  assert (H2 : startTime <= t2) by lra.
  destruct (progress_after duration startTime Hd t1 H1) as (p1 & Hp1 & A1 & B1).
  destruct (progress_after duration startTime Hd t2 H2) as (p2 & Hp2 & A2 & B2).
  pose proof (progress_mono duration startTime Hd t1 t2 p1 p2 H12 Hp1 Hp2)
    as Hp.
  destruct (width_bounds targetWidth duration startTime Hdbl Ht t1 p1
              Hp1 A1 B1) as (v1 & Hv1 & L1 & U1).
  destruct (width_bounds targetWidth duration startTime Hdbl Ht t2 p2
              Hp2 A2 B2) as (v2 & Hv2 & L2 & U2).
  exists v1, v2. cbn [width animate].
  split; [exact Hv1|]. split; [exact Hv2|]. split; [exact L1|].
  split; [|exact U2].
  now apply (width_mono targetWidth duration startTime Hdbl Ht
               t1 t2 p1 p2 v1 v2).
Qed.

Lemma double_integer_80 : double 80.
Proof. unfold double. vm_compute. reflexivity. Qed.

Lemma animate_bounded_monotone_witness :
  0 < 1000 /\ 0 <= 80 /\ double 80 /\ 200 <= 450 /\ 450 <= 2000 /\
  exists q1 q2,
    width (animate 80 1000 200 450) = Fin q1 /\
    width (animate 80 1000 200 2000) = Fin q2 /\
    0 <= q1 /\ q1 <= q2 /\ q2 <= 80.
Proof.
  split; [reflexivity|]. split; [discriminate|].
  split; [exact double_integer_80|]. split; [discriminate|].
  split; [discriminate|].
  apply animate_bounded_monotone;
    first [reflexivity | exact double_integer_80 | discriminate].
Defined.

(** With a duration of zero the first frame ends the animation: on the
    target when time has passed since the call, on NaN (no usable width)
    when the frame carries the very time stamp of the call. *)
Theorem animate_zero_duration (targetWidth duration startTime t : Q) :
  duration == 0 -> double targetWidth ->
  let b := animate targetWidth duration startTime t in
  (js_lt (Fin 0) (elapsed startTime t) = true ->
   scheduled b = false /\ exists q, width b = Fin q /\ q == targetWidth) /\
  (num_eq (elapsed startTime t) (Fin 0) ->
   scheduled b = false /\ width b = NaN).
Proof.
  intros Hd Hdbl. cbv zeta.
  assert (E0 : Qeq_bool duration 0 = true) by now apply Qeq_bool_iff.
  assert (E1 : Qle_bool 0 duration = true).
  { apply Qle_bool_iff. rewrite Hd. apply Qle_refl. }
  cbn [scheduled width animate]. split.
  - intros He.
    assert (Hp : progress duration startTime t = Fin 1).
    { unfold progress.
      destruct (elapsed startTime t) as [a| | |]; simpl in He;
        try discriminate; simpl.
      - rewrite E0. unfold signed.
        apply negb_true_iff in He.
        assert (Ha : 0 < a).
        { apply Qnot_le_lt. intros C. apply Qle_bool_iff in C. congruence. }
        assert (Ea : Qeq_bool a 0 = false).
        { destruct (Qeq_bool a 0) eqn:E; [|reflexivity].
          apply Qeq_bool_iff in E. lra. }
        assert (Ea' : Qle_bool 0 a = true) by (apply Qle_bool_iff; lra).
        now rewrite Ea, Ea'.
      - now rewrite E1. }
    split; [now rewrite Hp|].
    apply (width_at_one targetWidth duration startTime Hdbl t 1 Hp).
    reflexivity.
  - intros He.
    assert (Hp : progress duration startTime t = NaN).
    { unfold progress.
      destruct (elapsed startTime t) as [a| | |]; simpl in He;
        try contradiction; simpl.
      rewrite E0. unfold signed.
      now rewrite (proj2 (Qeq_bool_iff a 0) He). }
    split; [now rewrite Hp|].
    unfold currentWidth. rewrite Hp.
    now destruct (js_sub (Fin targetWidth) (Fin startWidth)).
Qed.

Lemma animate_zero_duration_witness :
  0 == 0 /\ double 50 /\
  scheduled (animate 50 0 100 100) = false /\
  width (animate 50 0 100 100) = NaN.
Proof.
  split; [reflexivity|]. split; [exact double_integer_50|].
  apply (animate_zero_duration 50 0 100 100);
    [reflexivity | exact double_integer_50 |].
  vm_compute. reflexivity.
Defined.

(** With a negative duration a frame at or after the start requests
    another one. *)
Lemma negative_duration_scheduled duration startTime targetWidth t :
  duration < 0 -> startTime <= t ->
  scheduled (animate targetWidth duration startTime t) = true.
Proof.
  intros Hd Ht. cbn [scheduled animate]. unfold progress.
  assert (E0 : Qeq_bool duration 0 = false).
  { destruct (Qeq_bool duration 0) eqn:E; [|reflexivity].
    apply Qeq_bool_iff in E. lra. }
  assert (E1 : Qle_bool 0 duration = false).
  { destruct (Qle_bool 0 duration) eqn:E; [|reflexivity].
    apply Qle_bool_iff in E. lra. }
  pose proof (elapsed_nonneg startTime t Ht) as He.
  destruct (elapsed startTime t) as [a| | |]; simpl in He; try contradiction;
    simpl.
  - rewrite E0.
    assert (Hq : a / duration <= 0).
    { setoid_replace (a / duration) with (- (a / - duration))
        by (field; lra).
      assert (0 <= a / - duration); [|lra].
      apply Qle_shift_div_l; lra. }
    pose proof (round_mono _ _ Hq) as Hr. rewrite round_0 in Hr.
    destruct (round (a / duration)) as [q| | |]; simpl in Hr;
      try contradiction; simpl; [|reflexivity].
    assert (E : Qle_bool q 1 = true) by (apply Qle_bool_iff; lra).
    rewrite E. apply negb_true_iff.
    destruct (Qle_bool 1 q) eqn:C; [|reflexivity].
    apply Qle_bool_iff in C. lra.
  - now rewrite E1.
Qed.

(** With a negative duration the animation never ends: whatever frames come
    at or after the start, another one is requested. *)
Theorem animate_negative_duration_runs_on
        (targetWidth duration startTime : Q) (times : list Q) (prior : bar) :
  duration < 0 ->
  Forall (fun t => startTime <= t) times ->
  scheduled (frames targetWidth duration startTime times
                    (animateProgressBar true prior)) = true.
Proof.
  intros Hd Hall.
  assert (G : forall b, scheduled b = true ->
                scheduled (frames targetWidth duration startTime times b)
                = true).
  { induction Hall as [|t times Ht Hall IH]; intros b Hb; [exact Hb|].
    unfold frames. cbn [fold_left]. fold (frames targetWidth duration
                                            startTime times).
    apply IH. unfold frame. rewrite Hb.
    now apply negative_duration_scheduled. }
  now apply G.
Qed.

Lemma animate_negative_duration_runs_on_witness :
  -1000 < 0 /\
  scheduled (frames 50 (-1000) 0 [16; 500; 5000] (animateProgressBar true
                                                    (mkBar (Fin 0) false)))
  = true.
Proof.
  split; [reflexivity|].
  apply animate_negative_duration_runs_on; [reflexivity|].
  repeat constructor; discriminate.
Defined.

End AnimationFacts.

(* ===================================================================== *)
(** * More on the document tree *)
(* ===================================================================== *)

Module TreeFacts.
Import Dom DomFacts.

Lemma update_element_forest_text r g data d :
  map (update_element r g) (Text data :: d)
  = Text data :: map (update_element r g) d.
Proof. reflexivity. Qed.

Lemma update_element_forest_elem r g e k d :
  map (update_element r g) (Elem e k :: d)
  = Elem (if Nat.eqb (uid e) r then g e else e) (map (update_element r g) k)
    :: map (update_element r g) d.
Proof. reflexivity. Qed.

(** Setting a style on an element that is not in the forest changes
    nothing. *)
Lemma setStyle_absent r prop v : forall d,
  ~ In r (uids d) -> setStyle r prop v d = d.
Proof.
  unfold setStyle.
  induction d as [|data d IH|e k d IHk IHd] using forest_ind; intros H.
  - reflexivity.
  - rewrite update_element_forest_text. rewrite uids_text in H.
    now rewrite IH.
  - rewrite uids_elem in H. rewrite update_element_forest_elem.
    destruct (Nat.eqb_spec (uid e) r) as [E|_]; [exfalso; apply H; now left|].
    rewrite IHk, IHd; [reflexivity | |]; intros Hin; apply H; right;
      apply in_or_app; [now right | now left].
Qed.

(** Removing an element that is not in the forest changes nothing. *)
Lemma remove_absent r : forall d, ~ In r (uids d) -> remove r d = d.
Proof.
  unfold remove.
  induction d as [|data d IH|e k d IHk IHd] using forest_ind; intros H.
  - reflexivity.
  - cbn [map remove_in]. rewrite without_cons. cbn [has_uid node_matches].
    rewrite uids_text in H. now rewrite IH.
  - rewrite uids_elem in H. cbn [map remove_in]. rewrite without_cons.
    cbn [has_uid node_matches].
    destruct (Nat.eqb_spec (uid e) r) as [E|_]; [exfalso; apply H; now left|].
    rewrite IHk, IHd; [reflexivity | |]; intros Hin; apply H; right;
      apply in_or_app; [now right | now left].
Qed.

(** In a forest with distinct identities that holds the element [c],
    [insertFirst] adds the identities of the new child once and keeps all
    the others. *)
Lemma uids_insertFirst_perm c child : forall d,
  NoDup (uids d) -> In c (uids d) ->
  Permutation (uids (insertFirst c child d)) (uids [child] ++ uids d).
Proof.
  unfold insertFirst.
  induction d as [|data d IH|e k d IHk IHd] using forest_ind; intros Hnd Hc.
  - contradiction.
  - rewrite update_children_forest_text, !uids_text.
    rewrite uids_text in Hnd, Hc. now apply IH.
  - destruct (NoDup_uids_elem _ _ _ Hnd) as (Hek & Hed & Ndk & Ndd & Hkd).
    rewrite update_children_forest_elem. rewrite uids_elem in Hc.
    destruct (Nat.eqb_spec (uid e) c) as [E|Hne].
    + rewrite (update_children_absent c _ d) by (rewrite <- E; exact Hed).
      rewrite !uids_elem, (uids_cons child k), <- app_assoc.
      apply Permutation_middle.
    + destruct Hc as [Hc | Hc]; [contradiction|].
      apply in_app_or in Hc. rewrite !uids_elem.
      destruct Hc as [Hc | Hc].
      * assert (Hcd : ~ In c (uids d)) by now apply Hkd.
        rewrite (update_children_absent c _ d Hcd).
        apply Permutation_trans
          with (uid e :: (uids [child] ++ uids k) ++ uids d).
        -- apply perm_skip, Permutation_app_tail. now apply IHk.
        -- rewrite <- app_assoc. apply Permutation_middle.
      * assert (Hck : ~ In c (uids k)).
        { intros Hin. now apply (Hkd c Hin). }
        rewrite (update_children_absent c _ k Hck).
        apply Permutation_trans
          with (uid e :: uids k ++ uids [child] ++ uids d).
        -- apply perm_skip, Permutation_app_head. now apply IHd.
        -- apply Permutation_trans
             with (uid e :: uids [child] ++ uids k ++ uids d).
           ++ apply perm_skip. rewrite !app_assoc.
              apply Permutation_app_tail, Permutation_app_comm.
           ++ apply Permutation_middle.
Qed.

End TreeFacts.

(* ===================================================================== *)
(** * More on the page script *)
(* ===================================================================== *)

Module LifecycleFacts.
Import Dom Browser Validator Page DomFacts TreeFacts PageFacts.

(** ** The analyze listener and the URL shape *)



(** ** Well-formed documents *)

(** Element identities are distinct, and none is one that [createElement]
    is still to hand out. *)
Definition well_formed (w : world) : Prop :=
  NoDup (uids (document w)) /\
  Forall (fun x => x < next_uid w) (uids (document w)).

Lemma first_match_in p d e :
  first_match p d = Some e ->
  exists kids, querySelector p d = Some (Elem e kids) /\ In (uid e) (uids d).
Proof.
  unfold first_match. destruct (querySelector p d) as [n|] eqn:H;
    [|discriminate].
  destruct (querySelector_some _ _ _ H) as (e' & k & -> & _ & Hin).
  intros [= <-]. now exists k.
Qed.

Lemma showAlert_identities
      (w : world) (message : ustring) (type : option ustring) :
  well_formed w ->
  let r := next_uid w in
  let w' := exec (showAlert message type) w in
  well_formed w' /\
  match querySelector container_selector (document w) with
  | Some _ =>
      Permutation (uids (document w')) ([r; S r; S (S r)] ++ uids (document w))
  | None => document w' = document w
  end.
Proof.
  intros (Hnd & Hfr). cbv zeta. unfold well_formed.
  rewrite showAlert_exec. cbv zeta. world_simpl. unfold banner_of.
  destruct (first_match container_selector (document w)) as [c|] eqn:Hc.
  - destruct (first_match_in _ _ _ Hc) as (kids & Hq & Hin). rewrite Hq.
    pose proof (uids_insertFirst_perm (uid c)
                  (banner (next_uid w) (S (next_uid w)) (S (S (next_uid w)))
                          message (type_or_default type))
                  (document w) Hnd Hin) as P.
    rewrite uids_banner in P.
    assert (Hall : Forall (fun x => x < S (S (S (next_uid w))))
                     ([next_uid w; S (next_uid w); S (S (next_uid w))]
                      ++ uids (document w))).
    { apply Forall_app. split; [repeat constructor; lia|].
      eapply Forall_impl; [|exact Hfr]. cbn. intros; lia. }
    assert (Hnd' : NoDup ([next_uid w; S (next_uid w); S (S (next_uid w))]
                          ++ uids (document w))).
    { rewrite Forall_forall in Hfr. cbn [app].
      repeat constructor; try assumption; cbn [In]; intros H;
        repeat (destruct H as [H | H]; [lia|]); apply Hfr in H; lia. }
    repeat split.
    + eapply Permutation_NoDup; [apply Permutation_sym; exact P | exact Hnd'].
    + eapply Permutation_Forall; [apply Permutation_sym; exact P | exact Hall].
    + exact P.
  - apply first_match_none in Hc. rewrite Hc. repeat split; try assumption.
    eapply Forall_impl; [|exact Hfr]. cbn. intros; lia.
Qed.


Lemma sample_well_formed quality : well_formed (sample_world quality).
Proof.
  split.
  - repeat constructor; simpl; intuition discriminate.
  - repeat constructor.
Qed.


Lemma showAlert_first_child w message type c kids :
  NoDup (uids (document w)) ->
  querySelector container_selector (document w) = Some (Elem c kids) ->
  querySelector container_selector (document (exec (showAlert message type) w))
  = Some (Elem c (banner_of w message type :: kids)).
Proof.
  intros Hnd Hq. rewrite showAlert_document, Hq.
  apply querySelector_insertFirst; [apply banner_no_container | | ];
    assumption.
Qed.

(** Two alerts in a row stack: the later banner becomes the first child of
    the container and the earlier one the second, in front of what the
    container held; both fade timers are pending, in the order of the
    calls. *)
Theorem showAlert_twice_stacks
        (w : world) (m1 m2 : ustring) (t1 t2 : option ustring)
        (c : element) (kids : forest) :
  well_formed w ->
  querySelector container_selector (document w) = Some (Elem c kids) ->
  let w1 := exec (showAlert m1 t1) w in
  let w2 := exec (showAlert m2 t2) w1 in
  querySelector container_selector (document w2)
  = Some (Elem c (banner_of w1 m2 t2 :: banner_of w m1 t1 :: kids)) /\
  timers w2 = timers w ++ [((clock w + 5000)%Z, Dismiss (next_uid w));
                           ((clock w + 5000)%Z, Dismiss (next_uid w1))].
Proof.
  intros Hwf Hq. cbv zeta.
  destruct (showAlert_identities w m1 t1 Hwf) as ((Hnd1 & _) & _).
  split.
  - apply showAlert_first_child; [exact Hnd1|].
    apply showAlert_first_child; [apply Hwf | exact Hq].
  - rewrite !showAlert_timers.
    destruct (showAlert_frame m1 t1 w) as (_ & -> & _).
    now rewrite <- app_assoc.
Qed.

Lemma showAlert_twice_stacks_witness :
  let w := sample_world true in
  well_formed w /\
  exists c kids,
    querySelector container_selector (document w) = Some (Elem c kids) /\
    querySelector container_selector
      (document (exec (showAlert msg_copy_failed (Some (u "error")))
                      (exec (showAlert msg_copied None) w)))
    = Some (Elem c (banner_of (exec (showAlert msg_copied None) w)
                              msg_copy_failed (Some (u "error"))
                    :: banner_of w msg_copied None :: kids)).
Proof.
  cbv zeta. split; [apply sample_well_formed|].
  eexists. eexists. split; [reflexivity|].
  apply (showAlert_twice_stacks (sample_world true) msg_copied msg_copy_failed
           None (Some (u "error")));
    [apply sample_well_formed | reflexivity].
Defined.

(** ** One banner from creation to removal *)

Local Open Scope Z_scope.

Lemma tick_single x w :
  timers w = [x] ->
  tick w = Some (exec (run_callback (snd x))
                      (with_clock (Z.max (clock w) (fst x))
                                  (with_timers [] w))).
Proof. unfold tick. intros ->. now destruct x. Qed.

Lemma banner_two_ticks
      (w : world) (message : ustring) (type : option ustring)
      (f g : forest -> forest) :
  timers w = [] ->
  let r := next_uid w in
  let w1 := exec (showAlert message type) w in
  exists w2 w3,
    tick (interact f w1) = Some w2 /\
    clock w2 = clock w + 5000 /\ opacity_zero r w2 /\
    tick (interact g w2) = Some w3 /\
    clock w3 = clock w + 5300 /\ ~ In r (uids (document w3)) /\
    timers w3 = [] /\ tick w3 = None.
Proof.
  intros Ht. cbv zeta.
  set (r := next_uid w). set (w1 := exec (showAlert message type) w).
  destruct (showAlert_frame message type w) as (_ & Hc1 & _).
  fold w1 in Hc1. cbv zeta in Hc1.
  assert (Ht1 : timers (interact f w1) = [(clock w + 5000, Dismiss r)]).
  { unfold interact. world_simpl. unfold w1.
    now rewrite showAlert_timers, Ht. }
  pose proof (tick_single _ _ Ht1) as T1. cbn [fst snd] in T1.
  set (e1 := with_clock (Z.max (clock (interact f w1)) (clock w + 5000))
                        (with_timers [] (interact f w1))) in T1.
  assert (Hce1 : clock e1 = clock w + 5000).
  { unfold e1, interact. world_simpl. rewrite Hc1. lia. }
  destruct (run_callback_Dismiss r e1) as (Hs1 & Hs2 & Htm).
  destruct (run_callback_frame (Dismiss r) e1) as (Hc2 & _).
  set (w2 := exec (run_callback (Dismiss r)) e1) in *.
  assert (Ht2 : timers (interact g w2) = [(clock w + 5300, Remove r)]).
  { unfold interact. world_simpl. rewrite Htm, Hce1. unfold e1.
    world_simpl. cbn [app]. do 2 f_equal. lia. }
  pose proof (tick_single _ _ Ht2) as T2. cbn [fst snd] in T2.
  set (e2 := with_clock (Z.max (clock (interact g w2)) (clock w + 5300))
                        (with_timers [] (interact g w2))) in T2.
  destruct (run_callback_Remove r e2) as (Hgone & Htm3).
  destruct (run_callback_frame (Remove r) e2) as (Hc3 & _).
  assert (Ha2 : alive r w2).
  { apply run_callback_alive.
    exact (interact_alive f r w1 (showAlert_alive message type w)). }
  exists w2, (exec (run_callback (Remove r)) e2).
  split; [exact T1|]. split; [now rewrite Hc2|].
  split; [split; [exact Ha2 | split; assumption]|]. split; [exact T2|].
  split; [|split; [exact Hgone|]].
  - rewrite Hc3. unfold e2, interact. world_simpl. rewrite Hc2, Hce1. lia.
  - assert (E : timers (exec (run_callback (Remove r)) e2) = []).
    { rewrite Htm3. reflexivity. }
    split; [exact E|]. unfold tick. now rewrite E.
Qed.

(** On a page with no other timer pending, whatever the user does to the
    document before the fade and between fade and removal, the banner of
    [showAlert] is faded after exactly 5000 ms and out of the document after
    exactly 5300 ms, and then no timer is left. *)
Theorem alert_lifecycle
        (w : world) (message : ustring) (type : option ustring)
        (f g : forest -> forest) :
  timers w = [] ->
  let r := next_uid w in
  let w1 := exec (showAlert message type) w in
  exists w2 w3,
    tick (interact f w1) = Some w2 /\
    clock w2 = clock w + 5000 /\ opacity_zero r w2 /\
    tick (interact g w2) = Some w3 /\
    clock w3 = clock w + 5300 /\ ~ In r (uids (document w3)) /\
    timers w3 = [] /\ tick w3 = None.
Proof.
  intros Ht. exact (banner_two_ticks w message type f g Ht).
Qed.

Lemma alert_lifecycle_witness :
  let w := sample_world true in
  timers w = [] /\
  exists w2 w3,
    tick (interact (remove 3%nat) (exec (showAlert msg_copied None) w))
    = Some w2 /\
    clock w2 = clock w + 5000 /\ opacity_zero (next_uid w) w2 /\
    tick (interact (fun d => d) w2) = Some w3 /\
    clock w3 = clock w + 5300 /\ ~ In (next_uid w) (uids (document w3)) /\
    timers w3 = [] /\ tick w3 = None.
Proof.
  cbv zeta. split; [reflexivity|].
  apply (alert_lifecycle (sample_world true) msg_copied None). reflexivity.
Defined.

(** Without an element of class [container] the alert never shows: the
    banner stays outside the document, and the document is the same after
    the call, after the fade and after the removal, while both timers still
    run their course. *)
Theorem alert_without_container
        (w : world) (message : ustring) (type : option ustring) :
  querySelector container_selector (document w) = None ->
  Forall (fun x => (x < next_uid w)%nat) (uids (document w)) ->
  timers w = [] ->
  let w1 := exec (showAlert message type) w in
  exists w2 w3,
    document w1 = document w /\
    detached w1 = banner_of w message type :: detached w /\
    tick w1 = Some w2 /\ document w2 = document w /\
    clock w2 = clock w + 5000 /\
    tick w2 = Some w3 /\ document w3 = document w /\
    clock w3 = clock w + 5300 /\ timers w3 = [].
Proof.
  intros Hq Hfr Ht. cbv zeta.
  pose proof (fresh_not_in w Hfr) as Hr.
  destruct (banner_two_ticks w message type (fun d => d) (fun d => d) Ht)
    as (w2 & w3 & T1 & Hc2 & _ & T2 & Hc3 & _ & Ht3 & _).
  set (w1 := exec (showAlert message type) w) in *.
  assert (Hd1 : document w1 = document w).
  { unfold w1. now rewrite showAlert_document, Hq. }
  assert (I : forall x, interact (fun d => d) x = x).
  { intros x. unfold interact. cbv zeta.
    rewrite orphans_none by apply incl_refl. rewrite app_nil_r.
    unfold with_detached, with_document. world_simpl. apply world_eta. }
  rewrite I in T1, T2.
  exists w2, w3. split; [exact Hd1|].
  split; [unfold w1; now rewrite showAlert_detached, Hq|].
  split; [exact T1|].
  assert (Hd2 : document w2 = document w).
  { destruct (tick_spec _ _ T1) as (due & t & rest & Hpop & ->).
    unfold w1 in Hpop. rewrite showAlert_timers, Ht in Hpop.
    cbn in Hpop. injection Hpop as <- <- <-.
    unfold exec, run_callback, bind, modify, setTimeout, at_due.
    world_simpl. rewrite Hd1. now apply setStyle_absent. }
  split; [exact Hd2|]. split; [exact Hc2|]. split; [exact T2|].
  split; [|split; assumption].
  destruct (tick_spec _ _ T2) as (due & t & rest & Hpop & ->).
  destruct (tick_spec _ _ T1) as (due1 & t1 & rest1 & Hpop1 & E).
  unfold w1 in Hpop1. rewrite showAlert_timers, Ht in Hpop1.
  cbn in Hpop1. injection Hpop1 as <- <- <-.
  rewrite E in Hpop.
  unfold exec, run_callback, bind, modify, setTimeout, at_due in Hpop.
  world_simpl_in Hpop. cbn in Hpop. injection Hpop as <- <- <-.
  unfold exec, run_callback, modify, at_due. world_simpl.
  rewrite Hd2. now apply remove_absent.
Qed.

Definition bare_world : world :=
  mkWorld [el 0%nat "html" "" [el 1%nat "body" "" [Text (u "hello")]]]
          [] 2%nat 0 [] [] None false.

Lemma alert_without_container_witness :
  querySelector container_selector (document bare_world) = None /\
  Forall (fun x => (x < next_uid bare_world)%nat) (uids (document bare_world))
  /\ timers bare_world = [] /\
  exists w2 w3,
    tick (exec (showAlert msg_copied None) bare_world) = Some w2 /\
    tick w2 = Some w3 /\ document w3 = document bare_world.
Proof.
  assert (Hf : Forall (fun x => (x < next_uid bare_world)%nat)
                      (uids (document bare_world))).
  { repeat constructor. }
  split; [reflexivity|]. split; [exact Hf|]. split; [reflexivity|].
  destruct (alert_without_container bare_world msg_copied None
              eq_refl Hf eq_refl)
    as (w2 & w3 & _ & _ & T1 & _ & _ & T2 & Hd & _).
  now exists w2, w3.
Defined.

(** ** The clipboard helper, path by path *)

Local Close Scope Z_scope.



(** Without [document.body] the fallback throws as soon as it reaches for
    the body: no text area, no alert. Called directly (no clipboard API),
    [copyToClipboard] throws too; called after a rejected clipboard write,
    the exception is lost in the promise and all that remains is the line
    on the console. *)
Theorem clipboard_without_body (p : platform) (text : ustring) (w : world) :
  body (document w) = None ->
  let w0 := with_next_uid (S (next_uid w)) w in
  fallbackCopyTextToClipboard p text w = (Throw (u "TypeError"), w0) /\
  (clipboard_api p && secure_context p = false ->
   copyToClipboard p text w = (Throw (u "TypeError"), w0)) /\
  (clipboard_api p && secure_context p = true ->
   writeText_fulfilled p = false ->
   copyToClipboard p text w
   = (Normal tt,
      with_next_uid (S (next_uid w))
        (with_console (console w ++ [u "Failed to copy: " ++ writeText_reason p])
                      w))).
Proof.
  intros Hb. cbv zeta.
  assert (F : forall x, document x = document w ->
            fallbackCopyTextToClipboard p text x
            = (Throw (u "TypeError"), with_next_uid (S (next_uid x)) x)).
  { intros x Hx. unfold fallbackCopyTextToClipboard, bind, fresh,
      document_body. world_simpl. now rewrite Hx, Hb. }
  split; [now apply F|]. split.
  - intros E. unfold copyToClipboard. rewrite E. now apply F.
  - intros E Ew. unfold copyToClipboard. rewrite E, Ew.
    unfold reaction, try_catch, bind, console_error, modify.
    rewrite F by reflexivity. reflexivity.
Qed.

Lemma clipboard_without_body_witness :
  let w := mkWorld [Text (u "loading")] [] 0 0%Z [] [] None false in
  body (document w) = None /\
  fallbackCopyTextToClipboard (no_clipboard_api Copied) (u "x") w
  = (Throw (u "TypeError"), with_next_uid 1 w).
Proof.
  cbv zeta. split; [reflexivity|].
  destruct (clipboard_without_body (no_clipboard_api Copied) (u "x")
              (mkWorld [Text (u "loading")] [] 0 0%Z [] [] None false)
              eq_refl) as (H & _).
  exact H.
Defined.

End LifecycleFacts.

(* ===================================================================== *)
(** * Page load and the dispatch of submit events *)
(* ===================================================================== *)

Module Startup.
Import Dom Browser Validator Page DomFacts PageFacts.

(** ** The selectors of the page-load listener *)

Fixpoint starts_with (p s : ustring) : bool :=
  match p, s with
  | [], _ => true
  | c :: p', d :: s' => N.eqb c d && starts_with p' s'
  | _ :: _, [] => false
  end.

(** [s] has [sub] as a substring. *)
Fixpoint includes (sub s : ustring) : bool :=
  starts_with sub s ||
  match s with
  | [] => false
  | _ :: s' => includes sub s'
  end.

(** [getElementById(id)]: the first element, in document order, whose [id]
    attribute is [id]. *)
Definition has_id (id : ustring) (e : element) : bool :=
  match getAttribute (u "id") e with
  | Some v => ueqb v id
  | None => false
  end.

(** The selector [form[action*="sub"]], for a non-empty [sub]. *)
Definition form_with_action (sub : ustring) (e : element) : bool :=
  ueqb (localName e) (u "form") &&
  match getAttribute (u "action") e with
  | Some a => includes sub a
  | None => false
  end.

(** ** The listeners the page-load listener attaches *)

(** A submit listener, with the form it is attached to; the analyze
    listener closes over the element found under the id [url]. *)
Inductive listener : Type :=
| OnAnalyze (form urlInput : ref)
| OnDownload (form : ref).

Definition node_ref (n : option node) : option ref :=
  match n with
  | Some (Elem e _) => Some (uid e)
  | _ => None
  end.

(** The function run on [DOMContentLoaded]: it returns the listeners it
    attached, in the order of attachment. *)
Definition onDOMContentLoaded : M (list listener) :=
  urlInput <- gets (fun w =>
                node_ref (querySelector (has_id (u "url")) (document w))) ;;
  form <- gets (fun w =>
            node_ref (querySelector (form_with_action (u "analyze"))
                                    (document w))) ;;
  let analyze :=
    match form, urlInput with
    | Some f, Some i => [OnAnalyze f i]
    | _, _ => []
    end in
  downloadForm <- gets (fun w =>
                    node_ref (querySelector
                                (form_with_action (u "start_download"))
                                (document w))) ;;
  let download :=
    match downloadForm with
    | Some f => [OnDownload f]
    | None => []
    end in
  autoDismissPass ;;
  ret (analyze ++ download).

(** ** Dispatch *)

(** One listener receiving a submit event whose target is the form
    [target]. [value_of r] is the [value] property of the element [r] when
    it is a string; without one, [urlInput.value.trim()] throws. *)
Definition run_listener (value_of : ref -> option ustring) (target : ref)
           (l : listener) : M unit :=
  match l with
  | OnAnalyze f i =>
      if Nat.eqb f target then
        match value_of i with
        | Some value => analyzeSubmit value
        | None => throw (u "TypeError")
        end
      else ret tt
  | OnDownload f => if Nat.eqb f target then downloadSubmit else ret tt
  end.

(** A submit event on the form [target]: the listeners run in order, an
    exception in one is reported and does not stop the others, and the
    result tells whether the form is then submitted. *)
Definition submit (ls : list listener) (value_of : ref -> option ustring)
           (target : ref) : M bool :=
  modify (with_defaultPrevented false) ;;
  forEach ls (fun l =>
    try_catch (run_listener value_of target l) (fun _ => ret tt)) ;;
  prevented <- gets defaultPrevented ;;
  ret (negb prevented).

(** ** What page load attaches *)

Lemma autoDismissPass_completes w :
  autoDismissPass w = (Normal tt, exec autoDismissPass w).
Proof.
  unfold exec, autoDismissPass, bind, gets. now rewrite forEach_autoDismiss.
Qed.

Definition found (p : element -> bool) (w : world) : option ref :=
  node_ref (querySelector p (document w)).

Lemma onDOMContentLoaded_run w :
  onDOMContentLoaded w =
  (Normal
     ((match found (form_with_action (u "analyze")) w,
             found (has_id (u "url")) w with
       | Some f, Some i => [OnAnalyze f i]
       | _, _ => []
       end) ++
      (match found (form_with_action (u "start_download")) w with
       | Some f => [OnDownload f]
       | None => []
       end)),
   exec autoDismissPass w).
Proof.
  unfold onDOMContentLoaded, bind, gets, ret, found.
  now rewrite autoDismissPass_completes.
Qed.

Lemma analyzeSubmit_result value w :
  exists w', analyzeSubmit value w = (Normal tt, w') /\
    defaultPrevented w' =
    if isValidYouTubeUrl (trim value) then defaultPrevented w else true.
Proof.
  rewrite analyzeSubmit_cases.
  destruct (truthy (trim value)) eqn:T; cbn [negb].
  - destruct (isValidYouTubeUrl (trim value)); cbn [negb].
    + now exists w.
    + eexists. split; [reflexivity | apply blocked_with_prevented].
  - apply truthy_false_iff in T. rewrite T.
    eexists. split; [reflexivity | apply blocked_with_prevented].
Qed.

Lemma downloadSubmit_result w :
  exists w', downloadSubmit w = (Normal tt, w') /\
    defaultPrevented w' =
    match querySelector quality_checked (document w) with
    | Some _ => defaultPrevented w
    | None => true
    end.
Proof.
  rewrite downloadSubmit_cases.
  destruct (querySelector quality_checked (document w)).
  - now exists w.
  - eexists. split; [reflexivity | apply blocked_with_prevented].
Qed.

Lemma found_some p w r :
  found p w = Some r ->
  exists e kids,
    querySelector p (document w) = Some (Elem e kids) /\
    uid e = r /\ p e = true /\ In r (uids (document w)).
Proof.
  unfold found. destruct (querySelector p (document w)) as [n|] eqn:H;
    [|discriminate].
  destruct (querySelector_some _ _ _ H) as (e & k & -> & Hp & Hin).
  cbn [node_ref]. intros [= <-]. now exists e, k.
Qed.

(** The element of the document a listener is attached to. *)
Definition attached_to (l : listener) : ref :=
  match l with
  | OnAnalyze f _ => f
  | OnDownload f => f
  end.

(** The text the selector of a listener's form looks for. *)
Definition action_word (l : listener) : ustring :=
  match l with
  | OnAnalyze _ _ => u "analyze"
  | OnDownload _ => u "start_download"
  end.

(** Page load never throws, whatever the document, and touches nothing but
    the timers. It attaches at most two listeners, each to a [form] element
    of the document whose [action] contains the word of its selector; the
    analyze listener holds an element of the document whose id is [url]. *)
Theorem onDOMContentLoaded_attaches (w : world) :
  exists ls w',
    onDOMContentLoaded w = (Normal ls, w') /\
    document w' = document w /\ detached w' = detached w /\
    console w' = console w /\ clipboard w' = clipboard w /\
    List.length ls <= 2 /\
    forall l, In l ls ->
      (exists e kids,
         In (Elem e kids) (querySelectorAll
                             (form_with_action (action_word l)) (document w)) /\
         uid e = attached_to l) /\
      match l with
      | OnAnalyze _ i =>
          exists e kids,
            In (Elem e kids) (querySelectorAll (has_id (u "url")) (document w))
            /\ uid e = i
      | OnDownload _ => True
      end.
Proof.
  rewrite onDOMContentLoaded_run. eexists. eexists. split; [reflexivity|].
  assert (Q : forall p r, found p w = Some r ->
            exists e kids,
              In (Elem e kids) (querySelectorAll p (document w)) /\ uid e = r).
  { intros p r H. destruct (found_some _ _ _ H) as (e & kids & Hq & Hu & _).
    exists e, kids. split; [|exact Hu].
    unfold querySelector in Hq. apply find_some in Hq.
    unfold querySelectorAll. apply filter_In. exact Hq. }
  unfold exec, autoDismissPass, bind, gets. rewrite forEach_autoDismiss.
  cbn [snd]. world_simpl.
  split; [reflexivity|]. split; [reflexivity|]. split; [reflexivity|].
  split; [reflexivity|].
  destruct (found (form_with_action (u "analyze")) w) as [f|] eqn:F;
    [destruct (found (has_id (u "url")) w) as [i|] eqn:U|];
    destruct (found (form_with_action (u "start_download")) w) as [d|] eqn:D;
    cbn [app List.length]; (split; [lia|]); intros l Hl; cbn [In] in Hl;
    repeat (destruct Hl as [<- | Hl]); try contradiction;
    cbn [action_word attached_to]; (split; [|try exact I]);
    now apply Q.
Qed.

(** On a page that has both a form whose action contains [analyze] and an
    element of id [url], wherever that element is, a submit event on that
    form goes through exactly when the trimmed value of the element is
    accepted by [isValidYouTubeUrl], provided the form is not also the
    download form. *)
Theorem submit_analyze_validated
        (w : world) (f i : ref) (value_of : ref -> option ustring)
        (value : ustring) (w' : world) :
  found (form_with_action (u "analyze")) w = Some f ->
  found (has_id (u "url")) w = Some i ->
  found (form_with_action (u "start_download")) w <> Some f ->
  value_of i = Some value ->
  exists ls w'',
    fst (onDOMContentLoaded w) = Normal ls /\
    submit ls value_of f w'
    = (Normal (isValidYouTubeUrl (trim value)), w'').
Proof.
  intros Hf Hi Hd Hv. rewrite onDOMContentLoaded_run, Hf, Hi. cbn [fst].
  destruct (analyzeSubmit_result value (with_defaultPrevented false w'))
    as (w1 & E & P).
  world_simpl_in P.
  assert (A : try_catch (run_listener value_of f (OnAnalyze f i))
                        (fun _ => ret tt) (with_defaultPrevented false w')
              = (Normal tt, w1)).
  { unfold try_catch, run_listener. now rewrite Nat.eqb_refl, Hv, E. }
  assert (R : forall ls,
            forEach ls (fun l => try_catch (run_listener value_of f l)
                                           (fun _ => ret tt))
                    (with_defaultPrevented false w') = (Normal tt, w1) ->
            submit ls value_of f w'
            = (Normal (isValidYouTubeUrl (trim value)), w1)).
  { intros ls H. unfold submit.
    erewrite bind_run; [|reflexivity].
    erewrite bind_run; [|exact H].
    erewrite bind_run; [|reflexivity].
    unfold ret. rewrite P. now destruct (isValidYouTubeUrl (trim value)). }
  eexists. exists w1. split; [reflexivity|]. apply R.
  destruct (found (form_with_action (u "start_download")) w) as [d|] eqn:D;
    cbn [app forEach]; (erewrite bind_run; [|exact A]); [|reflexivity].
  assert (Hne : Nat.eqb d f = false).
  { apply Nat.eqb_neq. intros ->. now apply Hd. }
  erewrite bind_run; [reflexivity|].
  unfold try_catch, run_listener. now rewrite Hne.
Qed.

(** The sample page with an analyze form, optionally with its URL field. *)
Definition input_url (r : ref) : node :=
  Elem (mkElement r (u "input") [(u "type", u "text"); (u "id", u "url")]
                  false [] []) [].

Definition analyze_page (with_field : bool) : world :=
  mkWorld
    [el 0 "html" ""
       [el 1 "body" ""
          [el 2 "div" "container"
             [Elem (new_element 3 (u "form") [(u "action", u "/analyze")])
                   (if with_field then [input_url 4] else [])]]]]
    [] 5 0 [] [] None false.

Lemma submit_analyze_validated_witness :
  exists ls w'',
    fst (onDOMContentLoaded (analyze_page true)) = Normal ls /\
    submit ls (fun _ => Some (u "not a link")) 3 (analyze_page true)
    = (Normal false, w'').
Proof.
  apply (submit_analyze_validated (analyze_page true) 3 4
           (fun _ => Some (u "not a link")) (u "not a link")
           (analyze_page true));
    try reflexivity. discriminate.
Defined.

(** Without an element of id [url] no URL is ever checked: a submit event
    on any form but the download form goes through, whatever was typed, and
    nothing is shown. The same holds when the element of id [url] has no
    string [value]: the listener throws and the form is submitted. *)
Theorem submit_not_validated
        (w : world) (value_of : ref -> option ustring)
        (target : ref) (w' : world) :
  (found (has_id (u "url")) w = None \/
   found (form_with_action (u "analyze")) w <> Some target \/
   exists i, found (has_id (u "url")) w = Some i /\ value_of i = None) ->
  found (form_with_action (u "start_download")) w <> Some target ->
  exists ls,
    fst (onDOMContentLoaded w) = Normal ls /\
    submit ls value_of target w'
    = (Normal true, with_defaultPrevented false w').
Proof.
  intros Ha Hd. rewrite onDOMContentLoaded_run. cbn [fst].
  eexists. split; [reflexivity|].
  set (x := with_defaultPrevented false w').
  assert (R : forall ls,
            forEach ls (fun l => try_catch (run_listener value_of target l)
                                           (fun _ => ret tt)) x
            = (Normal tt, x) ->
            submit ls value_of target w' = (Normal true, x)).
  { intros ls H. unfold submit.
    erewrite bind_run; [|reflexivity].
    erewrite bind_run; [|exact H].
    erewrite bind_run; [|reflexivity]. reflexivity. }
  apply R.
  assert (D : forEach
                (match found (form_with_action (u "start_download")) w with
                 | Some f => [OnDownload f]
                 | None => []
                 end)
                (fun l => try_catch (run_listener value_of target l)
                                    (fun _ => ret tt)) x
              = (Normal tt, x)).
  { destruct (found (form_with_action (u "start_download")) w) as [d|];
      [|reflexivity].
    assert (Hne : Nat.eqb d target = false).
    { apply Nat.eqb_neq. intros ->. now apply Hd. }
    unfold forEach, bind, try_catch, run_listener, ret. now rewrite Hne. }
  destruct (found (form_with_action (u "analyze")) w) as [f|] eqn:F;
    [destruct (found (has_id (u "url")) w) as [i|] eqn:I|];
    cbn [app]; try exact D.
  cbn [forEach]. erewrite bind_run; [exact D|].
  unfold try_catch, run_listener, ret, throw.
  destruct Ha as [Ha | [Ha | (i' & Hi & Hv)]].
  - discriminate.
  - destruct (Nat.eqb_spec f target) as [->|_]; [|reflexivity].
    now contradiction Ha.
  - injection Hi as <-. rewrite Hv. now destruct (Nat.eqb f target).
Qed.

Lemma submit_not_validated_witness :
  exists ls,
    fst (onDOMContentLoaded (analyze_page false)) = Normal ls /\
    submit ls (fun _ => Some (u "not a link")) 3 (analyze_page false)
    = (Normal true, with_defaultPrevented false (analyze_page false)).
Proof.
  apply (submit_not_validated (analyze_page false)
           (fun _ => Some (u "not a link")) 3 (analyze_page false)).
  - left. reflexivity.
  - discriminate.
Defined.

(** On a page with a form whose action contains [start_download], a submit
    event on that form goes through exactly when some input named [quality]
    anywhere in the document is checked, provided the form is not also the
    analyze form. *)
Theorem submit_download_validated
        (w : world) (d : ref) (value_of : ref -> option ustring) (w' : world) :
  found (form_with_action (u "start_download")) w = Some d ->
  found (form_with_action (u "analyze")) w <> Some d ->
  exists ls w'',
    fst (onDOMContentLoaded w) = Normal ls /\
    submit ls value_of d w'
    = (Normal (match querySelector quality_checked (document w') with
               | Some _ => true
               | None => false
               end), w'').
Proof.
  intros Hd Ha. rewrite onDOMContentLoaded_run, Hd. cbn [fst].
  set (x := with_defaultPrevented false w').
  destruct (downloadSubmit_result x) as (w1 & E & P).
  unfold x in P. world_simpl_in P. fold x in P.
  assert (L : forEach [OnDownload d]
                      (fun l => try_catch (run_listener value_of d l)
                                          (fun _ => ret tt)) x
              = (Normal tt, w1)).
  { unfold forEach, bind, try_catch, run_listener, ret.
    now rewrite Nat.eqb_refl, E. }
  eexists. exists w1. split; [reflexivity|].
  unfold submit. fold x.
  erewrite bind_run; [|reflexivity]. fold x.
  erewrite bind_run.
  - erewrite bind_run; [|reflexivity]. unfold ret. rewrite P.
    now destruct (querySelector quality_checked (document w')).
  - destruct (found (form_with_action (u "analyze")) w) as [f|];
      [destruct (found (has_id (u "url")) w) as [i|]|]; cbn [app];
      try exact L.
    assert (Hne : Nat.eqb f d = false).
    { apply Nat.eqb_neq. intros ->. now apply Ha. }
    cbn [forEach]. erewrite bind_run; [|].
    + erewrite bind_run; [reflexivity|].
      unfold try_catch, run_listener. now rewrite Nat.eqb_refl, E.
    + unfold try_catch, run_listener. now rewrite Hne.
Qed.

Definition download_page (quality : bool) : world :=
  mkWorld
    [el 0 "html" ""
       [el 1 "body" ""
          [Elem (new_element 2 (u "form") [(u "action", u "/start_download")])
                [];
           radio 3 quality]]]
    [] 4 0 [] [] None false.

Lemma submit_download_validated_witness :
  exists ls w'',
    fst (onDOMContentLoaded (download_page true)) = Normal ls /\
    submit ls (fun _ => None) 2 (download_page true) = (Normal true, w'').
Proof.
  apply (submit_download_validated (download_page true) 2 (fun _ => None)
           (download_page true)); [reflexivity | discriminate].
Defined.

End Startup.
